(** * Word-grid puzzle engine (script.js): a shallow embedding and its properties

    The development follows the class [BoggleGame] of [script.js]:
    the scoring table, the selection path tracker driven by pointer
    events, word submission, the exhaustive solver and the grid
    generator with its quality retry loop.

    JavaScript strings are sequences of UTF-16 code units; they are
    modelled as lists of code units, so that [length], [startsWith] and
    string equality are the ones of the source. *)

From stdpp Require Import base numbers option list gmap.

Local Open Scope Z_scope.

(** ** Strings *)

Abbreviation jsstring := (list N).

(** [s.charAt(k)]: the one-unit string at index [k], the empty string out
    of range. *)
Definition charAt (s : jsstring) (k : nat) : jsstring :=
  match s !! k with
  | Some u => [u]
  | None => []
  end.

(** [w.startsWith(p)] *)
Definition startsWith (w p : jsstring) : bool := bool_decide (p `prefix_of` w).

(** [arr.includes(w)] on an array of strings *)
Definition includes (arr : list jsstring) (w : jsstring) : bool :=
  bool_decide (w ∈ arr).

(** A JavaScript [Set] of strings keeps insertion order; [add] of a
    member changes nothing. *)
Definition setAdd (w : jsstring) (s : list jsstring) : list jsstring :=
  if bool_decide (w ∈ s) then s else s ++ [w].

(** [String.prototype.toLocaleUpperCase('tr-TR')] is a function of the
    platform; the program is parametrised by it. *)
Class Locale := { toLocaleUpperCase : jsstring → jsstring }.

(** ** Outcomes of fallible code

    [Fault] stands for an access the source does not guard (a row or a
    die that is not there, where JavaScript throws a TypeError or reads
    [undefined]); [OutOfFuel] is the model running out of recursion
    budget. The theorems show that neither arises on well-formed data. *)
Inductive outcome (A : Type) : Type :=
  | Done (a : A)
  | Fault
  | OutOfFuel.
Arguments Done {A} a.
Arguments Fault {A}.
Arguments OutOfFuel {A}.

Definition obind {A B} (m : outcome A) (f : A → outcome B) : outcome B :=
  match m with
  | Done a => f a
  | Fault => Fault
  | OutOfFuel => OutOfFuel
  end.

Notation "x ← m ;;; k" := (obind m (λ x, k))
  (at level 20, m at level 100, k at level 200, right associativity,
   format "x  ←  m  ;;;  '/' k").

Definition orFault {A} (o : option A) : outcome A :=
  match o with
  | Some a => Done a
  | None => Fault
  end.

(** ** Constants of the script *)

Definition DICE : list jsstring := [
  [65; 69; 69; 71; 109; 78]; [65; 65; 69; 79; 79; 84];
  [65; 73; 73; 350; 83; 84]; [69; 304; 304; 79; 350; 84];
  [65; 65; 66; 70; 75; 80]; [69; 69; 71; 72; 78; 86];
  [68; 69; 304; 76; 82; 89]; [68; 69; 304; 76; 286; 82];
  [66; 74; 75; 76; 77; 90]; [69; 69; 304; 78; 83; 85];
  [69; 72; 82; 84; 86; 90]; [72; 76; 78; 78; 82; 90];
  [73; 77; 79; 84; 85; 220]; [65; 199; 69; 76; 82; 83];
  [68; 304; 83; 84; 84; 89]; [79; 214; 80; 82; 84; 89] ]%N.

Definition DICE_EXTENDED : list jsstring := [
  [65; 65; 65; 70; 82; 83]; [65; 65; 69; 69; 69; 69];
  [65; 65; 70; 73; 82; 83]; [65; 68; 69; 78; 78; 78];
  [65; 69; 69; 69; 69; 77]; [65; 69; 69; 71; 77; 85];
  [65; 69; 71; 77; 78; 78]; [65; 70; 73; 82; 83; 89];
  [66; 74; 75; 81; 88; 90]; [67; 67; 69; 78; 83; 84];
  [67; 69; 73; 73; 76; 84]; [67; 69; 73; 76; 80; 84];
  [67; 69; 73; 80; 83; 84]; [68; 68; 72; 78; 79; 84];
  [68; 72; 72; 76; 79; 82]; [68; 72; 76; 78; 79; 82];
  [68; 68; 76; 78; 79; 82]; [69; 73; 73; 73; 84; 84];
  [69; 77; 79; 84; 84; 84]; [69; 78; 83; 83; 83; 85];
  [70; 73; 80; 82; 83; 89]; [71; 79; 82; 82; 86; 87];
  [72; 73; 80; 82; 82; 89]; [78; 79; 79; 84; 85; 87];
  [79; 79; 79; 84; 84; 85] ]%N.

(** [const SCORING = { 3: 1, 4: 1, 5: 2, 6: 3, 7: 5, 8: 11 }] *)
Definition SCORING : gmap nat Z :=
  {[ 3%nat := 1; 4%nat := 1; 5%nat := 2; 6%nat := 3; 7%nat := 5; 8%nat := 11 ]}.

(** ** The game object *)

(** A selected cell [{r, c, el}]; the DOM element is not modelled. *)
Abbreviation Cell := (Z * Z)%type.

Abbreviation Grid := (list (list jsstring)).

(** The state of a search: the visited matrix and the set of words found,
    both shared by all calls. *)
Abbreviation SearchState := (list (list bool) * list jsstring)%type.

(** What [showMessage] last displayed. *)
Inductive Toast : Type :=
  | TooShort            (* "Çok Kısa!" *)
  | AlreadyFound        (* "Zaten Bulundu!" *)
  | NotFound            (* "Kelime Bulunamadı" *)
  | Points (n : Z).     (* "+n Puan!" *)

Record Game : Type := mkGame {
  gridSize : nat;
  grid : Grid;
  selectedCells : list Cell;
  currentWord : jsstring;        (* currentWordEl.textContent *)
  foundWords : list jsstring;    (* a Set, in insertion order *)
  score : Z;
  isGameActive : bool;
  isDragging : bool;
  interactionMoved : bool;       (* undefined until the first press: falsy *)
  messageToast : option Toast
}.

Definition set_grid (g : Game) (x : Grid) : Game :=
  mkGame (gridSize g) x (selectedCells g) (currentWord g) (foundWords g)
    (score g) (isGameActive g) (isDragging g) (interactionMoved g) (messageToast g).
Definition set_selectedCells (g : Game) (x : list Cell) : Game :=
  mkGame (gridSize g) (grid g) x (currentWord g) (foundWords g)
    (score g) (isGameActive g) (isDragging g) (interactionMoved g) (messageToast g).
Definition set_currentWord (g : Game) (x : jsstring) : Game :=
  mkGame (gridSize g) (grid g) (selectedCells g) x (foundWords g)
    (score g) (isGameActive g) (isDragging g) (interactionMoved g) (messageToast g).
Definition set_foundWords (g : Game) (x : list jsstring) : Game :=
  mkGame (gridSize g) (grid g) (selectedCells g) (currentWord g) x
    (score g) (isGameActive g) (isDragging g) (interactionMoved g) (messageToast g).
Definition set_score (g : Game) (x : Z) : Game :=
  mkGame (gridSize g) (grid g) (selectedCells g) (currentWord g) (foundWords g)
    x (isGameActive g) (isDragging g) (interactionMoved g) (messageToast g).
Definition set_isDragging (g : Game) (x : bool) : Game :=
  mkGame (gridSize g) (grid g) (selectedCells g) (currentWord g) (foundWords g)
    (score g) (isGameActive g) x (interactionMoved g) (messageToast g).
Definition set_interactionMoved (g : Game) (x : bool) : Game :=
  mkGame (gridSize g) (grid g) (selectedCells g) (currentWord g) (foundWords g)
    (score g) (isGameActive g) (isDragging g) x (messageToast g).
Definition showMessage (g : Game) (x : Toast) : Game :=
  mkGame (gridSize g) (grid g) (selectedCells g) (currentWord g) (foundWords g)
    (score g) (isGameActive g) (isDragging g) (interactionMoved g) (Some x).

(** [grid[r][c]] for integers [r], [c]: [None] where the row or the
    column is not there. *)
Definition gridAt (gr : Grid) (r c : Z) : option jsstring :=
  if (r <? 0) || (c <? 0) then None
  else row ← gr !! Z.to_nat r; row !! Z.to_nat c.

(** ** Scoring *)

(** [SCORING[len] || 1]: the right operand when the left one is
    [undefined] or [0]. *)
Definition getScore (word : jsstring) : Z :=
  let len := length word in
  if (8 <=? len)%nat then 11
  else match SCORING !! len with
       | Some v => if v =? 0 then 1 else v
       | None => 1
       end.

Definition addScore (word : jsstring) (g : Game) : Game :=
  set_score g (score g + getScore word).

(** ** Selection path tracker *)

(** The cells of the page carry the coordinates of the rendered grid, so
    the row of a selected cell exists; a missing letter joins as the
    empty string. *)
Definition updateCurrentWord (g : Game) : Game :=
  set_currentWord g
    (concat (map (λ item : Cell, default [] (gridAt (grid g) item.1 item.2))
                 (selectedCells g))).

Definition isCellSelected (g : Game) (r c : Z) : bool :=
  existsb (λ cell : Cell, (cell.1 =? r) && (cell.2 =? c)) (selectedCells g).

Definition selectCell (cellEl : Cell) (g : Game) : Game :=
  updateCurrentWord (set_selectedCells g (selectedCells g ++ [cellEl])).

(** [pop] removes the last element, if there is one. *)
Definition deselectLast (g : Game) : Game :=
  match last (selectedCells g) with
  | Some removed =>
      updateCurrentWord
        (set_selectedCells g
           (take (length (selectedCells g) - 1)%nat (selectedCells g)))
  | None => g
  end.

Definition clearSelection (g : Game) : Game :=
  updateCurrentWord (set_selectedCells g []).

Definition trySelectCell (cellEl : Cell) (g : Game) : Game :=
  let r := cellEl.1 in
  let c := cellEl.2 in
  let lastSelected := last (selectedCells g) in
  let backtrack :=
    if (1 <? length (selectedCells g))%nat then
      match selectedCells g !! (length (selectedCells g) - 2)%nat with
      | Some penUlt => (penUlt.1 =? r) && (penUlt.2 =? c)
      | None => false
      end
    else false in
  if backtrack then deselectLast g
  else
    match lastSelected with
    | Some lastSel =>
        let dr := Z.abs (r - lastSel.1) in
        let dc := Z.abs (c - lastSel.2) in
        if (dr <=? 1) && (dc <=? 1) && negb ((dr =? 0) && (dc =? 0)) then
          if negb (isCellSelected g r c) then selectCell cellEl g else g
        else g
    | None => selectCell cellEl g
    end.

Section Program.
Context {locale : Locale}.

(** The global [commonWords] of dictionary.js: [None] when it is
    [undefined]. *)
Variable commonWords : option (list jsstring).

(** ** Submission *)

Definition submitWord (isAuto : bool) (g : Game) : Game :=
  if negb (isGameActive g) then g
  else
    let word := toLocaleUpperCase (currentWord g) in
    if (length word <? 3)%nat then
      clearSelection (if negb isAuto then showMessage g TooShort else g)
    else if bool_decide (word ∈ foundWords g) then
      clearSelection (showMessage g AlreadyFound)
    else if match commonWords with
            | Some words => negb (includes words word)
            | None => false
            end then
      clearSelection (showMessage g NotFound)
    else
      let g1 := addScore word g in
      let g2 := set_foundWords g1 (setAdd word (foundWords g1)) in
      clearSelection (showMessage g2 (Points (getScore word))).

(** ** Pointer events

    [getCellFromEvent] resolves the event to a cell of the page or to
    [null]; the handlers take its result. *)

Definition handleInputStart (cell : option Cell) (g : Game) : Game :=
  if negb (isGameActive g) then g
  else
    match cell with
    | Some cellEl =>
        trySelectCell cellEl (set_interactionMoved (set_isDragging g true) false)
    | None => g
    end.

Definition handleInputMove (cell : option Cell) (g : Game) : Game :=
  if negb (isDragging g) || negb (isGameActive g) then g
  else
    match cell with
    | Some cellEl =>
        let previousLength := length (selectedCells g) in
        let g1 := trySelectCell cellEl g in
        if negb (length (selectedCells g1) =? previousLength)%nat
        then set_interactionMoved g1 true
        else g1
    | None => g
    end.

Definition handleInputEnd (g : Game) : Game :=
  if isDragging g then
    let g1 := set_isDragging g false in
    if interactionMoved g1 && (1 <=? length (selectedCells g1))%nat
    then submitWord true g1
    else g1
  else g.

(** ** Solver *)

(** A [for] loop over [xs] whose body updates the state and may fail. *)
Fixpoint forEach {S A : Type} (xs : list A) (body : A → S → outcome S)
    (s : S) : outcome S :=
  match xs with
  | [] => Done s
  | x :: xs' => s' ← body x s ;;; forEach xs' body s'
  end.

(** [for (let i = 0; i < n; i++)]: the values of [i] *)
Definition upTo (n : nat) : list Z := seqZ 0 (Z.of_nat n).

(** [visited[r][c]] and [visited[r][c] = b], for [r], [c] in the matrix *)
Definition visitedAt (visited : list (list bool)) (r c : Z) : option bool :=
  row ← visited !! Z.to_nat r; row !! Z.to_nat c.

Definition setVisited (visited : list (list bool)) (r c : Z) (b : bool)
    : option (list (list bool)) :=
  row ← visited !! Z.to_nat r;
  if decide (Z.to_nat c < length row)%nat
  then Some (<[Z.to_nat r := <[Z.to_nat c := b]> row]> visited)
  else None.

(** The recursion of the source has no counter; the model bounds the
    depth of nested calls that descend: a unit of [fuel] is spent by a
    call that marks its cell and goes on to the neighbours, none by a
    call that returns at once. *)
Fixpoint recursivelyFind (g : Game) (fuel : nat) (r c : Z)
    (currentPrefix : jsstring) (st : SearchState) : outcome SearchState :=
  let N := Z.of_nat (gridSize g) in
  if (r <? 0) || (N <=? r) || (c <? 0) || (N <=? c) then Done st
  else
    v ← orFault (visitedAt st.1 r c) ;;;
    if (v : bool) then Done st
    else
      char ← orFault (gridAt (grid g) r c) ;;;
      let nextPrefix := currentPrefix ++ char in
      let potential :=
        match commonWords with
        | Some words => existsb (λ w, startsWith w nextPrefix) words
        | None => false
        end in
      if negb potential then Done st
      else
        match fuel with
        | O => OutOfFuel
        | S fuel' =>
            visited1 ← orFault (setVisited st.1 r c true) ;;;
            let found1 :=
              if (3 <=? length nextPrefix)%nat
                 && match commonWords with
                    | Some words => includes words nextPrefix
                    | None => false
                    end
              then setAdd nextPrefix st.2 else st.2 in
            st2 ← forEach [-1; 0; 1] (λ dr,
                    forEach [-1; 0; 1] (λ dc s,
                      if (dr =? 0) && (dc =? 0) then Done s
                      else recursivelyFind g fuel' (r + dr) (c + dc) nextPrefix s))
                    (visited1, found1) ;;;
            visited3 ← orFault (setVisited st2.1 r c false) ;;;
            Done (visited3, st2.2)
        end.

(** The budget is the number of cells, which no search uses up. *)
Definition solveGrid (g : Game) : outcome (list jsstring) :=
  let n := gridSize g in
  let visited := replicate n (replicate n false) in
  st ← forEach (upTo n) (λ r,
         forEach (upTo n) (λ c s, recursivelyFind g (n * n) r c [] s))
         (visited, []) ;;;
  Done st.2.

(** ** Grid generator *)

(** The random choices of one call of [buildGridData]: what
    [sort(() => Math.random() - 0.5)] makes of the pool, and
    [Math.floor(Math.random() * 6)] for the die at each index. *)
Record Draw : Type := mkDraw {
  sortOutcome : list jsstring → list jsstring;
  faceIndex : nat → nat
}.

(** [while (sourceDice.length < totalSorts) sourceDice = [...sourceDice, ...DICE]] *)
Fixpoint padDice (fuel totalSorts : nat) (sourceDice : list jsstring)
    : outcome (list jsstring) :=
  if (length sourceDice <? totalSorts)%nat then
    match fuel with
    | O => OutOfFuel
    | S fuel' => padDice fuel' totalSorts (sourceDice ++ DICE)
    end
  else Done sourceDice.

Fixpoint mapO {A B : Type} (f : A → outcome B) (xs : list A) : outcome (list B) :=
  match xs with
  | [] => Done []
  | x :: xs' => y ← f x ;;; ys ← mapO f xs' ;;; Done (y :: ys)
  end.

Definition buildGridData (d : Draw) (g : Game) : outcome Game :=
  let n := gridSize g in
  let sourceDice0 := if (n =? 5)%nat then DICE ++ DICE_EXTENDED else DICE in
  let totalSorts := (n * n)%nat in
  sourceDice ← padDice totalSorts totalSorts sourceDice0 ;;;
  let shuffledDice := take totalSorts (sortOutcome d sourceDice) in
  rows ← mapO (λ i,
            mapO (λ j,
              let dieIndex := (i * n + j)%nat in
              die ← orFault (shuffledDice !! dieIndex) ;;;
              Done (toLocaleUpperCase (charAt die (faceIndex d dieIndex))))
            (seq 0 n))
          (seq 0 n) ;;;
  Done (set_grid g rows).

Definition MIN_WORDS : nat := 15.
Definition MAX_ATTEMPTS : nat := 50.

(** What [generateGrid] writes to the console. *)
Inductive Report : Type :=
  | Generated (attempts words : nat)   (* console.log *)
  | BestEffort (maxFound : Z).         (* console.warn *)

(** The [for] loop of [generateGrid] with [n] iterations left; [draws i]
    holds the random choices of iteration [i]. *)
Fixpoint generateLoop (draws : nat → Draw) (n i : nat) (g : Game)
    (bestGrid : Grid) (maxFound : Z) : outcome (Game * Report) :=
  match n with
  | O => Done (set_grid g bestGrid, BestEffort maxFound)
  | S n' =>
      g1 ← buildGridData (draws i) g ;;;
      possibleWords ← solveGrid g1 ;;;
      if (MIN_WORDS <=? length possibleWords)%nat then
        Done (g1, Generated (i + 1) (length possibleWords))
      else if maxFound <? Z.of_nat (length possibleWords) then
        generateLoop draws n' (S i) g1 (grid g1) (Z.of_nat (length possibleWords))
      else
        generateLoop draws n' (S i) g1 bestGrid maxFound
  end.

Definition generateGrid (draws : nat → Draw) (g : Game) : outcome (Game * Report) :=
  generateLoop draws MAX_ATTEMPTS 0 g [] (-1).

End Program.

(** ** Vocabulary of the properties *)

(** Chebyshev distance of two cells: [max(|Δrow|, |Δcol|)]. *)
Definition chebyshev (a b : Cell) : Z :=
  Z.max (Z.abs (a.1 - b.1)) (Z.abs (a.2 - b.2)).

(** Every two consecutive cells of the path are king-move neighbours. *)
Fixpoint chained (p : list Cell) : Prop :=
  match p with
  | a :: (b :: _) as rest => chebyshev a b = 1 ∧ chained rest
  | _ => True
  end.

(** A path of the tracker: no cell twice, consecutive cells adjacent. *)
Definition legalPath (p : list Cell) : Prop := NoDup p ∧ chained p.

(** The second-to-last cell of a path of two cells or more. *)
Definition penultimate (p : list Cell) : option Cell :=
  if (1 <? length p)%nat then p !! (length p - 2)%nat else None.

(** The tracker in the words of the specification, on a bare path: from
    the empty path any target starts the path; a target equal to the
    second-to-last cell takes the last cell back; a target adjacent to
    the last cell and not yet in the path is appended; any other target
    is ignored. *)
Definition spec_track (path : list Cell) (target : Cell) : list Cell :=
  match last path with
  | None => [target]
  | Some lastCell =>
      if bool_decide (penultimate path = Some target) then
        take (length path - 1)%nat path
      else if bool_decide (chebyshev lastCell target = 1 ∧ target ∉ path) then
        path ++ [target]
      else path
  end.

(** One position of the pointer, over a cell or over none. *)
Definition spec_move (path : list Cell) (m : option Cell) : list Cell :=
  match m with
  | Some target => spec_track path target
  | None => path
  end.

(** The path after the pointer went over [moves]. *)
Definition spec_drag (path : list Cell) (moves : list (option Cell)) : list Cell :=
  fold_left spec_move moves path.

(** Over [moves] a cell was added to the path. *)
Fixpoint spec_added (path : list Cell) (moves : list (option Cell)) : bool :=
  match moves with
  | [] => false
  | m :: moves' =>
      (length path <? length (spec_move path m))%nat
      || spec_added (spec_move path m) moves'
  end.

(** Over [moves] the path changed: a cell was added or taken back. *)
Fixpoint spec_changed (path : list Cell) (moves : list (option Cell)) : bool :=
  match moves with
  | [] => false
  | m :: moves' =>
      negb (bool_decide (spec_move path m = path))
      || spec_changed (spec_move path m) moves'
  end.

(** The scoring table in the words of the specification. *)
Definition spec_score (len : nat) : Z :=
  match len with
  | 3%nat | 4%nat => 1
  | 5%nat => 2
  | 6%nat => 3
  | 7%nat => 5
  | _ => 11
  end.

(** What drives the selection path: a cell input, a clear, a backtrack. *)
Inductive Input : Type :=
  | Select (cellEl : Cell)
  | Clear
  | Backtrack.

Definition step (i : Input) (g : Game) : Game :=
  match i with
  | Select cellEl => trySelectCell cellEl g
  | Clear => clearSelection g
  | Backtrack => deselectLast g
  end.

Definition run (inputs : list Input) (g : Game) : Game :=
  fold_left (λ g i, step i g) inputs g.

(** The tr-TR upper-casing on the letters of the Turkish alphabet, one
    code unit at a time (i ↦ İ, ı ↦ I); other code units are kept. It
    instantiates [Locale] in the closed examples. *)
Definition upperUnit (u : N) : N :=
  if (u =? 105)%N then 304%N
  else if ((97 <=? u) && (u <=? 122))%N then (u - 32)%N
  else if (u =? 305)%N then 73%N
  else if (u =? 231)%N then 199%N
  else if (u =? 287)%N then 286%N
  else if (u =? 246)%N then 214%N
  else if (u =? 351)%N then 350%N
  else if (u =? 252)%N then 220%N
  else u.

Definition trLocale : Locale := {| toLocaleUpperCase := map upperUnit |}.

(** The regression grid and dictionary of the specification:
    C A T E / O R S T / D O G S / N E W S and
    CAT, CATS, DOG, DOGS, ROT, NEWS. *)
Definition sampleGrid : Grid :=
  [ [[67]; [65]; [84]; [69]]; [[79]; [82]; [83]; [84]];
    [[68]; [79]; [71]; [83]]; [[78]; [69]; [87]; [83]] ]%N.

Definition sampleWords : list jsstring :=
  [ [67; 65; 84]; [67; 65; 84; 83]; [68; 79; 71]; [68; 79; 71; 83];
    [82; 79; 84]; [78; 69; 87; 83] ]%N.

(** A round in progress on the regression grid, nothing selected. *)
Definition sampleGame : Game :=
  mkGame 4 sampleGrid [] [] [] 0 true false false None.

(** The round is over on the regression grid, with C-A-T still selected. *)
Definition finishedGame : Game :=
  mkGame 4 sampleGrid [(0, 0); (0, 1); (0, 2)] [67; 65; 84]%N [] 0
    false false false None.

Section Rules.
Context {locale : Locale}.
Variable commonWords : option (list jsstring).

(** The word a submission reads: the text of the current word, in
    upper case. *)
Definition candidate (g : Game) : jsstring := toLocaleUpperCase (currentWord g).

(** From [g] to [g'] nothing was inserted and the score is the same. *)
Definition rejected (g g' : Game) : Prop :=
  foundWords g' = foundWords g ∧ score g' = score g.

(** From [g] to [g'] the word was inserted and scored. *)
Definition accepted (word : jsstring) (g g' : Game) : Prop :=
  foundWords g' = foundWords g ++ [word]
  ∧ score g' = score g + getScore word.

(** The submission rule of the specification, for a dictionary [words]:
    rejected exactly when too short, already found or not a dictionary
    word; accepted otherwise; the path cleared in every case. *)
Definition submission_rule (words : list jsstring) (isAuto : bool) (g : Game) : Prop :=
  let word := candidate g in
  let g' := submitWord (Some words) isAuto g in
  (rejected g g' ↔ (length word < 3)%nat ∨ word ∈ foundWords g ∨ word ∉ words)
  ∧ (¬ ((length word < 3)%nat ∨ word ∈ foundWords g ∨ word ∉ words) →
     accepted word g g')
  ∧ selectedCells g' = [].

(** Without a dictionary every new word of three letters or more is
    accepted. *)
Definition no_dictionary_rule (isAuto : bool) (g : Game) : Prop :=
  let word := candidate g in
  let g' := submitWord None isAuto g in
  (3 ≤ length word)%nat → word ∉ foundWords g →
  accepted word g g' ∧ messageToast g' = Some (Points (getScore word)).

(** The pointer is down in an active round, on a path in progress. *)
Definition dragging (g : Game) : Prop :=
  isGameActive g = true ∧ isDragging g = true ∧ selectedCells g ≠ [].

(** The pointer moves over [moves] (a cell or none at each event). *)
Definition drag (moves : list (option Cell)) (g : Game) : Game :=
  fold_left (λ g m, handleInputMove m g) moves g.

(** A press on a cell, moves with the pointer down, and the release. *)
Definition gesture (cellEl : Cell) (moves : list (option Cell)) (g : Game) : Game :=
  handleInputEnd commonWords (drag moves (handleInputStart (Some cellEl) g)).

(** The release rule in the words of the specification: after a press
    on [cellEl] and the moves, the release submits the path, which
    clears it, exactly when a cell beyond the pressed one was added
    since the press; otherwise the path stays selected. *)
Definition autosubmit_rule (cellEl : Cell) (moves : list (option Cell))
    (g : Game) : Prop :=
  let pressed := spec_track (selectedCells g) cellEl in
  let g' := gesture cellEl moves g in
  (selectedCells g' = [] ↔ spec_added pressed moves = true)
  ∧ (spec_added pressed moves = false →
     selectedCells g' = spec_drag pressed moves).

(** Some move event appended a cell to the path. *)
Fixpoint movesAdding (moves : list (option Cell)) (g : Game) : bool :=
  match moves with
  | [] => false
  | m :: moves' =>
      let g' := handleInputMove m g in
      (length (selectedCells g) <? length (selectedCells g'))%nat
      || movesAdding moves' g'
  end.

(** Some move event changed the path: appended a cell or took the last
    one back. *)
Fixpoint movesChanging (moves : list (option Cell)) (g : Game) : bool :=
  match moves with
  | [] => false
  | m :: moves' =>
      let g' := handleInputMove m g in
      negb (length (selectedCells g) =? length (selectedCells g'))%nat
      || movesChanging moves' g'
  end.

End Rules.

(** ** Vocabulary of the solver *)

(** [n] rows of [n] cells: the shape [buildGridData] gives the grid and
    [solveGrid] gives the visited matrix. *)
Definition square {A : Type} (n : nat) (m : list (list A)) : Prop :=
  length m = n ∧ Forall (λ row, length row = n) m.

Definition inBounds (n : nat) (cell : Cell) : Prop :=
  0 ≤ cell.1 < Z.of_nat n ∧ 0 ≤ cell.2 < Z.of_nat n.

(** The letters along a path, joined. *)
Definition letters (gr : Grid) (p : list Cell) : jsstring :=
  concat (map (λ cell : Cell, default [] (gridAt gr cell.1 cell.2)) p).

(** The word is spelled by a path of distinct cells of the grid whose
    consecutive cells are at Chebyshev distance 1. *)
Definition realizable (n : nat) (gr : Grid) (word : jsstring) : Prop :=
  ∃ p, NoDup p ∧ chained p ∧ Forall (inBounds n) p ∧ letters gr p = word.

(** Cells not marked in the visited matrix. *)
Fixpoint unvisitedRow (row : list bool) : nat :=
  match row with
  | [] => 0
  | b :: row' => (if b then 0 else 1) + unvisitedRow row'
  end.

Fixpoint unvisitedCount (visited : list (list bool)) : nat :=
  match visited with
  | [] => 0
  | row :: rest => unvisitedRow row + unvisitedCount rest
  end.

Definition free (visited : list (list bool)) (cell : Cell) : Prop :=
  visitedAt visited cell.1 cell.2 = Some false.

(** A path the search can take from [start]: legal, inside the grid and
    through unmarked cells only. *)
Definition searchPath (n : nat) (visited : list (list bool)) (start : Cell)
    (p : list Cell) : Prop :=
  head p = Some start ∧ NoDup p ∧ chained p
  ∧ Forall (inBounds n) p ∧ Forall (free visited) p.

(** Membership in the dictionary, when there is one. *)
Definition inDictionary (commonWords : option (list jsstring)) (w : jsstring) : Prop :=
  match commonWords with
  | Some words => w ∈ words
  | None => False
  end.

(** The words the search adds from [start] with [currentPrefix] so far. *)
Definition reachable (commonWords : option (list jsstring)) (g : Game)
    (visited : list (list bool)) (start : Cell) (currentPrefix w : jsstring) : Prop :=
  ∃ p, searchPath (gridSize g) visited start p
       ∧ w = currentPrefix ++ letters (grid g) p
       ∧ (3 ≤ length w)%nat ∧ inDictionary commonWords w.

(** A piece of the search returns, leaves the visited matrix as it was
    and adds exactly the words of [P] to the set. *)
Definition collects (visited : list (list bool))
    (m : SearchState → outcome SearchState) (P : jsstring → Prop) : Prop :=
  ∀ found, ∃ found',
    m (visited, found) = Done (visited, found')
    ∧ (NoDup found → NoDup found')
    ∧ ∀ w, w ∈ found' ↔ w ∈ found ∨ P w.

(** ** Vocabulary of the generator *)

Section Candidates.
Context {locale : Locale}.
Variable commonWords : option (list jsstring).

(** The random choices are those of a shuffle and of a six-sided die:
    the sort returns a rearrangement of the pool and the face index is
    below 6. *)
Definition fair (d : Draw) : Prop :=
  (∀ pool, sortOutcome d pool ≡ₚ pool) ∧ (∀ k, (faceIndex d k < 6)%nat).

(** The cell shows a face of a die of the script, in upper case. *)
Definition isFace (x : jsstring) : Prop :=
  ∃ die k u, die ∈ DICE ++ DICE_EXTENDED ∧ die !! k = Some u
             ∧ x = toLocaleUpperCase [u].

(** A grid of [n] rows of [n] cells, each one showing a face. *)
Definition populated (n : nat) (gr : Grid) : Prop :=
  square n gr ∧ Forall (Forall isFace) gr.

(** The game with the grid of attempt [i]. *)
Definition candidateAt (draws : nat → Draw) (g : Game) (i : nat) : Game :=
  match buildGridData (draws i) g with
  | Done g' => g'
  | _ => g
  end.

(** The number of words the solver finds on the grid of the game. *)
Definition wordCount (g : Game) : nat :=
  match solveGrid commonWords g with
  | Done possibleWords => length possibleWords
  | _ => 0%nat
  end.

End Candidates.

(** ** The rest of the page: rounds, timer, high scores

    The game object has more state than the rules of play read. It is
    kept in a record of its own around [Game]. *)

Definition set_isGameActive (g : Game) (x : bool) : Game :=
  mkGame (gridSize g) (grid g) (selectedCells g) (currentWord g) (foundWords g)
    (score g) x (isDragging g) (interactionMoved g) (messageToast g).

(** An entry [{score, date, timestamp}] of the high score list. *)
Record ScoreEntry : Type := mkEntry {
  entryScore : Z;
  date : jsstring;
  timestamp : Z
}.

Record Page : Type := mkPage {
  game : Game;
  gameDuration : Z;
  timer : Z;
  ticking : bool;                  (* the interval of [timerInterval] is running *)
  strayIntervals : nat;            (* running intervals whose handle is lost *)
  highScores : list ScoreEntry;
  finalScore : option Z;           (* finalScoreEl.textContent *)
  missedWords : list jsstring;     (* the missed words, counted in the heading *)
  shownWords : list jsstring       (* the missed words that are listed *)
}.

Definition set_game (p : Page) (x : Game) : Page :=
  mkPage x (gameDuration p) (timer p) (ticking p) (strayIntervals p) (highScores p)
    (finalScore p) (missedWords p) (shownWords p).
Definition set_timer (p : Page) (x : Z) : Page :=
  mkPage (game p) (gameDuration p) x (ticking p) (strayIntervals p) (highScores p)
    (finalScore p) (missedWords p) (shownWords p).
Definition set_ticking (p : Page) (x : bool) : Page :=
  mkPage (game p) (gameDuration p) (timer p) x (strayIntervals p) (highScores p)
    (finalScore p) (missedWords p) (shownWords p).
Definition set_strayIntervals (p : Page) (x : nat) : Page :=
  mkPage (game p) (gameDuration p) (timer p) (ticking p) x (highScores p)
    (finalScore p) (missedWords p) (shownWords p).
Definition set_highScores (p : Page) (x : list ScoreEntry) : Page :=
  mkPage (game p) (gameDuration p) (timer p) (ticking p) (strayIntervals p) x
    (finalScore p) (missedWords p) (shownWords p).
Definition set_finalScore (p : Page) (x : Z) : Page :=
  mkPage (game p) (gameDuration p) (timer p) (ticking p) (strayIntervals p) (highScores p)
    (Some x) (missedWords p) (shownWords p).
Definition set_missed (p : Page) (missed shown : list jsstring) : Page :=
  mkPage (game p) (gameDuration p) (timer p) (ticking p) (strayIntervals p) (highScores p)
    (finalScore p) missed shown.

(** [arr.sort((a, b) => key(b) - key(a))]: [Array.prototype.sort] is
    stable, so the result is the one of any stable sort by decreasing
    key; here the elements are taken from left to right and each one is
    put behind those whose key is not smaller. *)
Fixpoint insertDesc {A : Type} (key : A → Z) (x : A) (l : list A) : list A :=
  match l with
  | [] => [x]
  | y :: l' => if key y <? key x then x :: y :: l' else y :: insertDesc key x l'
  end.

Definition sortDesc {A : Type} (key : A → Z) (l : list A) : list A :=
  fold_left (λ sorted x, insertDesc key x sorted) l [].

(** [saveScore(score)], with the date string and the time stamp it
    reads from the clock. The copy in [localStorage] is not modelled. *)
Definition saveScore (dateStr : jsstring) (now : Z) (sc : Z) (p : Page) : Page :=
  if sc =? 0 then p
  else
    set_highScores p
      (take 10 (sortDesc entryScore (highScores p ++ [mkEntry sc dateStr now]))).

Definition resetState (p : Page) : Page :=
  let g := game p in
  set_missed
    (set_game p
       (mkGame (gridSize g) (grid g) [] (currentWord g) [] 0
          (isGameActive g) (isDragging g) (interactionMoved g) (messageToast g)))
    [] [].

(** [resetMenu]: the start menu comes back, the text of the current
    word is emptied, the state reset. *)
Definition resetMenu (p : Page) : Page :=
  resetState (set_game p (set_currentWord (game p) [])).

(** [startTimer]: [setInterval] starts a new interval and its handle is
    stored in [timerInterval]. An interval that still runs under the
    handle stored before is not stopped; [clearInterval] no longer
    reaches it. *)
Definition startTimer (p : Page) : Page :=
  set_ticking
    (if ticking p then set_strayIntervals p (S (strayIntervals p)) else p)
    true.

Definition initGame (p : Page) : Page :=
  resetState (set_game (startTimer p) (set_isGameActive (game (startTimer p)) true)).

Section Rounds.
Context {locale : Locale}.
Variable commonWords : option (list jsstring).


(** [endGame], with the clock values read by [saveScore].
    [clearInterval(this.timerInterval)] stops the interval started
    last. *)
Definition endGame (dateStr : jsstring) (now : Z) (p : Page) : outcome Page :=
  let p1 := set_ticking p false in
  let p2 := set_game p1 (set_isGameActive (game p1) false) in
  let p3 := set_finalScore p2 (score (game p2)) in
  let p4 := saveScore dateStr now (score (game p3)) p3 in
  allPossibleWords ← solveGrid commonWords (game p4) ;;;
  let missed := filter (λ word, word ∉ foundWords (game p4)) allPossibleWords in
  let sorted := sortDesc (λ w : jsstring, Z.of_nat (length w)) missed in
  let displayLimit := 50%nat in
  Done (set_missed p4 sorted (take displayLimit sorted)).

(** The callback of the interval started by [startTimer], fired by the
    interval of [timerInterval]; it runs only while that interval
    does. *)
Definition tick (dateStr : jsstring) (now : Z) (p : Page) : outcome Page :=
  if ticking p then
    let p1 := set_timer p (timer p - 1) in
    if timer p1 <=? 0 then endGame dateStr now p1 else Done p1
  else Done p.

(** The same callback, fired by an interval whose handle [startTimer]
    has overwritten. *)
Definition strayTick (dateStr : jsstring) (now : Z) (p : Page) : outcome Page :=
  if (0 <? strayIntervals p)%nat then
    let p1 := set_timer p (timer p - 1) in
    if timer p1 <=? 0 then endGame dateStr now p1 else Done p1
  else Done p.

Fixpoint ticks (n : nat) (dateStr : jsstring) (now : Z) (p : Page) : outcome Page :=
  match n with
  | O => Done p
  | S n' => p' ← tick dateStr now p ;;; ticks n' dateStr now p'
  end.

(** What the user does during a round: the pointer goes down, moves
    and up, the submit button and the clear button are clicked. *)
Inductive Event : Type :=
  | Press (cell : option Cell)
  | Move (cell : option Cell)
  | Release
  | SubmitClick
  | ClearClick.

Definition handle (e : Event) (g : Game) : Game :=
  match e with
  | Press cell => handleInputStart cell g
  | Move cell => handleInputMove cell g
  | Release => handleInputEnd commonWords g
  | SubmitClick => submitWord commonWords false g
  | ClearClick => clearSelection g
  end.

Definition play (events : list Event) (g : Game) : Game :=
  fold_left (λ g e, handle e g) events g.

End Rounds.

(** ** Vocabulary of the rounds *)

(** The points of a list of words. *)
Definition totalScore (words : list jsstring) : Z :=
  foldr (λ w acc, getScore w + acc) 0 words.

(** A word passes the dictionary check of [submitWord]. *)
Definition passesDictionary (commonWords : option (list jsstring)) (w : jsstring) : Prop :=
  match commonWords with
  | Some words => w ∈ words
  | None => True
  end.

(** The cell of a pointer event, when it has one, is a cell of the
    rendered grid. *)
Definition eventInBounds (n : nat) (e : Event) : Prop :=
  match e with
  | Press (Some cell) | Move (Some cell) => inBounds n cell
  | _ => True
  end.

(** Keys in decreasing order. *)
Fixpoint sortedDesc {A : Type} (key : A → Z) (l : list A) : Prop :=
  match l with
  | x :: (y :: _) as rest => key y ≤ key x ∧ sortedDesc key rest
  | _ => True
  end.

(** The found words are distinct words of three letters or more that
    pass the dictionary check, and the score is the sum of their
    points. *)
Definition scoreboard (commonWords : option (list jsstring)) (g : Game) : Prop :=
  NoDup (foundWords g)
  ∧ score g = totalScore (foundWords g)
  ∧ Forall (λ w, (3 ≤ length w)%nat ∧ passesDictionary commonWords w) (foundWords g).

(** The text of the current word spells the selected path. *)
Definition synced (g : Game) : Prop :=
  currentWord g = letters (grid g) (selectedCells g).

(** One tap on each cell of a path: the pointer goes down on the cell
    and up again without moving. *)
Definition taps (p : list Cell) : list Event :=
  p ≫= λ cell, [Press (Some cell); Release].

(** The selected path is legal, inside the grid, and spelled by the
    current word. *)
Definition pathInv (n : nat) (g : Game) : Prop :=
  legalPath (selectedCells g) ∧ Forall (inBounds n) (selectedCells g) ∧ synced g.

(** A page in the middle of a round on the regression grid, with the
    timer running and 45 ticks to go. *)
Definition samplePage : Page := mkPage sampleGame 45 45 true 0 [] None [] [].


(** ** Timer display *)

(** [n.toString()] for an integer [n]: the decimal digits, most
    significant first, after a minus sign when [n] is negative. The
    digits of a positive number are at most as many as its value. *)
Fixpoint digitsOf (fuel : nat) (n : Z) (acc : jsstring) : jsstring :=
  match fuel with
  | O => acc
  | S fuel' =>
      let acc' := Z.to_N (48 + n `mod` 10) :: acc in
      if n `div` 10 =? 0 then acc' else digitsOf fuel' (n `div` 10) acc'
  end.

Definition numberToString (n : Z) : jsstring :=
  if n <? 0 then 45%N :: digitsOf (Z.to_nat (- n)) (- n) []
  else if n =? 0 then [48%N]
  else digitsOf (Z.to_nat n) n [].

(** [s.padStart(targetLength, pad)] for a one-unit [pad] *)
Definition padStart (targetLength : nat) (pad : N) (s : jsstring) : jsstring :=
  replicate (targetLength - length s) pad ++ s.

(** [updateTimerDisplay]: the text of the timer and whether it is shown
    in the warning colour. *)
Definition updateTimerDisplay (p : Page) : jsstring * bool :=
  let m := padStart 2 48 (numberToString (timer p `div` 60)) in
  let s := padStart 2 48 (numberToString (timer p `rem` 60)) in
  (m ++ [58%N] ++ s, timer p <=? 10).

(** * Properties *)

(** ** Scoring *)

Lemma getScore_length (word : jsstring) :
  getScore word =
    if (8 <=? length word)%nat then 11
    else match length word with
         | 5%nat => 2 | 6%nat => 3 | 7%nat => 5 | _ => 1
         end.
Proof.
  unfold getScore. generalize (length word) as n. intros n.
  destruct (8 <=? n)%nat eqn:E; [done|].
  apply Nat.leb_gt in E.
  do 8 (destruct n as [|n]; [vm_compute; reflexivity|]). lia.
Qed.

Lemma spec_score_mono (m n : nat) :
  (3 ≤ m)%nat → (m ≤ n)%nat → spec_score m ≤ spec_score n.
Proof.
  intros Hm Hmn.
  do 8 (destruct m as [|m]; [first [lia | do 8 (destruct n as [|n]; [first [lia | simpl; lia]|]); simpl; lia]|]).
  do 8 (destruct n as [|n]; [lia|]). simpl. lia.
Qed.

Lemma getScore_spec_score (word : jsstring) :
  (3 ≤ length word)%nat → getScore word = spec_score (length word).
Proof.
  rewrite getScore_length. generalize (length word) as n. intros n Hn.
  destruct (8 <=? n)%nat eqn:E.
  - apply Nat.leb_le in E. do 8 (destruct n as [|n]; [lia|]). reflexivity.
  - apply Nat.leb_gt in E.
    do 8 (destruct n as [|n]; [first [lia | reflexivity]|]). lia.
Qed.

(** C6. On words of three letters or more [getScore] depends on the
    length only and follows the table 3,4 ↦ 1; 5 ↦ 2; 6 ↦ 3; 7 ↦ 5;
    8 and more ↦ 11; hence it never decreases when the length grows. *)
Theorem getScore_table (word word' : jsstring) :
  (3 ≤ length word)%nat →
  getScore word = spec_score (length word)
  ∧ (length word' = length word → getScore word' = getScore word)
  ∧ ((length word ≤ length word')%nat → getScore word ≤ getScore word').
Proof.
  intros Hlen. repeat split.
  - by apply getScore_spec_score.
  - intros Heq. rewrite !getScore_length, Heq. reflexivity.
  - intros Hle. rewrite !getScore_spec_score by lia. by apply spec_score_mono.
Qed.

Lemma getScore_table_witness :
  getScore [78; 69; 87; 83]%N = spec_score 4
  ∧ (length [75; 65; 76; 69]%N = length [78; 69; 87; 83]%N →
     getScore [75; 65; 76; 69]%N = getScore [78; 69; 87; 83]%N)
  ∧ ((length [78; 69; 87; 83]%N ≤ length [75; 65; 76; 69]%N)%nat →
     getScore [78; 69; 87; 83]%N ≤ getScore [75; 65; 76; 69]%N).
Proof.
  apply (getScore_table [78; 69; 87; 83]%N [75; 65; 76; 69]%N). simpl. lia.
Defined.

Lemma getScore_positive (word : jsstring) : 0 < getScore word.
Proof.
  rewrite getScore_length. generalize (length word) as n. intros n.
  destruct (8 <=? n)%nat; [lia|].
  do 8 (destruct n as [|n]; [lia|]). lia.
Qed.

(** ** Selection path tracker *)

Lemma chebyshev_sym (a b : Cell) : chebyshev a b = chebyshev b a.
Proof. unfold chebyshev. lia. Qed.

Lemma chained_app_l (p q : list Cell) : chained (p ++ q) → chained p.
Proof.
  induction p as [|a [|b p] IH]; simpl; try done.
  intros [Hab Hrest]. split; [done|]. by apply IH.
Qed.

Lemma chained_snoc (p : list Cell) (x : Cell) :
  chained p → (∀ l, last p = Some l → chebyshev l x = 1) → chained (p ++ [x]).
Proof.
  induction p as [|a [|b p] IH]; simpl; intros Hp Hlast.
  - done.
  - split; [|done]. by apply Hlast.
  - destruct Hp as [Hab Hrest]. split; [done|]. apply IH; [done|].
    intros l Hl. apply Hlast. done.
Qed.

Lemma chained_last_two (p : list Cell) (x l : Cell) :
  chained (p ++ [x; l]) → chebyshev x l = 1.
Proof.
  induction p as [|a p IH]; simpl.
  - by intros [H _].
  - destruct (p ++ [x; l]) eqn:E.
    + by destruct p.
    + intros [_ H]. by apply IH.
Qed.

Lemma penultimate_Some (p : list Cell) (x : Cell) :
  penultimate p = Some x ↔ ∃ p' l, p = p' ++ [x; l].
Proof.
  unfold penultimate. split.
  - destruct (1 <? length p)%nat eqn:E; [|done]. apply Nat.ltb_lt in E.
    intros Hx.
    destruct (last p) as [l|] eqn:Hl;
      [|apply last_None in Hl; subst; simpl in E; lia].
    apply last_Some in Hl as [q ->].
    rewrite length_app in *. simpl in *.
    rewrite lookup_app_l in Hx by lia.
    replace (length q + 1 - 2)%nat with (pred (length q)) in Hx by lia.
    rewrite <- last_lookup in Hx. apply last_Some in Hx as [p' ->].
    exists p', l. by rewrite <- app_assoc.
  - intros (p' & l & ->). rewrite length_app. simpl.
    replace (1 <? length p' + 2)%nat with true by (symmetry; apply Nat.ltb_lt; lia).
    replace (length p' + 2 - 2)%nat with (length p') by lia.
    by rewrite list_lookup_middle.
Qed.

Lemma pop_snoc (p : list Cell) (l : Cell) :
  take (length (p ++ [l]) - 1) (p ++ [l]) = p.
Proof. apply take_app_length'. rewrite length_app. simpl. lia. Qed.

Lemma isCellSelected_true (g : Game) (cellEl : Cell) :
  isCellSelected g cellEl.1 cellEl.2 = true ↔ cellEl ∈ selectedCells g.
Proof.
  unfold isCellSelected. rewrite existsb_exists. split.
  - intros (x & Hin & Hx). apply list_elem_of_In in Hin.
    apply andb_true_iff in Hx as [H1 H2].
    apply Z.eqb_eq in H1, H2. destruct x, cellEl. simpl in *. by subst.
  - intros Hin. exists cellEl. split; [by apply list_elem_of_In|].
    by rewrite !Z.eqb_refl.
Qed.

(** The three ways a cell input ends: a backtrack, an append, nothing. *)
Lemma trySelectCell_cases (cellEl : Cell) (g : Game) :
  let p := selectedCells g in
  (penultimate p = Some cellEl ∧ trySelectCell cellEl g = deselectLast g)
  ∨ (penultimate p ≠ Some cellEl
     ∧ (last p = None
        ∨ ∃ l, last p = Some l ∧ chebyshev cellEl l = 1 ∧ cellEl ∉ p)
     ∧ trySelectCell cellEl g = selectCell cellEl g)
  ∨ (penultimate p ≠ Some cellEl
     ∧ (∃ l, last p = Some l ∧ (chebyshev cellEl l ≠ 1 ∨ cellEl ∈ p))
     ∧ trySelectCell cellEl g = g).
Proof.
  intros p. unfold trySelectCell. fold p.
  assert (Hback : (if (1 <? length p)%nat then
                     match p !! (length p - 2)%nat with
                     | Some penUlt => (penUlt.1 =? cellEl.1) && (penUlt.2 =? cellEl.2)
                     | None => false
                     end
                   else false) = bool_decide (penultimate p = Some cellEl)).
  { unfold penultimate. destruct (1 <? length p)%nat; [|done].
    destruct (p !! (length p - 2)%nat) as [[a b]|]; [|done].
    destruct cellEl as [r c]. simpl.
    destruct (Z.eqb_spec a r), (Z.eqb_spec b c); simpl; symmetry;
      first [ apply bool_decide_eq_true_2; by subst
            | apply bool_decide_eq_false_2; intros [= ? ?]; done ]. }
  rewrite Hback. clear Hback.
  destruct (bool_decide_reflect (penultimate p = Some cellEl)) as [Hpen|Hpen].
  { left. done. }
  right. destruct (last p) as [l|] eqn:Hl.
  - destruct ((Z.abs (cellEl.1 - l.1) <=? 1) && (Z.abs (cellEl.2 - l.2) <=? 1)
              && negb ((Z.abs (cellEl.1 - l.1) =? 0) && (Z.abs (cellEl.2 - l.2) =? 0)))
      eqn:Hadj.
    + assert (chebyshev cellEl l = 1) as Hch.
      { unfold chebyshev.
        apply andb_true_iff in Hadj as [Hadj Hz].
        apply andb_true_iff in Hadj as [H1 H2].
        apply negb_true_iff, andb_false_iff in Hz. lia. }
      destruct (isCellSelected g cellEl.1 cellEl.2) eqn:Hsel; simpl.
      * right. split; [done|]. split; [|done]. exists l. split; [done|].
        right. by apply isCellSelected_true.
      * left. split; [done|]. split; [|done]. right. exists l.
        split; [done|]. split; [done|].
        intros Hin. apply (isCellSelected_true g cellEl) in Hin. congruence.
    + right. split; [done|]. split; [|done]. exists l. split; [done|]. left.
      unfold chebyshev. intros Hch.
      apply andb_false_iff in Hadj as [Hadj|Hadj].
      * apply andb_false_iff in Hadj. lia.
      * apply negb_false_iff, andb_true_iff in Hadj. lia.
  - left. split; [done|]. split; [by left|done].
Qed.

Lemma deselectLast_path (g : Game) (p : list Cell) (l : Cell) :
  selectedCells g = p ++ [l] → selectedCells (deselectLast g) = p.
Proof.
  intros Hp. unfold deselectLast. rewrite Hp, last_snoc. simpl. apply pop_snoc.
Qed.

Lemma deselectLast_legal (g : Game) :
  legalPath (selectedCells g) → legalPath (selectedCells (deselectLast g)).
Proof.
  intros [Hnd Hch]. unfold deselectLast.
  destruct (last (selectedCells g)) as [l|] eqn:Hl; [|done].
  apply last_Some in Hl as [p Hp]. simpl. rewrite Hp, pop_snoc.
  rewrite Hp in Hnd, Hch. split; [|by eapply chained_app_l].
  by apply NoDup_app in Hnd as (? & _ & _).
Qed.

Lemma trySelectCell_legal (cellEl : Cell) (g : Game) :
  legalPath (selectedCells g) → legalPath (selectedCells (trySelectCell cellEl g)).
Proof.
  intros Hlegal.
  destruct (trySelectCell_cases cellEl g) as [[_ ->]|[(_ & Hadd & ->)|(_ & _ & ->)]].
  - by apply deselectLast_legal.
  - destruct Hlegal as [Hnd Hch]. simpl. split.
    + apply NoDup_app. split; [done|]. split; [|apply NoDup_singleton].
      intros x Hx ->%list_elem_of_singleton.
      destruct Hadd as [Hnone|(l & _ & _ & Hnotin)]; [|done].
      apply last_None in Hnone. rewrite Hnone in Hx. by apply not_elem_of_nil in Hx.
    + apply chained_snoc; [done|]. intros l Hl.
      destruct Hadd as [Hnone|(l' & Hl' & Hadj & _)]; [congruence|].
      rewrite chebyshev_sym. congruence.
  - done.
Qed.

Lemma run_legal (inputs : list Input) (g : Game) :
  legalPath (selectedCells g) → legalPath (selectedCells (run inputs g)).
Proof.
  revert g. induction inputs as [|i inputs IH]; intros g Hg; [done|].
  simpl. apply IH. destruct i; simpl.
  - by apply trySelectCell_legal.
  - split; [apply NoDup_nil_2|done].
  - by apply deselectLast_legal.
Qed.

(** C4. Whatever cell inputs, clears and backtracks drive the tracker
    from the empty path, the selected path has no repeated cell and its
    consecutive cells are at Chebyshev distance 1; and there a cell that
    is not adjacent to the last cell, or that is in the path without
    being the second-to-last cell, leaves the game as it is. *)
Theorem tracker_path_invariant (g0 : Game) (inputs : list Input) (cellEl : Cell) :
  selectedCells g0 = [] →
  let g := run inputs g0 in
  NoDup (selectedCells g)
  ∧ chained (selectedCells g)
  ∧ ((∃ l, last (selectedCells g) = Some l ∧ chebyshev cellEl l ≠ 1)
     ∨ (cellEl ∈ selectedCells g ∧ penultimate (selectedCells g) ≠ Some cellEl)
     → trySelectCell cellEl g = g).
Proof.
  intros Hempty. cbv zeta.
  assert (legalPath (selectedCells (run inputs g0))) as Hlegal.
  { apply run_legal. rewrite Hempty. split; [apply NoDup_nil_2|done]. }
  generalize dependent (run inputs g0). intros g [Hnd Hch].
  split; [done|]. split; [done|].
  intros Hignored.
  destruct (trySelectCell_cases cellEl g) as [[Hpen Heq]|[(Hpen & Hadd & Heq)|(_ & _ & Heq)]];
    [| |done]; exfalso.
  - destruct Hignored as [(l & Hl & Hfar)|[_ Hne]]; [|done].
    apply penultimate_Some in Hpen as (p' & l' & Hp).
    rewrite Hp in Hl, Hch.
    replace (p' ++ [cellEl; l']) with ((p' ++ [cellEl]) ++ [l']) in Hl
      by (by rewrite <- app_assoc).
    rewrite last_snoc in Hl. injection Hl as <-.
    by apply chained_last_two in Hch.
  - destruct Hignored as [(l & Hl & Hfar)|[Hin _]].
    + destruct Hadd as [Hnone|(l' & Hl' & Hadj & _)]; congruence.
    + destruct Hadd as [Hnone|(l' & _ & _ & Hnotin)]; [|done].
      apply last_None in Hnone. rewrite Hnone in Hin.
      by apply not_elem_of_nil in Hin.
Qed.

Lemma tracker_path_invariant_witness :
  let g := run [Select (0, 0); Select (1, 1); Select (3, 3); Select (1, 2);
                Select (1, 1); Backtrack] sampleGame in
  NoDup (selectedCells g)
  ∧ chained (selectedCells g)
  ∧ ((∃ l, last (selectedCells g) = Some l ∧ chebyshev (0, 0) l ≠ 1)
     ∨ ((0, 0) ∈ selectedCells g ∧ penultimate (selectedCells g) ≠ Some (0, 0))
     → trySelectCell (0, 0) g = g).
Proof.
  apply (tracker_path_invariant sampleGame). reflexivity.
Defined.

(** C5. A cell input equal to the second-to-last cell of a path of two
    cells or more removes the last cell and nothing else; any other cell
    input removes no cell. *)
Theorem backtrack_pops_last (cellEl : Cell) (g : Game) :
  let p := selectedCells g in
  let p' := selectedCells (trySelectCell cellEl g) in
  ((2 ≤ length p)%nat ∧ p !! (length p - 2)%nat = Some cellEl →
     ∃ l, last p = Some l ∧ p = p' ++ [l])
  ∧ (¬ ((2 ≤ length p)%nat ∧ p !! (length p - 2)%nat = Some cellEl) →
     p `prefix_of` p').
Proof.
  intros p p'.
  assert (Hpen : penultimate p = Some cellEl ↔
                 (2 ≤ length p)%nat ∧ p !! (length p - 2)%nat = Some cellEl).
  { unfold penultimate. destruct (1 <? length p)%nat eqn:E.
    - apply Nat.ltb_lt in E. split; [intros; split; [lia|done]|by intros [_ ?]].
    - apply Nat.ltb_ge in E. split; [done|]. intros [? _]. lia. }
  rewrite <- Hpen. clear Hpen. subst p'.
  destruct (trySelectCell_cases cellEl g) as [[Hpen ->]|[(Hpen & _ & ->)|(Hpen & _ & ->)]];
    fold p in Hpen; (split; [intros H|intros H]); try done.
  - apply penultimate_Some in Hpen as (q & l & Hq). exists l.
    replace (q ++ [cellEl; l]) with ((q ++ [cellEl]) ++ [l]) in Hq
      by (by rewrite <- app_assoc).
    rewrite (deselectLast_path g _ _ Hq). fold p. rewrite Hq.
    split; [apply last_snoc|done].
  - simpl. by apply prefix_app_r.
Qed.

Lemma backtrack_pops_last_witness :
  let g := run [Select (0, 0); Select (0, 1); Select (0, 2)] sampleGame in
  let p := selectedCells g in
  let p' := selectedCells (trySelectCell (0, 1) g) in
  ((2 ≤ length p)%nat ∧ p !! (length p - 2)%nat = Some (0, 1) →
     ∃ l, last p = Some l ∧ p = p' ++ [l])
  ∧ (¬ ((2 ≤ length p)%nat ∧ p !! (length p - 2)%nat = Some (0, 1)) →
     p `prefix_of` p').
Proof.
  apply (backtrack_pops_last (0, 1)).
Defined.

(** ** Submission *)

Section Submission.
Context {locale : Locale}.
Variable commonWords : option (list jsstring).

Lemma submitWord_inactive (isAuto : bool) (g : Game) :
  isGameActive g = false → submitWord commonWords isAuto g = g.
Proof. intros H. unfold submitWord. by rewrite H. Qed.

Lemma submitWord_short (isAuto : bool) (g : Game) :
  (length (candidate g) < 3)%nat → rejected g (submitWord commonWords isAuto g).
Proof.
  intros Hlen. unfold submitWord, candidate in *.
  destruct (isGameActive g); simpl; [|done].
  apply Nat.ltb_lt in Hlen. rewrite Hlen. by destruct isAuto.
Qed.

Lemma submitWord_clears (isAuto : bool) (g : Game) :
  isGameActive g = true → selectedCells (submitWord commonWords isAuto g) = [].
Proof.
  intros Hact. unfold submitWord. rewrite Hact. simpl.
  repeat match goal with |- context [if ?b then _ else _] => destruct b end;
    reflexivity.
Qed.

Lemma setAdd_new (word : jsstring) (s : list jsstring) :
  word ∉ s → setAdd word s = s ++ [word].
Proof. intros H. unfold setAdd. by rewrite bool_decide_eq_false_2. Qed.

(** What an active round does with a new word of three letters or more
    that the dictionary, when there is one, holds. *)
Lemma submitWord_valid (isAuto : bool) (g : Game) :
  isGameActive g = true →
  (3 ≤ length (candidate g))%nat →
  candidate g ∉ foundWords g →
  match commonWords with Some words => candidate g ∈ words | None => True end →
  accepted (candidate g) g (submitWord commonWords isAuto g)
  ∧ messageToast (submitWord commonWords isAuto g)
    = Some (Points (getScore (candidate g))).
Proof.
  intros Hact Hlen Hnew Hdict. unfold submitWord, candidate in *.
  rewrite Hact. simpl.
  replace (length (toLocaleUpperCase (currentWord g)) <? 3)%nat with false
    by (symmetry; apply Nat.ltb_ge; lia).
  rewrite bool_decide_eq_false_2 by done.
  assert (match commonWords with
          | Some words => negb (includes words (toLocaleUpperCase (currentWord g)))
          | None => false
          end = false) as ->.
  { destruct commonWords as [words|]; [|done].
    unfold includes. by rewrite bool_decide_eq_true_2. }
  split; [|done]. split; simpl; [|done]. by apply setAdd_new.
Qed.

Lemma submitWord_found (isAuto : bool) (g : Game) :
  candidate g ∈ foundWords g → rejected g (submitWord commonWords isAuto g).
Proof.
  intros Hin. unfold submitWord, candidate in *.
  destruct (isGameActive g); simpl; [|done].
  destruct (length _ <? 3)%nat; [by destruct isAuto|].
  by rewrite bool_decide_eq_true_2.
Qed.

(** C10. [getScore] gives 1 to a word of fewer than three letters; that
    such a word is never scored is the work of the length check of
    [submitWord], which rejects it. *)
Theorem getScore_short (isAuto : bool) (g : Game) (word : jsstring) :
  (length word < 3)%nat →
  getScore word = 1
  ∧ (candidate g = word → rejected g (submitWord commonWords isAuto g)).
Proof.
  intros Hlen. split.
  - rewrite getScore_length.
    destruct (length word) as [|[|[|n]]]; [done..|lia].
  - intros <-. by apply submitWord_short.
Qed.

End Submission.

Lemma getScore_short_witness :
  getScore [79; 82]%N = 1
  ∧ (candidate (locale := trLocale)
       (mkGame 4 sampleGrid [(1, 0); (1, 1)] [79; 82]%N [] 0 true false false None)
     = [79; 82]%N →
     rejected
       (mkGame 4 sampleGrid [(1, 0); (1, 1)] [79; 82]%N [] 0 true false false None)
       (submitWord (locale := trLocale) (Some sampleWords) false
          (mkGame 4 sampleGrid [(1, 0); (1, 1)] [79; 82]%N [] 0 true false false None))).
Proof.
  apply (getScore_short (locale := trLocale)). simpl. lia.
Defined.

Section SubmissionRules.
Context {locale : Locale}.

(** C2, as the code has it: while the round is active, a submission is
    rejected (nothing inserted, score unchanged) exactly when the
    upper-cased word has fewer than three letters, is already found or
    is not in the dictionary; otherwise the word is inserted and the
    score grows by [getScore] of it; the path is cleared either way. *)
Theorem submitWord_rule (words : list jsstring) (isAuto : bool) (g : Game) :
  isGameActive g = true → submission_rule words isAuto g.
Proof.
  intros Hact. unfold submission_rule. cbv zeta.
  split; [|split]; [| |by apply submitWord_clears].
  - split.
    + intros [Hfound Hscore].
      destruct (decide (length (candidate g) < 3)%nat) as [|Hlen]; [by left|].
      destruct (decide (candidate g ∈ foundWords g)) as [|Hnew]; [by right; left|].
      destruct (decide (candidate g ∈ words)) as [Hin|]; [|by right; right].
      exfalso.
      destruct (submitWord_valid (Some words) isAuto g) as [[_ Hs] _];
        [done|lia|done|done|].
      pose proof (getScore_positive (candidate g)). lia.
    + intros [Hlen|[Hin|Hout]].
      * by apply submitWord_short.
      * by apply submitWord_found.
      * unfold submitWord, candidate in *. rewrite Hact. simpl.
        destruct (length _ <? 3)%nat; [by destruct isAuto|].
        destruct (bool_decide _); [done|].
        unfold includes. by rewrite bool_decide_eq_false_2.
  - intros Hnone.
    apply (submitWord_valid (Some words) isAuto g); [done| | |].
    + destruct (decide (length (candidate g) < 3)%nat); [|lia].
      exfalso. apply Hnone. by left.
    + intros Hin. apply Hnone. by right; left.
    + destruct (decide (candidate g ∈ words)); [done|].
      exfalso. apply Hnone. by right; right.
Qed.

(** C9, as the code has it: while the round is active and no
    dictionary is loaded, every word of three letters or more that is
    not yet found is accepted, inserted and scored. *)
Theorem submitWord_no_dictionary (isAuto : bool) (g : Game) :
  isGameActive g = true → no_dictionary_rule isAuto g.
Proof.
  intros Hact. unfold no_dictionary_rule. cbv zeta. intros Hlen Hnew.
  by apply (submitWord_valid None isAuto g).
Qed.

End SubmissionRules.

Lemma submitWord_rule_witness :
  submission_rule (locale := trLocale) sampleWords false
    (mkGame 4 sampleGrid [(0, 0); (0, 1); (0, 2)] [67; 65; 84]%N [] 0
       true false false None).
Proof.
  apply (submitWord_rule (locale := trLocale)). reflexivity.
Defined.

(** C2 as stated fails once the round is over: the gate at the head of
    [submitWord] returns before any check, so the dictionary word CAT is
    neither inserted nor scored and the path stays selected. *)
Lemma submitWord_rule_inactive :
  ¬ submission_rule (locale := trLocale) sampleWords false finishedGame.
Proof.
  unfold submission_rule. cbv zeta. intros (_ & _ & Hclear).
  vm_compute in Hclear. discriminate Hclear.
Qed.

Lemma submitWord_no_dictionary_witness :
  no_dictionary_rule (locale := trLocale) false
    (mkGame 4 sampleGrid [(0, 0); (0, 1); (0, 2)] [67; 65; 84]%N [] 0
       true false false None).
Proof.
  apply (submitWord_no_dictionary (locale := trLocale)). reflexivity.
Defined.

(** C9 as stated fails once the round is over: with no dictionary the
    new word CAT is still not accepted, since [submitWord] returns at its
    first line. *)
Lemma submitWord_no_dictionary_inactive :
  ¬ no_dictionary_rule (locale := trLocale) false finishedGame.
Proof.
  unfold no_dictionary_rule. cbv zeta. intros H.
  destruct H as [[Hfound _] _].
  - vm_compute. lia.
  - vm_compute. intros Hin. by apply not_elem_of_nil in Hin.
  - vm_compute in Hfound. discriminate Hfound.
Qed.

(** ** Release of the pointer *)

Lemma trySelectCell_flags (cellEl : Cell) (g : Game) :
  isGameActive (trySelectCell cellEl g) = isGameActive g
  ∧ isDragging (trySelectCell cellEl g) = isDragging g
  ∧ interactionMoved (trySelectCell cellEl g) = interactionMoved g.
Proof.
  unfold trySelectCell, deselectLast, selectCell.
  repeat case_match; done.
Qed.

(** A cell input changes the length of the path or nothing at all, and
    never leaves the path empty. *)
Lemma trySelectCell_length (cellEl : Cell) (g : Game) :
  selectedCells (trySelectCell cellEl g) ≠ []
  ∧ (length (selectedCells (trySelectCell cellEl g)) = length (selectedCells g) →
     trySelectCell cellEl g = g).
Proof.
  destruct (trySelectCell_cases cellEl g)
    as [[Hpen ->]|[(_ & _ & ->)|(_ & (l & Hl & _) & ->)]].
  - apply penultimate_Some in Hpen as (q & l & Hq).
    replace (q ++ [cellEl; l]) with ((q ++ [cellEl]) ++ [l]) in Hq
      by (by rewrite <- app_assoc).
    rewrite (deselectLast_path g _ _ Hq), Hq. rewrite !length_app. simpl.
    split; [by destruct q|lia].
  - simpl. rewrite length_app. simpl.
    split; [by destruct (selectedCells g)|lia].
  - split; [|done]. intros Hnil. rewrite Hnil in Hl. done.
Qed.

Section Release.
Context {locale : Locale}.
Variable commonWords : option (list jsstring).

Lemma handleInputStart_dragging (cellEl : Cell) (g : Game) :
  isGameActive g = true →
  dragging (handleInputStart (Some cellEl) g)
  ∧ interactionMoved (handleInputStart (Some cellEl) g) = false.
Proof.
  intros Hact. unfold handleInputStart, dragging. rewrite Hact. simpl.
  destruct (trySelectCell_flags cellEl
              (set_interactionMoved (set_isDragging g true) false))
    as (-> & -> & ->).
  simpl. repeat split; try done. apply trySelectCell_length.
Qed.

Lemma handleInputMove_dragging (m : option Cell) (g : Game) :
  dragging g →
  let g' := handleInputMove m g in
  let changed := negb (length (selectedCells g) =? length (selectedCells g'))%nat in
  dragging g'
  ∧ interactionMoved g' = interactionMoved g || changed
  ∧ (changed = false → g' = g).
Proof.
  intros (Hact & Hdrag & Hne). cbv zeta. unfold handleInputMove, dragging.
  rewrite Hact, Hdrag. simpl. destruct m as [cellEl|].
  - destruct (trySelectCell_flags cellEl g) as (Ha & Hd & Hm).
    destruct (trySelectCell_length cellEl g) as (Hne' & Hsame).
    destruct (length (selectedCells (trySelectCell cellEl g))
              =? length (selectedCells g))%nat eqn:E; simpl.
    + apply Nat.eqb_eq in E. rewrite (Hsame E), Nat.eqb_refl. simpl.
      by rewrite orb_false_r.
    + rewrite Ha, Hd. rewrite Nat.eqb_sym, E. simpl.
      by rewrite orb_true_r.
  - rewrite Nat.eqb_refl. simpl. by rewrite orb_false_r.
Qed.

Lemma drag_dragging (moves : list (option Cell)) (g : Game) :
  dragging g →
  dragging (drag moves g)
  ∧ interactionMoved (drag moves g) = interactionMoved g || movesChanging moves g
  ∧ (movesChanging moves g = false → drag moves g = g).
Proof.
  revert g. induction moves as [|m moves IH]; intros g Hg.
  - simpl. by rewrite orb_false_r.
  - change (drag (m :: moves) g) with (drag moves (handleInputMove m g)).
    cbn [movesChanging].
    destruct (handleInputMove_dragging m g Hg) as (Hg' & Hmoved & Hsame).
    destruct (IH _ Hg') as (Hd & Hm & Hs).
    split; [done|]. split.
    + rewrite Hm, Hmoved. by rewrite orb_assoc.
    + intros [Hc Hrest]%orb_false_iff.
      rewrite (Hs Hrest). by apply Hsame.
Qed.

Lemma movesAdding_changing (moves : list (option Cell)) (g : Game) :
  movesAdding moves g = true → movesChanging moves g = true.
Proof.
  revert g. induction moves as [|m moves IH]; intros g; simpl; [done|].
  intros [Hadd|Hrest]%orb_true_iff; apply orb_true_iff.
  - left. apply Nat.ltb_lt in Hadd. apply negb_true_iff, Nat.eqb_neq. lia.
  - right. by apply IH.
Qed.

(** Pressing the same cell again changes nothing. *)
Lemma trySelectCell_again (cellEl : Cell) (g : Game) :
  NoDup (selectedCells g) →
  trySelectCell cellEl (trySelectCell cellEl g) = trySelectCell cellEl g.
Proof.
  intros Hnd.
  assert (Hlast : ∀ g', last (selectedCells g') = Some cellEl →
            penultimate (selectedCells g') ≠ Some cellEl →
            trySelectCell cellEl g' = g').
  { intros g' Hl Hpen.
    destruct (trySelectCell_cases cellEl g')
      as [[Hpen' _]|[(_ & Hadd & _)|(_ & _ & Heq)]]; [done| |done].
    destruct Hadd as [Hnone|(l & Hl' & Hadj & _)]; [congruence|].
    rewrite Hl in Hl'. injection Hl' as <-.
    unfold chebyshev in Hadj. lia. }
  destruct (trySelectCell_cases cellEl g)
    as [[Hpen Heq]|[(Hpen & Hadd & Heq)|(_ & _ & Heq)]]; rewrite Heq; [| |done].
  - apply penultimate_Some in Hpen as (q & l & Hq).
    replace (q ++ [cellEl; l]) with ((q ++ [cellEl]) ++ [l]) in Hq
      by (by rewrite <- app_assoc).
    rewrite <- Heq. apply Hlast; rewrite Heq, (deselectLast_path g _ _ Hq).
    + apply last_snoc.
    + intros (q' & l' & Hq')%penultimate_Some.
      rewrite Hq in Hnd.
      replace (q' ++ [cellEl; l']) with ((q' ++ [cellEl]) ++ [l']) in Hq'
        by (by rewrite <- app_assoc).
      apply app_inj_tail in Hq' as [-> ->].
      apply NoDup_app in Hnd as (Hnd & _ & _).
      apply NoDup_app in Hnd as (_ & Hnotin & _).
      apply (Hnotin l'); [|apply list_elem_of_here].
      apply elem_of_app. right. apply list_elem_of_here.
  - rewrite <- Heq. apply Hlast; rewrite Heq; simpl.
    + apply last_snoc.
    + intros (q' & l' & Hq')%penultimate_Some.
      replace (q' ++ [cellEl; l']) with ((q' ++ [cellEl]) ++ [l']) in Hq'
        by (by rewrite <- app_assoc).
      apply app_inj_tail in Hq' as [Hp ->].
      destruct Hadd as [Hnone|(l & _ & _ & Hnotin)].
      * apply last_None in Hnone. rewrite Hnone in Hp. by destruct q'.
      * apply Hnotin. rewrite Hp. apply elem_of_app. right. apply list_elem_of_here.
Qed.

(** The first move that changes the path is over a cell on which a cell
    input is not ignored. *)
Lemma movesChanging_cell (moves : list (option Cell)) (g : Game) :
  dragging g → movesChanging moves g = true →
  ∃ other, Some other ∈ moves ∧ trySelectCell other g ≠ g.
Proof.
  intros Hg. induction moves as [|m moves IH]; [done|].
  cbn [movesChanging].
  destruct (handleInputMove_dragging m g Hg) as (_ & _ & Hsame).
  destruct (negb (length (selectedCells g)
                  =? length (selectedCells (handleInputMove m g)))%nat) eqn:Hch.
  - intros _. destruct m as [other|].
    + exists other. split; [apply list_elem_of_here|].
      intros Heq. apply negb_true_iff, Nat.eqb_neq in Hch. apply Hch.
      unfold handleInputMove. destruct Hg as (-> & -> & _). simpl.
      rewrite Heq. by rewrite Nat.eqb_refl.
    + apply negb_true_iff, Nat.eqb_neq in Hch. destruct Hch.
      unfold handleInputMove. by destruct Hg as (-> & -> & _).
  - rewrite (Hsame eq_refl). cbn [orb]. intros Hrest.
    destruct (IH Hrest) as (other & Hin & Hne).
    exists other. split; [by apply list_elem_of_further|done].
Qed.

(** After a press on a cell in an active round the release calls
    [submitWord] exactly when some move event changed the path. *)
Lemma release_after_drag (cellEl : Cell) (moves : list (option Cell)) (g : Game) :
  isGameActive g = true →
  let g1 := handleInputStart (Some cellEl) g in
  let g2 := drag moves g1 in
  let g3 := handleInputEnd commonWords g2 in
  dragging g1 ∧ dragging g2
  ∧ (movesChanging moves g1 = true →
     g3 = submitWord commonWords true (set_isDragging g2 false))
  ∧ (movesChanging moves g1 = false →
     g2 = g1 ∧ g3 = set_isDragging g1 false).
Proof.
  intros Hact. cbv zeta.
  destruct (handleInputStart_dragging cellEl g Hact) as [Hg1 Hm1].
  destruct (drag_dragging moves _ Hg1) as (Hg2 & Hm2 & Hsame).
  pose proof Hg2 as (Ha2 & Hd2 & Hne2).
  rewrite Hm1 in Hm2. simpl in Hm2.
  assert (Hlen : (1 <=? length (selectedCells
              (drag moves (handleInputStart (Some cellEl) g))))%nat = true).
  { apply Nat.leb_le.
    destruct (selectedCells (drag moves (handleInputStart (Some cellEl) g)));
      [done|simpl; lia]. }
  split; [done|]. split; [done|]. split.
  - intros Hch. unfold handleInputEnd. rewrite Hd2.
    cbn [interactionMoved selectedCells set_isDragging].
    by rewrite Hm2, Hch, Hlen.
  - intros Hch. split; [by apply Hsame|].
    unfold handleInputEnd. rewrite Hd2.
    cbn [interactionMoved selectedCells set_isDragging].
    rewrite Hm2, Hch. cbn [andb]. by rewrite (Hsame Hch).
Qed.

(** A move that changes the path of a press is over another cell than
    the pressed one. *)
Lemma changing_move_other (cellEl : Cell) (moves : list (option Cell)) (g : Game) :
  isGameActive g = true → NoDup (selectedCells g) →
  movesChanging moves (handleInputStart (Some cellEl) g) = true →
  ∃ other, Some other ∈ moves ∧ other ≠ cellEl.
Proof.
  intros Hact Hnd Hch.
  destruct (handleInputStart_dragging cellEl g Hact) as [Hg1 _].
  destruct (movesChanging_cell moves _ Hg1 Hch) as (other & Hin & Hne).
  exists other. split; [done|]. intros ->. apply Hne.
  unfold handleInputStart. rewrite Hact. simpl.
  by apply trySelectCell_again.
Qed.

End Release.

(** A drag that only takes a cell back counts as movement. C and A are
    selected by two taps; the pointer goes down on T and moves back to
    A, which removes T; the release submits the path and clears it. *)
Example release_submits_backtrack_drag :
  let taps := gesture (locale := trLocale) (Some sampleWords) (0, 1) []
                (gesture (locale := trLocale) (Some sampleWords) (0, 0) []
                   sampleGame) in
  selectedCells taps = [(0, 0); (0, 1)]
  ∧ selectedCells
      (gesture (locale := trLocale) (Some sampleWords) (0, 2) [Some (0, 1)] taps)
    = [].
Proof. vm_compute. done. Qed.

(** ** Solver *)

(** *** The visited matrix *)

Lemma unvisitedRow_mark (row : list bool) (j : nat) :
  row !! j = Some false →
  unvisitedRow row = S (unvisitedRow (<[j:=true]> row)).
Proof.
  revert j. induction row as [|b row IH]; intros [|j] Hj; simpl in *; try done.
  - by injection Hj as ->.
  - rewrite (IH j Hj). lia.
Qed.

Lemma unvisitedCount_insert (m : list (list bool)) (i : nat) (row row' : list bool) :
  m !! i = Some row →
  (unvisitedCount (<[i:=row']> m) + unvisitedRow row
   = unvisitedCount m + unvisitedRow row')%nat.
Proof.
  revert i. induction m as [|x m IH]; intros [|i] Hi; simpl in *; try done.
  - injection Hi as ->. lia.
  - specialize (IH i Hi). lia.
Qed.

Lemma unvisitedRow_le (row : list bool) : (unvisitedRow row ≤ length row)%nat.
Proof. induction row as [|[] row IH]; simpl; lia. Qed.

Lemma unvisitedCount_le (n : nat) (m : list (list bool)) :
  Forall (λ row, length row = n) m → (unvisitedCount m ≤ length m * n)%nat.
Proof.
  induction 1 as [|row m Hrow _ IH]; simpl; [lia|].
  pose proof (unvisitedRow_le row). lia.
Qed.

Lemma square_lookup {A : Type} (n : nat) (m : list (list A)) (cell : Cell) :
  square n m → inBounds n cell →
  ∃ row x, m !! Z.to_nat cell.1 = Some row ∧ length row = n
           ∧ row !! Z.to_nat cell.2 = Some x.
Proof.
  intros [Hlen Hrows] [Hr Hc].
  destruct (lookup_lt_is_Some_2 m (Z.to_nat cell.1)) as [row Hrow]; [lia|].
  assert (length row = n) as Hn.
  { rewrite Forall_forall in Hrows. apply Hrows.
    apply list_elem_of_lookup. eauto. }
  destruct (lookup_lt_is_Some_2 row (Z.to_nat cell.2)) as [x Hx]; [lia|].
  eauto.
Qed.

Lemma gridAt_square (n : nat) (gr : Grid) (cell : Cell) :
  square n gr → inBounds n cell → is_Some (gridAt gr cell.1 cell.2).
Proof.
  intros Hsq Hin. destruct (square_lookup n gr cell Hsq Hin) as (row & x & Hrow & _ & Hx).
  destruct Hin as [Hr Hc]. unfold gridAt.
  replace (cell.1 <? 0) with false by (symmetry; apply Z.ltb_ge; lia).
  replace (cell.2 <? 0) with false by (symmetry; apply Z.ltb_ge; lia).
  cbn [orb]. rewrite Hrow. simpl. rewrite Hx. eauto.
Qed.

Lemma square_insert {A : Type} (n : nat) (m : list (list A)) (i j : nat)
    (row : list A) (x : A) :
  square n m → m !! i = Some row → square n (<[i := <[j := x]> row]> m).
Proof.
  intros [Hlen Hrows] Hrow. split; [by rewrite length_insert|].
  apply Forall_insert; [done|]. rewrite length_insert.
  rewrite Forall_forall in Hrows. apply Hrows, list_elem_of_lookup. eauto.
Qed.

(** Marking a free cell: one unvisited cell fewer, the other cells as
    they were, and unmarking gives the matrix back. *)
Lemma setVisited_mark (n : nat) (visited : list (list bool)) (cell : Cell) :
  square n visited → inBounds n cell → free visited cell →
  ∃ visited1,
    setVisited visited cell.1 cell.2 true = Some visited1
    ∧ square n visited1
    ∧ unvisitedCount visited = S (unvisitedCount visited1)
    ∧ visitedAt visited1 cell.1 cell.2 = Some true
    ∧ (∀ other, inBounds n other → other ≠ cell →
         visitedAt visited1 other.1 other.2 = visitedAt visited other.1 other.2)
    ∧ setVisited visited1 cell.1 cell.2 false = Some visited.
Proof.
  intros Hsq Hin Hfree.
  destruct (square_lookup n visited cell Hsq Hin) as (row & v & Hrow & Hn & Hv).
  unfold free, visitedAt in Hfree. rewrite Hrow in Hfree. simpl in Hfree.
  assert (Z.to_nat cell.2 < length row)%nat as Hlt by (by eapply lookup_lt_Some).
  assert (Z.to_nat cell.1 < length visited)%nat as Hlt1 by (by eapply lookup_lt_Some).
  exists (<[Z.to_nat cell.1 := <[Z.to_nat cell.2 := true]> row]> visited).
  split; [|split; [|split; [|split; [|split]]]].
  - unfold setVisited. rewrite Hrow. simpl. by rewrite decide_True.
  - by apply square_insert.
  - pose proof (unvisitedCount_insert visited (Z.to_nat cell.1) row
                  (<[Z.to_nat cell.2 := true]> row) Hrow) as Hc.
    pose proof (unvisitedRow_mark row (Z.to_nat cell.2) Hfree). lia.
  - unfold visitedAt. rewrite list_lookup_insert_eq by done. simpl.
    by rewrite list_lookup_insert_eq.
  - intros other [Hr Hc] Hne. unfold visitedAt.
    destruct Hin as [Hr' Hc'].
    destruct (decide (Z.to_nat other.1 = Z.to_nat cell.1)) as [Heq|Hneq].
    + rewrite Heq, list_lookup_insert_eq, Hrow by done. simpl.
      rewrite list_lookup_insert_ne; [done|]. intros Heq2. apply Hne.
      destruct other, cell. simpl in *. f_equal; lia.
    + by rewrite list_lookup_insert_ne.
  - unfold setVisited. rewrite list_lookup_insert_eq by done. simpl.
    rewrite decide_True by (by rewrite length_insert).
    rewrite list_insert_insert_eq. f_equal.
    rewrite list_insert_insert_eq.
    rewrite (list_insert_id row) by done. by apply list_insert_id.
Qed.

(** *** Loops that collect words *)

Lemma collects_skip (visited : list (list bool)) (P : jsstring → Prop) :
  (∀ w, ¬ P w) → collects visited Done P.
Proof.
  intros HP found. exists found. split; [done|]. split; [done|].
  intros w. split; [by left|]. intros [?|?]; [done|]. by destruct (HP w).
Qed.

Lemma collects_iff (visited : list (list bool)) (m : SearchState → outcome SearchState)
    (P Q : jsstring → Prop) :
  (∀ w, P w ↔ Q w) → collects visited m P → collects visited m Q.
Proof.
  intros HPQ Hm found. destruct (Hm found) as (found' & Heq & Hnd & Hmem).
  exists found'. split; [done|]. split; [done|].
  intros w. rewrite Hmem. by rewrite HPQ.
Qed.

Lemma forEach_collects {A : Type} (xs : list A)
    (body : A → SearchState → outcome SearchState)
    (P : A → jsstring → Prop) (visited : list (list bool)) :
  (∀ x, x ∈ xs → collects visited (body x) (P x)) →
  collects visited (forEach xs body) (λ w, ∃ x, x ∈ xs ∧ P x w).
Proof.
  induction xs as [|a xs IH]; intros Hbody found.
  - exists found. split; [done|]. split; [done|].
    intros w. split; [by left|]. intros [?|(x & Hx & _)]; [done|].
    by apply not_elem_of_nil in Hx.
  - destruct (Hbody a (list_elem_of_here _ _) found) as (f1 & Heq1 & Hnd1 & Hmem1).
    destruct (IH (λ x Hx, Hbody x (list_elem_of_further _ _ _ Hx)) f1)
      as (f2 & Heq2 & Hnd2 & Hmem2).
    exists f2. simpl. rewrite Heq1. simpl. split; [done|]. split; [auto|].
    intros w. rewrite Hmem2, Hmem1. split.
    + intros [[?|?]|(x & Hx & HP)].
      * by left.
      * right. exists a. split; [apply list_elem_of_here|done].
      * right. exists x. split; [by apply list_elem_of_further|done].
    + intros [?|(x & Hx & HP)]; [by left; left|].
      apply elem_of_cons in Hx as [->|Hx]; [by left; right|].
      right. eauto.
Qed.

Lemma setAdd_spec (x w : jsstring) (s : list jsstring) :
  (NoDup s → NoDup (setAdd x s)) ∧ (w ∈ setAdd x s ↔ w ∈ s ∨ w = x).
Proof.
  unfold setAdd. destruct (bool_decide_reflect (x ∈ s)) as [Hin|Hout].
  - split; [done|]. split; [by left|]. by intros [?| ->].
  - split.
    + intros Hnd. apply NoDup_app. split; [done|].
      split; [|apply NoDup_singleton].
      by intros y Hy ->%list_elem_of_singleton.
    + by rewrite elem_of_app, list_elem_of_singleton.
Qed.

(** *** Paths of the search *)

Lemma chebyshev_offsets (a b : Cell) :
  chebyshev a b = 1 ↔
  ∃ dr, dr ∈ [-1; 0; 1] ∧ ∃ dc, dc ∈ [-1; 0; 1]
    ∧ ((dr =? 0) && (dc =? 0) = false) ∧ b = (a.1 + dr, a.2 + dc).
Proof.
  unfold chebyshev. destruct a as [r c], b as [r' c']. simpl. split.
  - intros H. exists (r' - r). split.
    { rewrite !elem_of_cons. lia. }
    exists (c' - c). split.
    { rewrite !elem_of_cons. lia. }
    split; [|f_equal; lia].
    apply andb_false_iff. rewrite !Z.eqb_neq. lia.
  - intros (dr & Hdr & dc & Hdc & Hnz & Heq).
    injection Heq as -> ->.
    rewrite !elem_of_cons in Hdr, Hdc.
    apply andb_false_iff in Hnz. rewrite !Z.eqb_neq in Hnz.
    destruct Hdr as [?|[?|[?|Hnil]]]; [| | |by apply not_elem_of_nil in Hnil];
    destruct Hdc as [?|[?|[?|Hnil]]]; try (by apply not_elem_of_nil in Hnil); lia.
Qed.

Lemma letters_cons (gr : Grid) (cell : Cell) (p : list Cell) :
  letters gr (cell :: p) = default [] (gridAt gr cell.1 cell.2) ++ letters gr p.
Proof. reflexivity. Qed.

Lemma searchPath_inv (n : nat) (visited : list (list bool)) (start : Cell)
    (p : list Cell) :
  searchPath n visited start p →
  ∃ p', p = start :: p' ∧ inBounds n start ∧ free visited start
        ∧ (start ∉ p') ∧ NoDup p' ∧ chained p
        ∧ Forall (inBounds n) p' ∧ Forall (free visited) p'.
Proof.
  intros (Hhead & Hnd & Hch & Hin & Hfree).
  destruct p as [|x p']; [done|]. injection Hhead as ->.
  apply NoDup_cons in Hnd as [? ?].
  apply Forall_cons in Hin as [? ?]. apply Forall_cons in Hfree as [? ?].
  exists p'. done.
Qed.

(** One level of the search: the word ends at the cell, or goes on from
    one of the eight neighbours with the cell marked. *)
Lemma reachable_step (commonWords : option (list jsstring)) (g : Game)
    (visited visited1 : list (list bool)) (cell : Cell)
    (currentPrefix char w : jsstring) :
  inBounds (gridSize g) cell → free visited cell →
  gridAt (grid g) cell.1 cell.2 = Some char →
  visitedAt visited1 cell.1 cell.2 = Some true →
  (∀ other, inBounds (gridSize g) other → other ≠ cell →
     visitedAt visited1 other.1 other.2 = visitedAt visited other.1 other.2) →
  reachable commonWords g visited cell currentPrefix w ↔
    (w = currentPrefix ++ char ∧ (3 ≤ length w)%nat ∧ inDictionary commonWords w)
    ∨ ∃ dr, dr ∈ [-1; 0; 1] ∧ ∃ dc, dc ∈ [-1; 0; 1]
        ∧ ((dr =? 0) && (dc =? 0) = false)
        ∧ reachable commonWords g visited1 (cell.1 + dr, cell.2 + dc)
            (currentPrefix ++ char) w.
Proof.
  intros Hin Hfree Hchar Hmarked Hother. split.
  - intros (p & Hp & Hw & Hlen & Hdict).
    apply searchPath_inv in Hp
      as (p' & -> & _ & _ & Hnotin & Hnd & Hch & Hin' & Hfree').
    rewrite letters_cons, Hchar in Hw. simpl in Hw.
    destruct p' as [|next p''].
    + left. unfold letters in Hw. simpl in Hw. rewrite app_nil_r in Hw. done.
    + right. destruct Hch as [Hadj Hch].
      apply chebyshev_offsets in Hadj as (dr & Hdr & dc & Hdc & Hnz & Hnext).
      exists dr. split; [done|]. exists dc. split; [done|]. split; [done|].
      exists (next :: p''). split; [|by rewrite <- app_assoc].
      split; [by rewrite Hnext|]. split; [done|]. split; [done|]. split; [done|].
      rewrite Forall_forall in Hin', Hfree'. apply Forall_forall.
      intros x Hx. unfold free. rewrite Hother; [by apply Hfree'|by apply Hin'|].
      intros ->. done.
  - intros [(Hw & Hlen & Hdict)|(dr & Hdr & dc & Hdc & Hnz & p & Hp & Hw & Hlen & Hdict)].
    + exists [cell]. split.
      { split; [done|]. split; [apply NoDup_singleton|]. split; [done|].
        split; by apply Forall_singleton. }
      split; [|done]. rewrite letters_cons, Hchar. simpl.
      unfold letters. simpl. by rewrite app_nil_r.
    + apply searchPath_inv in Hp
        as (p' & -> & Hin1 & Hfree1 & Hnotin & Hnd & Hch & Hin' & Hfree').
      assert (Hfresh : ∀ x, inBounds (gridSize g) x → free visited1 x →
                            x ≠ cell ∧ free visited x).
      { intros x Hx Hfx.
        assert (x ≠ cell) as Hne.
        { intros ->. unfold free in Hfx. congruence. }
        split; [done|]. unfold free in *. by rewrite <- Hother. }
      exists (cell :: (cell.1 + dr, cell.2 + dc) :: p'). split.
      { split; [done|]. split.
        { apply NoDup_cons. split.
          - intros [Heq|Hx]%elem_of_cons.
            + by destruct (Hfresh _ Hin1 Hfree1).
            + rewrite Forall_forall in Hin', Hfree'.
              by destruct (Hfresh cell (Hin' _ Hx) (Hfree' _ Hx)).
          - by apply NoDup_cons. }
        split.
        { split; [|done]. apply chebyshev_offsets. eauto 10. }
        split.
        { apply Forall_cons. split; [done|]. by apply Forall_cons. }
        apply Forall_cons. split; [done|]. apply Forall_cons. split.
        - by apply Hfresh.
        - rewrite Forall_forall in Hin', Hfree'. apply Forall_forall.
          intros x Hx. by apply Hfresh; [apply Hin'|apply Hfree']. }
      split; [|done]. rewrite letters_cons, Hchar. simpl.
      by rewrite <- app_assoc in Hw.
Qed.

(** *** The recursive search *)

Section Solver.
Variable commonWords : option (list jsstring).

Lemma recursivelyFind_eq (g : Game) (fuel : nat) (r c : Z)
    (currentPrefix : jsstring) (st : SearchState) :
  recursivelyFind commonWords g fuel r c currentPrefix st =
    let N := Z.of_nat (gridSize g) in
    if (r <? 0) || (N <=? r) || (c <? 0) || (N <=? c) then Done st
    else
      v ← orFault (visitedAt st.1 r c) ;;;
      if (v : bool) then Done st
      else
        char ← orFault (gridAt (grid g) r c) ;;;
        let nextPrefix := currentPrefix ++ char in
        let potential :=
          match commonWords with
          | Some words => existsb (λ w, startsWith w nextPrefix) words
          | None => false
          end in
        if negb potential then Done st
        else
          match fuel with
          | O => OutOfFuel
          | S fuel' =>
              visited1 ← orFault (setVisited st.1 r c true) ;;;
              let found1 :=
                if (3 <=? length nextPrefix)%nat
                   && match commonWords with
                      | Some words => includes words nextPrefix
                      | None => false
                      end
                then setAdd nextPrefix st.2 else st.2 in
              st2 ← forEach [-1; 0; 1] (λ dr,
                      forEach [-1; 0; 1] (λ dc s,
                        if (dr =? 0) && (dc =? 0) then Done s
                        else recursivelyFind commonWords g fuel'
                               (r + dr) (c + dc) nextPrefix s))
                      (visited1, found1) ;;;
              visited3 ← orFault (setVisited st2.1 r c false) ;;;
              Done (visited3, st2.2)
          end.
Proof. destruct fuel; reflexivity. Qed.

(** A dictionary word that goes on from the prefix keeps the branch
    alive. *)
Lemma potential_of_word (nextPrefix rest w : jsstring) :
  inDictionary commonWords w → w = nextPrefix ++ rest →
  match commonWords with
  | Some words => existsb (λ w, startsWith w nextPrefix) words
  | None => false
  end = true.
Proof.
  unfold inDictionary. destruct commonWords as [words|]; [|done].
  intros Hin ->. apply existsb_exists. exists (nextPrefix ++ rest).
  split; [by apply list_elem_of_In|].
  unfold startsWith. apply bool_decide_eq_true_2. by exists rest.
Qed.

Lemma found1_spec (nextPrefix w : jsstring) (found : list jsstring) :
  let found1 :=
    if (3 <=? length nextPrefix)%nat
       && match commonWords with
          | Some words => includes words nextPrefix
          | None => false
          end
    then setAdd nextPrefix found else found in
  (NoDup found → NoDup found1)
  ∧ (w ∈ found1 ↔
     w ∈ found
     ∨ (w = nextPrefix ∧ (3 ≤ length w)%nat ∧ inDictionary commonWords w)).
Proof.
  cbv zeta. destruct (3 <=? length nextPrefix)%nat eqn:Hlen; simpl.
  - apply Nat.leb_le in Hlen. unfold inDictionary, includes.
    destruct commonWords as [words|].
    + destruct (bool_decide_reflect (nextPrefix ∈ words)) as [Hin|Hout].
      * destruct (setAdd_spec nextPrefix w found) as [Hnd Hmem].
        split; [done|]. rewrite Hmem. split.
        -- intros [?| ->]; [by left|by right].
        -- intros [?|(-> & _)]; [by left|by right].
      * split; [done|]. split; [by left|].
        intros [?|(-> & _ & ?)]; done.
    + split; [done|]. split; [by left|]. intros [?|(_ & _ & [])]; done.
  - apply Nat.leb_gt in Hlen. split; [done|]. split; [by left|].
    intros [?|(-> & ? & _)]; [done|lia].
Qed.

(** With a budget of at least the number of unmarked cells, a call
    returns, restores the visited matrix and adds exactly the words
    reachable from its cell. *)
Lemma recursivelyFind_collects (g : Game) (fuel : nat) :
  ∀ (r c : Z) (currentPrefix : jsstring) (visited : list (list bool)),
  square (gridSize g) (grid g) → square (gridSize g) visited →
  (unvisitedCount visited ≤ fuel)%nat →
  collects visited (recursivelyFind commonWords g fuel r c currentPrefix)
    (reachable commonWords g visited (r, c) currentPrefix).
Proof.
  induction fuel as [fuel IH] using lt_wf_ind.
  intros r c currentPrefix visited Hgrid Hvis Hfuel found.
  rewrite recursivelyFind_eq. cbv zeta. cbn [fst snd].
  assert (Hnone : ¬ (∃ p, searchPath (gridSize g) visited (r, c) p) →
            ∃ found', Done (visited, found) = Done (visited, found')
              ∧ (NoDup found → NoDup found')
              ∧ ∀ w, w ∈ found' ↔
                  w ∈ found ∨ reachable commonWords g visited (r, c) currentPrefix w).
  { intros Hno. exists found. split; [done|]. split; [done|].
    intros w. split; [by left|]. intros [?|(p & Hp & _)]; [done|].
    destruct Hno. eauto. }
  destruct ((r <? 0) || (Z.of_nat (gridSize g) <=? r) || (c <? 0)
            || (Z.of_nat (gridSize g) <=? c)) eqn:Hb.
  { apply Hnone. intros (p & Hp).
    apply searchPath_inv in Hp as (_ & _ & [Hr Hc] & _). simpl in Hr, Hc.
    rewrite !orb_true_iff in Hb. lia. }
  assert (inBounds (gridSize g) (r, c)) as Hin.
  { rewrite !orb_false_iff in Hb. unfold inBounds. simpl. lia. }
  destruct (square_lookup _ visited (r, c) Hvis Hin) as (row & v & Hrow & _ & Hv).
  assert (visitedAt visited r c = Some v) as Hvat.
  { unfold visitedAt. simpl in Hrow, Hv. rewrite Hrow. simpl. done. }
  rewrite Hvat. cbn [obind orFault]. destruct v.
  { apply Hnone. intros (p & Hp).
    apply searchPath_inv in Hp as (_ & _ & _ & Hfree & _).
    unfold free in Hfree. simpl in Hfree. congruence. }
  destruct (gridAt_square _ (grid g) (r, c) Hgrid Hin) as [char Hchar].
  simpl in Hchar. rewrite Hchar. cbn [obind orFault].
  destruct (setVisited_mark _ visited (r, c) Hvis Hin Hvat)
    as (visited1 & Hset & Hvis1 & Hcount & Hmarked & Hother & Hunset).
  simpl in Hset, Hmarked, Hunset.
  pose proof (reachable_step commonWords g visited visited1 (r, c)
                currentPrefix char) as Hstep.
  destruct (match commonWords with
            | Some words => existsb (λ w, startsWith w (currentPrefix ++ char)) words
            | None => false
            end) eqn:Hpot; cbn [negb].
  2:{ exists found. split; [done|]. split; [done|].
      intros w. split; [by left|]. intros [?|Hreach]; [done|]. exfalso.
      apply Hstep in Hreach; [|done..].
      destruct Hreach as [(Hw & _ & Hdict)|(dr & _ & dc & _ & _ & p & _ & Hw & _ & Hdict)].
      - rewrite (potential_of_word (currentPrefix ++ char) [] w) in Hpot;
          [done|done|by rewrite app_nil_r].
      - by rewrite (potential_of_word _ _ w Hdict Hw) in Hpot. }
  destruct fuel as [|fuel']; [lia|].
  rewrite Hset. cbn [obind orFault].
  destruct (found1_spec (currentPrefix ++ char) [] found) as [Hnd1 _].
  set (found1 := if (3 <=? length (currentPrefix ++ char))%nat
                    && match commonWords with
                       | Some words => includes words (currentPrefix ++ char)
                       | None => false
                       end
                 then setAdd (currentPrefix ++ char) found else found) in *.
  pose proof (forEach_collects [-1; 0; 1]
    (λ dr, forEach [-1; 0; 1] (λ dc s,
       if (dr =? 0) && (dc =? 0) then Done s
       else recursivelyFind commonWords g fuel' (r + dr) (c + dc)
              (currentPrefix ++ char) s))
    (λ dr w, ∃ dc, dc ∈ [-1; 0; 1]
       ∧ ((dr =? 0) && (dc =? 0) = false)
       ∧ reachable commonWords g visited1 (r + dr, c + dc)
           (currentPrefix ++ char) w)
    visited1) as Hloops.
  destruct (Hloops) with (found := found1) as (found2 & Heq2 & Hnd2 & Hmem2).
  { intros dr _.
    apply (forEach_collects [-1; 0; 1] _
             (λ dc w, (dr =? 0) && (dc =? 0) = false
                ∧ reachable commonWords g visited1 (r + dr, c + dc)
                    (currentPrefix ++ char) w)).
    intros dc _. destruct ((dr =? 0) && (dc =? 0)) eqn:Hz.
    - apply collects_skip. by intros w [? _].
    - eapply collects_iff; [|apply (IH fuel'); [lia|done|done|lia]].
      intros w. split; [done|]. by intros [_ ?]. }
  rewrite Heq2. cbn [obind orFault fst snd]. rewrite Hunset. cbn [obind orFault].
  exists found2. split; [done|]. split; [auto|].
  intros w. rewrite Hmem2.
  destruct (found1_spec (currentPrefix ++ char) w found) as [_ Hmem1].
  fold found1 in Hmem1. rewrite Hmem1.
  rewrite (Hstep w) by done. split.
  - intros [[?|?]|Hrec]; [by left|by right; left|].
    right. right. destruct Hrec as (dr & Hdr & dc & Hdc & Hnz & Hreach).
    exists dr. split; [done|]. exists dc. done.
  - intros [?|[?|Hrec]]; [by left; left|by left; right|].
    right. destruct Hrec as (dr & Hdr & dc & Hdc & Hnz & Hreach).
    exists dr. split; [done|]. exists dc. done.
Qed.

End Solver.

(** *** The budget *)

Lemma forEach_mono {S A : Type} (xs : list A) (body body' : A → S → outcome S) :
  (∀ x s s', body x s = Done s' → body' x s = Done s') →
  ∀ s s', forEach xs body s = Done s' → forEach xs body' s = Done s'.
Proof.
  intros Hbody. induction xs as [|a xs IH]; simpl; intros s s' Heq; [done|].
  destruct (body a s) as [s1| |] eqn:E; try done.
  rewrite (Hbody _ _ _ E). simpl. by apply IH.
Qed.

(** A call that returns within a budget returns the same with more. *)
Lemma recursivelyFind_fuel_S (commonWords : option (list jsstring)) (g : Game)
    (fuel : nat) :
  ∀ (r c : Z) (currentPrefix : jsstring) (st st' : SearchState),
  recursivelyFind commonWords g fuel r c currentPrefix st = Done st' →
  recursivelyFind commonWords g (S fuel) r c currentPrefix st = Done st'.
Proof.
  induction fuel as [|fuel IH]; intros r c currentPrefix st st';
    rewrite (recursivelyFind_eq commonWords g (S _) r c currentPrefix st);
    rewrite (recursivelyFind_eq commonWords g _ r c currentPrefix st);
    cbv zeta;
    (destruct (_ || _); [done|]);
    (destruct (orFault (visitedAt _ _ _)) as [[|]| |]; cbn [obind]; try done);
    (destruct (orFault (gridAt _ _ _)) as [char| |]; cbn [obind]; try done);
    (destruct (negb _); [done|]); [done|].
  destruct (orFault (setVisited _ _ _ true)) as [visited1| |]; cbn [obind]; try done.
  match goal with
  | |- obind (forEach ?xs ?body ?s) ?k = _ → _ =>
      destruct (forEach xs body s) as [st2| |] eqn:E; cbn [obind]; try done
  end.
  intros Hdone.
  erewrite forEach_mono; [| |exact E]; [exact Hdone|].
  intros dr s s' Hinner. eapply forEach_mono; [|exact Hinner].
  intros dc s1 s1'. cbv beta. destruct ((dr =? 0) && (dc =? 0)); [done|].
  apply IH.
Qed.

Lemma recursivelyFind_fuel_le (commonWords : option (list jsstring)) (g : Game)
    (fuel fuel' : nat) (r c : Z) (currentPrefix : jsstring) (st st' : SearchState) :
  (fuel ≤ fuel')%nat →
  recursivelyFind commonWords g fuel r c currentPrefix st = Done st' →
  recursivelyFind commonWords g fuel' r c currentPrefix st = Done st'.
Proof.
  induction 1 as [|fuel' _ IH]; [done|].
  intros H. by apply recursivelyFind_fuel_S, IH.
Qed.

(** C7. The recursive search returns: a call that descends marks a cell
    that was unmarked, so a budget of nested descending calls equal to
    the number of unmarked cells, which is at most the number of cells
    of the grid, is never used up; the call leaves the visited matrix as
    it found it, and a larger budget gives the same result. *)
Theorem recursivelyFind_terminates (commonWords : option (list jsstring)) (g : Game)
    (fuel : nat) (r c : Z) (currentPrefix : jsstring)
    (visited : list (list bool)) (found : list jsstring) :
  square (gridSize g) (grid g) → square (gridSize g) visited →
  (unvisitedCount visited ≤ fuel)%nat →
  (unvisitedCount visited ≤ gridSize g * gridSize g)%nat
  ∧ ∃ found',
      recursivelyFind commonWords g fuel r c currentPrefix (visited, found)
      = Done (visited, found')
      ∧ ∀ fuel', (fuel ≤ fuel')%nat →
          recursivelyFind commonWords g fuel' r c currentPrefix (visited, found)
          = Done (visited, found').
Proof.
  intros Hgrid Hvis Hfuel. split.
  - destruct Hvis as [Hlen Hrows].
    pose proof (unvisitedCount_le _ _ Hrows). by rewrite Hlen in *.
  - destruct (recursivelyFind_collects commonWords g fuel r c currentPrefix
                visited Hgrid Hvis Hfuel found) as (found' & Heq & _).
    exists found'. split; [done|]. intros fuel' Hle.
    by eapply recursivelyFind_fuel_le.
Qed.

Lemma recursivelyFind_terminates_witness :
  (unvisitedCount (replicate 4 (replicate 4 false)) ≤ gridSize sampleGame * gridSize sampleGame)%nat
  ∧ ∃ found',
      recursivelyFind (Some sampleWords) sampleGame 16 0 0 []
        (replicate 4 (replicate 4 false), [])
      = Done (replicate 4 (replicate 4 false), found')
      ∧ ∀ fuel', (16 ≤ fuel')%nat →
          recursivelyFind (Some sampleWords) sampleGame fuel' 0 0 []
            (replicate 4 (replicate 4 false), [])
          = Done (replicate 4 (replicate 4 false), found').
Proof.
  apply (recursivelyFind_terminates (Some sampleWords) sampleGame 16 0 0 []
           (replicate 4 (replicate 4 false)) []).
  - split; [reflexivity|]. repeat constructor.
  - split; [reflexivity|]. repeat constructor.
  - vm_compute. lia.
Defined.

(** *** The whole grid *)

Lemma square_replicate {A : Type} (n : nat) (x : A) :
  square n (replicate n (replicate n x)).
Proof.
  split; [apply length_replicate|]. apply Forall_replicate, length_replicate.
Qed.

Lemma free_replicate (n : nat) (cell : Cell) :
  inBounds n cell → free (replicate n (replicate n false)) cell.
Proof.
  intros [Hr Hc]. unfold free, visitedAt.
  rewrite lookup_replicate_2 by lia. simpl. apply lookup_replicate_2. lia.
Qed.

(** The two loops of [solveGrid] over the cells of the grid. *)
Lemma solveGrid_collects (commonWords : option (list jsstring)) (g : Game) :
  square (gridSize g) (grid g) →
  ∃ result,
    solveGrid commonWords g = Done result
    ∧ NoDup result
    ∧ ∀ w, w ∈ result ↔
        ∃ r, r ∈ upTo (gridSize g) ∧ ∃ c, c ∈ upTo (gridSize g)
          ∧ reachable commonWords g
              (replicate (gridSize g) (replicate (gridSize g) false)) (r, c) [] w.
Proof.
  intros Hgrid. unfold solveGrid. cbv zeta.
  set (n := gridSize g). set (visited := replicate n (replicate n false)).
  assert (square n visited) as Hvis by apply square_replicate.
  assert (unvisitedCount visited ≤ n * n)%nat as Hcount.
  { destruct Hvis as [Hlen Hrows].
    pose proof (unvisitedCount_le _ _ Hrows). by rewrite Hlen in *. }
  destruct (forEach_collects (upTo n)
    (λ r, forEach (upTo n) (λ c s,
       recursivelyFind commonWords g (n * n) r c [] s))
    (λ r w, ∃ c, c ∈ upTo n ∧ reachable commonWords g visited (r, c) [] w)
    visited) with (found := @nil (list N)) as (result & Heq & Hnd & Hmem).
  { intros r _.
    apply (forEach_collects (upTo n) _
             (λ c w, reachable commonWords g visited (r, c) [] w)).
    intros c _. by apply recursivelyFind_collects. }
  exists result. rewrite Heq. split; [done|]. split; [apply Hnd, NoDup_nil_2|].
  intros w. rewrite Hmem. split; [|by right].
  intros [Hnil|?]; [by apply not_elem_of_nil in Hnil|done].
Qed.

(** C1. On a square grid [solveGrid] returns, and its result holds each
    word once and holds exactly the dictionary words of three letters
    or more that are spelled along a path of distinct cells of the grid
    whose consecutive cells are at Chebyshev distance 1. *)
Theorem solveGrid_exact (words : list jsstring) (g : Game) :
  square (gridSize g) (grid g) →
  ∃ result,
    solveGrid (Some words) g = Done result
    ∧ NoDup result
    ∧ ∀ w, w ∈ result ↔
        (3 ≤ length w)%nat ∧ w ∈ words ∧ realizable (gridSize g) (grid g) w.
Proof.
  intros Hgrid.
  destruct (solveGrid_collects (Some words) g Hgrid) as (result & Heq & Hnd & Hmem).
  exists result. split; [done|]. split; [done|].
  intros w. rewrite Hmem. split.
  - intros (r & Hr & c & Hc & p & Hp & Hw & Hlen & Hdict).
    split; [done|]. split; [done|].
    destruct Hp as (_ & ? & ? & ? & _). exists p. done.
  - intros (Hlen & Hdict & p & Hnd' & Hch & Hin & Hw).
    destruct p as [|[r c] p'].
    { subst w. simpl in Hlen. lia. }
    pose proof Hin as Hin'. apply Forall_cons in Hin' as [[Hr Hc] _].
    simpl in Hr, Hc.
    exists r. split; [apply elem_of_seqZ; lia|].
    exists c. split; [apply elem_of_seqZ; lia|].
    exists ((r, c) :: p'). split; [|done].
    split; [done|]. split; [done|]. split; [done|]. split; [done|].
    eapply Forall_impl; [exact Hin|]. intros cell. apply free_replicate.
Qed.

Lemma solveGrid_exact_witness :
  ∃ result,
    solveGrid (Some sampleWords) sampleGame = Done result
    ∧ NoDup result
    ∧ ∀ w, w ∈ result ↔
        (3 ≤ length w)%nat ∧ w ∈ sampleWords
        ∧ realizable (gridSize sampleGame) (grid sampleGame) w.
Proof.
  apply (solveGrid_exact sampleWords sampleGame).
  split; [reflexivity|]. repeat constructor.
Defined.

(** On the regression grid the solver finds CAT, CATS, DOG, DOGS and
    NEWS: the S under the T of CAT makes CATS a word of the grid. *)
Example solveGrid_sample :
  solveGrid (Some sampleWords) sampleGame
  = Done [ [67; 65; 84]; [67; 65; 84; 83]; [68; 79; 71]; [68; 79; 71; 83];
           [78; 69; 87; 83] ]%N.
Proof. vm_compute. reflexivity. Qed.

(** ** Grid generator *)

Lemma dice_six (die : jsstring) :
  die ∈ DICE ++ DICE_EXTENDED → length die = 6%nat.
Proof.
  revert die. apply Forall_forall. repeat constructor.
Qed.

Lemma padDice_Done (fuel totalSorts : nat) (sourceDice : list jsstring) :
  (totalSorts ≤ length sourceDice + fuel)%nat →
  Forall (λ die, die ∈ DICE ++ DICE_EXTENDED) sourceDice →
  ∃ pool, padDice fuel totalSorts sourceDice = Done pool
          ∧ (totalSorts ≤ length pool)%nat
          ∧ Forall (λ die, die ∈ DICE ++ DICE_EXTENDED) pool.
Proof.
  revert sourceDice. induction fuel as [|fuel IH]; intros sourceDice Hlen Hdice;
    simpl; destruct (length sourceDice <? totalSorts)%nat eqn:E.
  - apply Nat.ltb_lt in E. lia.
  - apply Nat.ltb_ge in E. eauto.
  - apply IH.
    + rewrite length_app. simpl. lia.
    + apply Forall_app. split; [done|].
      apply Forall_forall. intros die Hdie. apply elem_of_app. by left.
  - apply Nat.ltb_ge in E. eauto.
Qed.

Lemma mapO_Done {A B : Type} (f : A → outcome B) (P : B → Prop) (xs : list A) :
  (∀ x, x ∈ xs → ∃ y, f x = Done y ∧ P y) →
  ∃ ys, mapO f xs = Done ys ∧ length ys = length xs ∧ Forall P ys.
Proof.
  induction xs as [|x xs IH]; intros Hf; simpl.
  - exists []. done.
  - destruct (Hf x (list_elem_of_here _ _)) as (y & -> & Hy).
    destruct IH as (ys & -> & Hlen & Hys).
    { intros x' Hx'. apply Hf. by apply list_elem_of_further. }
    simpl. exists (y :: ys). split; [done|]. split; [by rewrite <- Hlen|].
    by apply Forall_cons.
Qed.

Section Generator.
Context {locale : Locale}.
Variable commonWords : option (list jsstring).

(** [buildGridData] returns the game with a populated grid, whatever the
    grid was before. *)
Lemma buildGridData_Done (d : Draw) (g : Game) :
  fair d →
  ∃ rows, populated (gridSize g) rows
          ∧ ∀ old, buildGridData d (set_grid g old) = Done (set_grid g rows).
Proof.
  intros [Hperm Hface].
  set (n := gridSize g).
  destruct (padDice_Done (n * n) (n * n)
              (if (n =? 5)%nat then DICE ++ DICE_EXTENDED else DICE))
    as (pool & Hpad & Hlen & Hdice).
  { lia. }
  { destruct (n =? 5)%nat; apply Forall_forall; intros die Hdie; [done|].
    apply elem_of_app. by left. }
  set (shuffledDice := take (n * n) (sortOutcome d pool)).
  assert (length shuffledDice = (n * n)%nat) as Hshuf.
  { unfold shuffledDice. rewrite length_take, (Permutation_length (Hperm pool)). lia. }
  assert (∀ die, die ∈ shuffledDice → die ∈ DICE ++ DICE_EXTENDED) as Hmem.
  { intros die Hdie. unfold shuffledDice in Hdie.
    apply elem_of_take in Hdie as (i & Hi & _).
    rewrite Forall_forall in Hdice. apply Hdice.
    rewrite <- (Hperm pool). apply list_elem_of_lookup. eauto. }
  destruct (mapO_Done
    (λ i, mapO (λ j,
       die ← orFault (shuffledDice !! (i * n + j)%nat) ;;;
       Done (toLocaleUpperCase (charAt die (faceIndex d (i * n + j)%nat))))
       (seq 0 n))
    (λ row, length row = n ∧ Forall isFace row) (seq 0 n))
    as (rows & Hrows & Hrlen & Hrall).
  { intros i Hi. apply elem_of_seq in Hi.
    destruct (mapO_Done
      (λ j, die ← orFault (shuffledDice !! (i * n + j)%nat) ;;;
            Done (toLocaleUpperCase (charAt die (faceIndex d (i * n + j)%nat))))
      isFace (seq 0 n)) as (row & Hrow & Hlenrow & Hallrow).
    { intros j Hj. apply elem_of_seq in Hj.
      destruct (lookup_lt_is_Some_2 shuffledDice (i * n + j)%nat) as [die Hdie].
      { rewrite Hshuf. nia. }
      rewrite Hdie. simpl.
      assert (die ∈ DICE ++ DICE_EXTENDED) as Hin.
      { apply Hmem, list_elem_of_lookup. eauto. }
      destruct (lookup_lt_is_Some_2 die (faceIndex d (i * n + j)%nat)) as [u Hu].
      { rewrite (dice_six die Hin). apply Hface. }
      eexists. split; [done|]. unfold charAt. rewrite Hu.
      exists die, (faceIndex d (i * n + j)%nat), u. done. }
    exists row. rewrite length_seq in Hlenrow. done. }
  rewrite length_seq in Hrlen.
  exists rows. split.
  - split.
    + split; [done|]. eapply Forall_impl; [exact Hrall|]. by intros row [? _].
    + eapply Forall_impl; [exact Hrall|]. by intros row [_ ?].
  - intros old. unfold buildGridData. cbn [gridSize set_grid]. fold n.
    rewrite Hpad. cbn [obind]. fold shuffledDice. rewrite Hrows. done.
Qed.

Lemma candidateAt_spec (draws : nat → Draw) (g : Game) (i : nat) :
  fair (draws i) →
  populated (gridSize g) (grid (candidateAt draws g i))
  ∧ candidateAt draws g i = set_grid g (grid (candidateAt draws g i))
  ∧ ∀ old, buildGridData (draws i) (set_grid g old) = Done (candidateAt draws g i).
Proof.
  intros Hfair. destruct (buildGridData_Done (draws i) g Hfair) as (rows & Hpop & Hbuild).
  assert (candidateAt draws g i = set_grid g rows) as ->.
  { unfold candidateAt. specialize (Hbuild (grid g)).
    replace (set_grid g (grid g)) with g in Hbuild by (by destruct g).
    by rewrite Hbuild. }
  done.
Qed.

(** On a square grid the solver returns, with or without a dictionary. *)
Lemma solveGrid_wordCount (g : Game) :
  square (gridSize g) (grid g) →
  ∃ possibleWords, solveGrid commonWords g = Done possibleWords
                   ∧ length possibleWords = wordCount commonWords g.
Proof.
  intros Hgrid.
  destruct (solveGrid_collects commonWords g Hgrid) as (result & Heq & _).
  exists result. split; [done|]. unfold wordCount. by rewrite Heq.
Qed.

(** The loop from iteration [i] with [n] iterations left, entered with
    the best candidate of the iterations before. *)
Lemma generateLoop_spec (draws : nat → Draw) (g : Game) :
  (∀ i, fair (draws i)) →
  ∀ (n i : nat) (current : Game) (bestGrid : Grid) (maxFound : Z),
  (∃ old, current = set_grid g old) →
  (∀ j, (j < i)%nat → (wordCount commonWords (candidateAt draws g j) < MIN_WORDS)%nat) →
  ((i = 0%nat ∧ maxFound = -1)
   ∨ ∃ b, (b < i)%nat ∧ bestGrid = grid (candidateAt draws g b)
          ∧ maxFound = Z.of_nat (wordCount commonWords (candidateAt draws g b))
          ∧ ∀ j, (j < i)%nat →
              (wordCount commonWords (candidateAt draws g j)
               ≤ wordCount commonWords (candidateAt draws g b))%nat) →
  (0 < i + n)%nat →
  ∃ k report,
    generateLoop commonWords draws n i current bestGrid maxFound
    = Done (candidateAt draws g k, report)
    ∧ (k < i + n)%nat
    ∧ ((MIN_WORDS ≤ wordCount commonWords (candidateAt draws g k))%nat
       ∧ (∀ j, (j < k)%nat →
            (wordCount commonWords (candidateAt draws g j) < MIN_WORDS)%nat)
       ∧ report = Generated (k + 1) (wordCount commonWords (candidateAt draws g k))
       ∨ (∀ j, (j < i + n)%nat →
            (wordCount commonWords (candidateAt draws g j) < MIN_WORDS)%nat)
         ∧ (∀ j, (j < i + n)%nat →
              (wordCount commonWords (candidateAt draws g j)
               ≤ wordCount commonWords (candidateAt draws g k))%nat)
         ∧ report = BestEffort
                      (Z.of_nat (wordCount commonWords (candidateAt draws g k)))).
Proof.
  intros Hfair.
  induction n as [|n IH]; intros i current bestGrid maxFound [old ->] Hlow Hbest Hpos.
  - destruct Hbest as [[-> _]|(b & Hb & -> & -> & Hmax)]; [lia|].
    exists b, (BestEffort (Z.of_nat (wordCount commonWords (candidateAt draws g b)))).
    destruct (candidateAt_spec draws g b (Hfair b)) as (_ & Hshape & _).
    split.
    { cbn [generateLoop].
      change (set_grid (set_grid g old) (grid (candidateAt draws g b)))
        with (set_grid g (grid (candidateAt draws g b))).
      by rewrite <- Hshape. }
    split; [lia|]. right. rewrite Nat.add_0_r. done.
  - destruct (candidateAt_spec draws g i (Hfair i)) as ([Hsq _] & Hshape & Hbuild).
    cbn [generateLoop]. rewrite Hbuild. cbn [obind].
    destruct (solveGrid_wordCount (candidateAt draws g i)) as (ws & Hsolve & Hws).
    { by rewrite Hshape. }
    rewrite Hsolve. cbn [obind]. rewrite Hws.
    set (count := wordCount commonWords (candidateAt draws g i)) in *.
    destruct (MIN_WORDS <=? count)%nat eqn:Hmin.
    + apply Nat.leb_le in Hmin.
      exists i, (Generated (i + 1) count). split; [done|]. split; [lia|].
      left. done.
    + apply Nat.leb_gt in Hmin.
      assert (Hlow' : ∀ j, (j < S i)%nat →
                (wordCount commonWords (candidateAt draws g j) < MIN_WORDS)%nat).
      { intros j Hj. destruct (decide (j = i)) as [->|]; [done|]. apply Hlow. lia. }
      replace (i + S n)%nat with (S i + n)%nat by lia.
      destruct (maxFound <? Z.of_nat count) eqn:Hgt.
      * apply Z.ltb_lt in Hgt.
        apply IH; [by eexists|done| |lia]. right. exists i.
        split; [lia|]. split; [done|]. split; [done|].
        intros j Hj. destruct (decide (j = i)) as [->|]; [done|].
        destruct Hbest as [[-> _]|(b & Hb & _ & -> & Hmax)]; [lia|].
        assert (j < i)%nat as Hji by lia. specialize (Hmax j Hji).
        fold count. lia.
      * apply Z.ltb_ge in Hgt.
        apply IH; [by eexists|done| |lia]. right.
        destruct Hbest as [[_ ->]|(b & Hb & -> & -> & Hmax)]; [lia|].
        exists b. split; [lia|]. split; [done|]. split; [done|].
        intros j Hj. destruct (decide (j = i)) as [->|]; [fold count; lia|].
        apply Hmax. lia.
Qed.

(** An early exit at attempt [a] happens after the iteration it was
    entered at, and reads no random choice of a later iteration. *)
Lemma generateLoop_exit_after (draws : nat → Draw) :
  ∀ (n i : nat) (current : Game) (bestGrid : Grid) (maxFound : Z)
    (res : Game) (a w : nat),
  generateLoop commonWords draws n i current bestGrid maxFound
  = Done (res, Generated a w) →
  (i < a)%nat.
Proof.
  induction n as [|n IH]; intros i current bestGrid maxFound res a w; [done|].
  cbn [generateLoop].
  destruct (buildGridData (draws i) current) as [g1| |]; cbn [obind]; [|done..].
  destruct (solveGrid commonWords g1) as [ws| |]; cbn [obind]; [|done..].
  destruct (MIN_WORDS <=? length ws)%nat.
  - intros [= _ <- _]. lia.
  - destruct (maxFound <? Z.of_nat (length ws)); intros H%IH; lia.
Qed.

Lemma generateLoop_prefix (draws draws' : nat → Draw) :
  ∀ (n i : nat) (current : Game) (bestGrid : Grid) (maxFound : Z)
    (res : Game) (a w : nat),
  (∀ j, (j < a)%nat → draws' j = draws j) →
  generateLoop commonWords draws n i current bestGrid maxFound
  = Done (res, Generated a w) →
  generateLoop commonWords draws' n i current bestGrid maxFound
  = Done (res, Generated a w).
Proof.
  induction n as [|n IH]; intros i current bestGrid maxFound res a w Hsame Hrun;
    [done|].
  pose proof (generateLoop_exit_after _ _ _ _ _ _ _ _ _ Hrun) as Hlt.
  revert Hrun. cbn [generateLoop]. rewrite (Hsame i Hlt).
  destruct (buildGridData (draws i) current) as [g1| |]; cbn [obind]; [|done..].
  destruct (solveGrid commonWords g1) as [ws| |]; cbn [obind]; [|done..].
  destruct (MIN_WORDS <=? length ws)%nat; [done|].
  destruct (maxFound <? Z.of_nat (length ws)); by apply IH.
Qed.

(** C3. With the random choices of a shuffle and a die, [generateGrid]
    returns the game with the grid of one of its at most [MAX_ATTEMPTS]
    attempts, a grid of [gridSize] rows of [gridSize] cells each showing
    a face of a die. Either that attempt is the first to reach
    [MIN_WORDS] words, the loop returns there (the console reports its
    number, and the random choices of later attempts are not read); or
    none of the [MAX_ATTEMPTS] attempts reaches [MIN_WORDS] and the grid
    is one with the highest word count among them. *)
Theorem generateGrid_commits (draws : nat → Draw) (g : Game) :
  (∀ i, fair (draws i)) →
  ∃ k report,
    generateGrid commonWords draws g = Done (candidateAt draws g k, report)
    ∧ (k < MAX_ATTEMPTS)%nat
    ∧ populated (gridSize g) (grid (candidateAt draws g k))
    ∧ ((MIN_WORDS ≤ wordCount commonWords (candidateAt draws g k))%nat
       ∧ (∀ j, (j < k)%nat →
            (wordCount commonWords (candidateAt draws g j) < MIN_WORDS)%nat)
       ∧ report = Generated (k + 1) (wordCount commonWords (candidateAt draws g k))
       ∧ (∀ draws', (∀ j, (j ≤ k)%nat → draws' j = draws j) →
            generateGrid commonWords draws' g = generateGrid commonWords draws g)
       ∨ (∀ j, (j < MAX_ATTEMPTS)%nat →
            (wordCount commonWords (candidateAt draws g j) < MIN_WORDS)%nat)
         ∧ (∀ j, (j < MAX_ATTEMPTS)%nat →
              (wordCount commonWords (candidateAt draws g j)
               ≤ wordCount commonWords (candidateAt draws g k))%nat)
         ∧ report = BestEffort
                      (Z.of_nat (wordCount commonWords (candidateAt draws g k)))).
Proof.
  intros Hfair. unfold generateGrid.
  destruct (generateLoop_spec draws g Hfair MAX_ATTEMPTS 0 g [] (-1))
    as (k & report & Hrun & Hk & Hcases).
  { exists (grid g). by destruct g. }
  { intros j Hj. lia. }
  { by left. }
  { unfold MAX_ATTEMPTS. lia. }
  exists k, report. split; [done|]. split; [done|].
  split; [by destruct (candidateAt_spec draws g k (Hfair k)) as (? & _)|].
  destruct Hcases as [(Hmin & Hfirst & ->)|Hbest]; [left|by right].
  split; [done|]. split; [done|]. split; [done|].
  intros draws' Hsame. rewrite Hrun.
  eapply generateLoop_prefix; [|exact Hrun].
  intros j Hj. apply Hsame. lia.
Qed.

End Generator.

Lemma generateGrid_commits_witness :
  ∃ k report,
    generateGrid (locale := trLocale) (Some sampleWords)
      (λ i, mkDraw (λ pool, pool) (λ k, (i + k) `mod` 6)%nat) sampleGame
    = Done (candidateAt (locale := trLocale)
              (λ i, mkDraw (λ pool, pool) (λ k, (i + k) `mod` 6)%nat) sampleGame k,
            report)
    ∧ (k < MAX_ATTEMPTS)%nat
    ∧ populated (locale := trLocale) (gridSize sampleGame)
        (grid (candidateAt (locale := trLocale)
                 (λ i, mkDraw (λ pool, pool) (λ k, (i + k) `mod` 6)%nat) sampleGame k))
    ∧ ((MIN_WORDS ≤ wordCount (Some sampleWords)
                      (candidateAt (locale := trLocale)
                         (λ i, mkDraw (λ pool, pool) (λ k, (i + k) `mod` 6)%nat)
                         sampleGame k))%nat
       ∧ (∀ j, (j < k)%nat →
            (wordCount (Some sampleWords)
               (candidateAt (locale := trLocale)
                  (λ i, mkDraw (λ pool, pool) (λ k, (i + k) `mod` 6)%nat)
                  sampleGame j) < MIN_WORDS)%nat)
       ∧ report = Generated (k + 1)
                    (wordCount (Some sampleWords)
                       (candidateAt (locale := trLocale)
                          (λ i, mkDraw (λ pool, pool) (λ k, (i + k) `mod` 6)%nat)
                          sampleGame k))
       ∧ (∀ draws',
            (∀ j, (j ≤ k)%nat →
               draws' j = mkDraw (λ pool, pool) (λ k, (j + k) `mod` 6)%nat) →
            generateGrid (locale := trLocale) (Some sampleWords) draws' sampleGame
            = generateGrid (locale := trLocale) (Some sampleWords)
                (λ i, mkDraw (λ pool, pool) (λ k, (i + k) `mod` 6)%nat) sampleGame)
       ∨ (∀ j, (j < MAX_ATTEMPTS)%nat →
            (wordCount (Some sampleWords)
               (candidateAt (locale := trLocale)
                  (λ i, mkDraw (λ pool, pool) (λ k, (i + k) `mod` 6)%nat)
                  sampleGame j) < MIN_WORDS)%nat)
         ∧ (∀ j, (j < MAX_ATTEMPTS)%nat →
              (wordCount (Some sampleWords)
                 (candidateAt (locale := trLocale)
                    (λ i, mkDraw (λ pool, pool) (λ k, (i + k) `mod` 6)%nat)
                    sampleGame j)
               ≤ wordCount (Some sampleWords)
                   (candidateAt (locale := trLocale)
                      (λ i, mkDraw (λ pool, pool) (λ k, (i + k) `mod` 6)%nat)
                      sampleGame k))%nat)
         ∧ report = BestEffort
                      (Z.of_nat
                         (wordCount (Some sampleWords)
                            (candidateAt (locale := trLocale)
                               (λ i, mkDraw (λ pool, pool) (λ k, (i + k) `mod` 6)%nat)
                               sampleGame k)))).
Proof.
  apply (generateGrid_commits (locale := trLocale) (Some sampleWords)
           (λ i, mkDraw (λ pool, pool) (λ k, (i + k) `mod` 6)%nat) sampleGame).
  intros i. split.
  - intros pool. reflexivity.
  - intros k. cbn [faceIndex]. apply Nat.mod_upper_bound. lia.
Defined.

(** ** Scenarios of the specification *)

(** CAT submitted twice: the first submission scores one point, the
    second reports the word as already found and leaves the score. *)
Example submit_cat_twice :
  let selectCat (g : Game) :=
    run [Select (0, 0); Select (0, 1); Select (0, 2)] g in
  let g1 := submitWord (locale := trLocale) (Some sampleWords) false
              (selectCat sampleGame) in
  let g2 := submitWord (locale := trLocale) (Some sampleWords) false
              (selectCat g1) in
  (foundWords g1 = [[67; 65; 84]%N] ∧ score g1 = 1
   ∧ messageToast g1 = Some (Points 1))
  ∧ (foundWords g2 = [[67; 65; 84]%N] ∧ score g2 = 1
     ∧ messageToast g2 = Some AlreadyFound ∧ selectedCells g2 = []).
Proof. vm_compute. repeat split. Qed.

(** A drag from C over a cell that is not adjacent changes nothing, and
    the release leaves C selected. *)
Example release_keeps_ignored_drag :
  selectedCells
    (gesture (locale := trLocale) (Some sampleWords) (0, 0) [Some (2, 2)] sampleGame)
  = [(0, 0)].
Proof. vm_compute. reflexivity. Qed.

(** ** A round of events *)

Lemma trySelectCell_board (cellEl : Cell) (g : Game) :
  foundWords (trySelectCell cellEl g) = foundWords g
  ∧ score (trySelectCell cellEl g) = score g
  ∧ grid (trySelectCell cellEl g) = grid g
  ∧ gridSize (trySelectCell cellEl g) = gridSize g.
Proof.
  unfold trySelectCell, deselectLast, selectCell.
  repeat case_match; done.
Qed.

Section Round.
Context {locale : Locale}.
Variable commonWords : option (list jsstring).

(** What a submission does: nothing when the round is over; otherwise
    it clears the selection, keeps the grid and the flags, and either
    leaves the found words and the score or appends a new word of three
    letters or more that passes the dictionary check and adds its
    points. *)
Lemma submitWord_cases (isAuto : bool) (g : Game) :
  let g' := submitWord commonWords isAuto g in
  (isGameActive g = false ∧ g' = g)
  ∨ (isGameActive g = true
     ∧ selectedCells g' = [] ∧ currentWord g' = []
     ∧ grid g' = grid g ∧ gridSize g' = gridSize g
     ∧ isGameActive g' = true ∧ isDragging g' = isDragging g
     ∧ interactionMoved g' = interactionMoved g
     ∧ ((foundWords g' = foundWords g ∧ score g' = score g)
        ∨ ((3 ≤ length (candidate g))%nat
           ∧ (candidate g ∉ foundWords g)
           ∧ passesDictionary commonWords (candidate g)
           ∧ foundWords g' = foundWords g ++ [candidate g]
           ∧ score g' = score g + getScore (candidate g)))).
Proof.
  cbv zeta. unfold submitWord, candidate.
  destruct (isGameActive g) eqn:Hact; simpl; [right|by left].
  split; [done|].
  destruct (length (toLocaleUpperCase (currentWord g)) <? 3)%nat eqn:Hlen.
  { destruct isAuto; simpl; rewrite ?Hact; repeat split; try done; left; done. }
  destruct (bool_decide_reflect
              (toLocaleUpperCase (currentWord g) ∈ foundWords g)) as [Hin|Hnew].
  { simpl. rewrite Hact. repeat split; try done; left; done. }
  destruct (match commonWords with
            | Some words => negb (includes words (toLocaleUpperCase (currentWord g)))
            | None => false
            end) eqn:Hdict.
  { simpl. rewrite Hact. repeat split; try done; left; done. }
  simpl. rewrite Hact. repeat split. right.
  apply Nat.ltb_ge in Hlen. split; [done|]. split; [done|]. split.
  - unfold passesDictionary. destruct commonWords as [words|]; [|done].
    apply negb_false_iff in Hdict. by apply bool_decide_eq_true_1 in Hdict.
  - split; [by apply setAdd_new|done].
Qed.

(** What an event can do to the found words and the score. *)
Lemma handle_board (e : Event) (g : Game) :
  let g' := handle commonWords e g in
  grid g' = grid g ∧ gridSize g' = gridSize g ∧ isGameActive g' = isGameActive g
  ∧ ((foundWords g' = foundWords g ∧ score g' = score g)
     ∨ ∃ w, w = candidate g ∧ (3 ≤ length w)%nat ∧ (w ∉ foundWords g)
            ∧ passesDictionary commonWords w
            ∧ isGameActive g = true
            ∧ foundWords g' = foundWords g ++ [w]
            ∧ score g' = score g + getScore w).
Proof.
  cbv zeta.
  assert (Hsub : ∀ isAuto g0,
    grid (submitWord commonWords isAuto g0) = grid g0
    ∧ gridSize (submitWord commonWords isAuto g0) = gridSize g0
    ∧ isGameActive (submitWord commonWords isAuto g0) = isGameActive g0
    ∧ ((foundWords (submitWord commonWords isAuto g0) = foundWords g0
        ∧ score (submitWord commonWords isAuto g0) = score g0)
       ∨ ∃ w, w = candidate g0 ∧ (3 ≤ length w)%nat ∧ (w ∉ foundWords g0)
              ∧ passesDictionary commonWords w
              ∧ isGameActive g0 = true
              ∧ foundWords (submitWord commonWords isAuto g0) = foundWords g0 ++ [w]
              ∧ score (submitWord commonWords isAuto g0) = score g0 + getScore w)).
  { intros isAuto g0.
    destruct (submitWord_cases isAuto g0)
      as [[Hact ->]|(Hact & _ & _ & Hgr & Hsz & Hact' & _ & _ & Hboard)].
    - repeat split; try done; left; done.
    - split; [done|]. split; [done|]. split; [congruence|].
      destruct Hboard as [?|(? & ? & ? & ? & ?)]; [by left|].
      right. exists (candidate g0). done. }
  destruct e as [[cellEl|]|[cellEl|]| | |]; simpl.
  - unfold handleInputStart. destruct (isGameActive g) eqn:Hact; simpl;
      [|repeat split; try done; left; done].
    destruct (trySelectCell_board cellEl
                (set_interactionMoved (set_isDragging g true) false))
      as (-> & -> & -> & ->).
    destruct (trySelectCell_flags cellEl
                (set_interactionMoved (set_isDragging g true) false))
      as (-> & _ & _).
    repeat split; try done; left; done.
  - unfold handleInputStart.
    destruct (isGameActive g) eqn:Hact; simpl; repeat split; try done; left; done.
  - unfold handleInputMove.
    destruct (negb (isDragging g) || negb (isGameActive g));
      [repeat split; try done; left; done|].
    destruct (trySelectCell_board cellEl g) as (Hf & Hs & Hgr & Hsz).
    destruct (trySelectCell_flags cellEl g) as (Ha & _ & _).
    destruct (negb _); simpl; rewrite Hf, Hs, Hgr, Hsz, Ha; repeat split; try done; left; done.
  - unfold handleInputMove.
    destruct (negb (isDragging g) || negb (isGameActive g)); repeat split; try done; left; done.
  - unfold handleInputEnd. destruct (isDragging g); [|repeat split; try done; left; done].
    destruct (interactionMoved (set_isDragging g false)
              && (1 <=? length (selectedCells (set_isDragging g false)))%nat).
    + apply (Hsub true (set_isDragging g false)).
    + repeat split; try done; left; done.
  - apply Hsub.
  - repeat split; try done; left; done.
Qed.

Lemma totalScore_snoc (words : list jsstring) (w : jsstring) :
  totalScore (words ++ [w]) = totalScore words + getScore w.
Proof.
  unfold totalScore. induction words as [|x words IH]; simpl; [lia|].
  rewrite IH. lia.
Qed.

Lemma getScore_bounds (word : jsstring) : 1 ≤ getScore word ≤ 11.
Proof.
  rewrite getScore_length. generalize (length word) as n. intros n.
  destruct (8 <=? n)%nat; [lia|].
  do 8 (destruct n as [|n]; [lia|]). lia.
Qed.

Lemma totalScore_bounds (words : list jsstring) :
  Z.of_nat (length words) ≤ totalScore words ≤ 11 * Z.of_nat (length words).
Proof.
  unfold totalScore. induction words as [|w words IH]; simpl; [lia|].
  pose proof (getScore_bounds w). lia.
Qed.

Lemma handle_scoreboard (e : Event) (g : Game) :
  scoreboard commonWords g → scoreboard commonWords (handle commonWords e g).
Proof.
  intros (Hnd & Hscore & Hall).
  destruct (handle_board e g)
    as (_ & _ & _ & [[Hf Hs]|(w & _ & Hlen & Hnew & Hdict & _ & Hf & Hs)]);
    unfold scoreboard; rewrite Hf, Hs.
  - done.
  - split.
    { apply NoDup_app. split; [done|]. split; [|apply NoDup_singleton].
      by intros x Hx ->%list_elem_of_singleton. }
    split; [rewrite totalScore_snoc; lia|].
    apply Forall_app. split; [done|]. by apply Forall_singleton.
Qed.

Lemma play_scoreboard (events : list Event) (g : Game) :
  scoreboard commonWords g → scoreboard commonWords (play commonWords events g).
Proof.
  revert g. induction events as [|e events IH]; intros g Hg; [done|].
  simpl. by apply IH, handle_scoreboard.
Qed.

End Round.

Section RoundProperties.
Context {locale : Locale}.
Variable commonWords : option (list jsstring).

(** X1. From the start of a round, whatever the user does, the found
    words are distinct, each has three letters or more and passes the
    dictionary check, the score is the sum of their points, and so lies
    between their number and eleven times their number. *)
Theorem score_is_total (p : Page) (events : list Event) :
  let g := play commonWords events (game (initGame p)) in
  NoDup (foundWords g)
  ∧ score g = totalScore (foundWords g)
  ∧ Forall (λ w, (3 ≤ length w)%nat ∧ passesDictionary commonWords w) (foundWords g)
  ∧ Z.of_nat (length (foundWords g)) ≤ score g ≤ 11 * Z.of_nat (length (foundWords g)).
Proof.
  cbv zeta.
  destruct (play_scoreboard commonWords events (game (initGame p)))
    as (Hnd & Hscore & Hall).
  { split; [apply NoDup_nil_2|]. split; [done|]. apply Forall_nil_2. }
  split; [done|]. split; [done|]. split; [done|].
  rewrite Hscore. apply totalScore_bounds.
Qed.

(** X2. Pressing, moving and releasing the pointer and clicking the
    submit and the clear button never take a found word back or lower
    the score: whatever sequence of these five events comes, the found
    words before are a prefix of the found words after, and the score
    does not decrease. The restart button and the start of a round do
    reset them: after [resetMenu] and after [initGame] the found words
    are empty and the score is 0. *)
Theorem play_keeps_found_words (events : list Event) (g : Game) (p : Page) :
  (foundWords g `prefix_of` foundWords (play commonWords events g)
   ∧ score g ≤ score (play commonWords events g))
  ∧ (foundWords (game (resetMenu p)) = [] ∧ score (game (resetMenu p)) = 0)
  ∧ (foundWords (game (initGame p)) = [] ∧ score (game (initGame p)) = 0).
Proof.
  split; [|done].
  revert g. induction events as [|e events IH]; intros g; [done|].
  simpl. destruct (IH (handle commonWords e g)) as [Hpre Hle].
  destruct (handle_board commonWords e g)
    as (_ & _ & _ & [[Hf Hs]|(w & _ & _ & _ & _ & _ & Hf & Hs)]);
    rewrite Hf, Hs in *.
  - done.
  - split.
    + etrans; [|exact Hpre]. by apply prefix_app_r.
    + pose proof (getScore_bounds w). lia.
Qed.

Lemma handle_inactive (e : Event) (g : Game) :
  isGameActive g = false → e ≠ ClearClick →
  let g' := handle commonWords e g in
  isGameActive g' = false
  ∧ selectedCells g' = selectedCells g ∧ currentWord g' = currentWord g
  ∧ foundWords g' = foundWords g ∧ score g' = score g
  ∧ messageToast g' = messageToast g.
Proof.
  intros Hact Hne. cbv zeta. destruct e as [cell|cell| | |]; simpl.
  - unfold handleInputStart. by rewrite Hact.
  - unfold handleInputMove. rewrite Hact. simpl. by rewrite orb_true_r.
  - unfold handleInputEnd. destruct (isDragging g); [|done].
    destruct (_ && _); [|done].
    by rewrite submitWord_inactive.
  - by rewrite submitWord_inactive.
  - done.
Qed.

(** X3. While the round is not active, pressing, moving and releasing
    the pointer and clicking the submit button change neither the
    selected path, nor the current word, nor the found words, nor the
    score, nor the message. The clear button is not gated: it still
    empties the selected path and the current word, and leaves the found
    words and the score. *)
Theorem finished_round_is_frozen (events : list Event) (g : Game) :
  isGameActive g = false → Forall (λ e, e ≠ ClearClick) events →
  let g' := play commonWords events g in
  let cleared := handle commonWords ClearClick g in
  (isGameActive g' = false
   ∧ selectedCells g' = selectedCells g ∧ currentWord g' = currentWord g
   ∧ foundWords g' = foundWords g ∧ score g' = score g
   ∧ messageToast g' = messageToast g)
  ∧ (isGameActive cleared = false
     ∧ selectedCells cleared = [] ∧ currentWord cleared = []
     ∧ foundWords cleared = foundWords g ∧ score cleared = score g).
Proof.
  intros Hact Hall. cbv zeta. split; [|done].
  revert g Hact.
  induction Hall as [|e events He _ IH]; intros g Hact; [done|].
  simpl. destruct (handle_inactive e g Hact He) as (Ha & Hs & Hw & Hf & Hsc & Hm).
  destruct (IH _ Ha) as (? & ? & ? & ? & ? & ?).
  repeat split; congruence.
Qed.

End RoundProperties.

Lemma finished_round_is_frozen_witness :
  let g' := play (locale := trLocale) (Some sampleWords)
              [Press (Some (1, 1)); Move (Some (1, 2)); Release; SubmitClick]
              finishedGame in
  let cleared := handle (locale := trLocale) (Some sampleWords) ClearClick
                   finishedGame in
  (isGameActive g' = false
   ∧ selectedCells g' = selectedCells finishedGame
   ∧ currentWord g' = currentWord finishedGame
   ∧ foundWords g' = foundWords finishedGame ∧ score g' = score finishedGame
   ∧ messageToast g' = messageToast finishedGame)
  ∧ (isGameActive cleared = false
     ∧ selectedCells cleared = [] ∧ currentWord cleared = []
     ∧ foundWords cleared = foundWords finishedGame
     ∧ score cleared = score finishedGame).
Proof.
  apply (finished_round_is_frozen (locale := trLocale)).
  - reflexivity.
  - repeat constructor; discriminate.
Defined.

(** ** The path, the word and the solver *)

Lemma trySelectCell_synced (cellEl : Cell) (g : Game) :
  synced g → synced (trySelectCell cellEl g).
Proof.
  intros Hs.
  destruct (trySelectCell_cases cellEl g) as [[_ ->]|[(_ & _ & ->)|(_ & _ & ->)]];
    [|done..].
  unfold deselectLast. by destruct (last (selectedCells g)).
Qed.

Lemma trySelectCell_inBounds (n : nat) (cellEl : Cell) (g : Game) :
  inBounds n cellEl → Forall (inBounds n) (selectedCells g) →
  Forall (inBounds n) (selectedCells (trySelectCell cellEl g)).
Proof.
  intros Hc Hp.
  destruct (trySelectCell_cases cellEl g) as [[_ ->]|[(_ & _ & ->)|(_ & _ & ->)]].
  - unfold deselectLast. destruct (last (selectedCells g)); [|done].
    simpl. by apply Forall_take.
  - simpl. apply Forall_app. split; [done|]. by apply Forall_singleton.
  - done.
Qed.

Section PathAndWord.
Context {locale : Locale}.
Variable commonWords : option (list jsstring).

Lemma handle_pathInv (n : nat) (e : Event) (g : Game) :
  eventInBounds n e → pathInv n g → pathInv n (handle commonWords e g).
Proof.
  intros He (Hlegal & Hin & Hsync).
  assert (Hempty : ∀ g', selectedCells g' = [] → currentWord g' = [] → pathInv n g').
  { intros g' Hp Hw. unfold pathInv, legalPath, synced. rewrite Hp, Hw.
    repeat split; try done; first [apply NoDup_nil_2|apply Forall_nil_2]. }
  assert (Hsub : ∀ isAuto g0, pathInv n g0 →
                   pathInv n (submitWord commonWords isAuto g0)).
  { intros isAuto g0 Hg0.
    destruct (submitWord_cases commonWords isAuto g0)
      as [[_ ->]|(_ & Hp & Hw & _)]; [done|by apply Hempty]. }
  assert (Htry : ∀ cellEl g0, inBounds n cellEl → pathInv n g0 →
                   pathInv n (trySelectCell cellEl g0)).
  { intros cellEl g0 Hc (Hl0 & Hi0 & Hs0). split; [by apply trySelectCell_legal|].
    split; [by apply trySelectCell_inBounds|by apply trySelectCell_synced]. }
  destruct e as [[cellEl|]|[cellEl|]| | |]; simpl in *.
  - unfold handleInputStart. destruct (isGameActive g); simpl; [|done].
    by apply Htry.
  - unfold handleInputStart. by destruct (isGameActive g).
  - unfold handleInputMove.
    destruct (negb (isDragging g) || negb (isGameActive g)); [done|].
    destruct (negb _); [|by apply Htry].
    by apply (Htry cellEl g He).
  - unfold handleInputMove.
    by destruct (negb (isDragging g) || negb (isGameActive g)).
  - unfold handleInputEnd. destruct (isDragging g); [|done].
    destruct (_ && _); [|done]. by apply Hsub.
  - by apply Hsub.
  - by apply Hempty.
Qed.

Lemma play_pathInv (n : nat) (events : list Event) (g : Game) :
  Forall (eventInBounds n) events → pathInv n g →
  pathInv n (play commonWords events g).
Proof.
  intros Hall. revert g. induction Hall as [|e events He _ IH]; intros g Hg; [done|].
  simpl. by apply IH, handle_pathInv.
Qed.

Lemma handle_synced (e : Event) (g : Game) :
  synced g → synced (handle commonWords e g).
Proof.
  intros Hsync.
  assert (Hsub : ∀ isAuto g0, synced g0 → synced (submitWord commonWords isAuto g0)).
  { intros isAuto g0 Hg0.
    destruct (submitWord_cases commonWords isAuto g0)
      as [[_ ->]|(_ & Hp & Hw & _)]; [done|].
    unfold synced. by rewrite Hp, Hw. }
  destruct e as [[cellEl|]|[cellEl|]| | |]; simpl.
  - unfold handleInputStart. destruct (isGameActive g); simpl; [|done].
    by apply trySelectCell_synced.
  - unfold handleInputStart. by destruct (isGameActive g).
  - unfold handleInputMove.
    destruct (negb (isDragging g) || negb (isGameActive g)); [done|].
    destruct (negb _); by apply (trySelectCell_synced cellEl g).
  - unfold handleInputMove.
    by destruct (negb (isDragging g) || negb (isGameActive g)).
  - unfold handleInputEnd. destruct (isDragging g); [|done].
    destruct (_ && _); [|done]. by apply Hsub.
  - by apply Hsub.
  - done.
Qed.

(** X4. The text of the current word follows the path: if it spells the
    selected path before, it spells the selected path after any events,
    and it does so after a clear whatever came before. *)
Theorem word_follows_path (events events' : list Event) (g g0 : Game) :
  synced g →
  synced (play commonWords events g)
  ∧ synced (play commonWords events' (clearSelection g0)).
Proof.
  assert (Hplay : ∀ es g1, synced g1 → synced (play commonWords es g1)).
  { intros es. induction es as [|e es IH]; intros g1 Hg1; [done|].
    simpl. by apply IH, handle_synced. }
  intros Hg. split; by apply Hplay.
Qed.

End PathAndWord.

Lemma word_follows_path_witness :
  synced (play (locale := trLocale) (Some sampleWords)
            [Press (Some (2, 0)); Move (Some (2, 1)); Move (Some (2, 2));
             Move (Some (2, 1))] sampleGame)
  ∧ synced (play (locale := trLocale) (Some sampleWords)
              [Press (Some (3, 0)); Release] (clearSelection finishedGame)).
Proof.
  apply (word_follows_path (locale := trLocale)). reflexivity.
Defined.

(** The members of the result of [solveGrid], with any dictionary or
    none. *)
Lemma solveGrid_members (commonWords : option (list jsstring)) (g : Game)
    (result : list jsstring) :
  square (gridSize g) (grid g) →
  solveGrid commonWords g = Done result →
  NoDup result
  ∧ ∀ w, w ∈ result ↔
      (3 ≤ length w)%nat ∧ inDictionary commonWords w
      ∧ realizable (gridSize g) (grid g) w.
Proof.
  intros Hgrid Hsolve.
  destruct (solveGrid_collects commonWords g Hgrid) as (result' & Heq & Hnd & Hmem).
  rewrite Hsolve in Heq. injection Heq as <-. split; [done|].
  intros w. rewrite Hmem. split.
  - intros (r & Hr & c & Hc & p & Hp & Hw & Hlen & Hdict).
    split; [done|]. split; [done|].
    destruct Hp as (_ & ? & ? & ? & _). exists p. done.
  - intros (Hlen & Hdict & p & Hnd' & Hch & Hin & Hw).
    destruct p as [|[r c] p'].
    { subst w. simpl in Hlen. lia. }
    pose proof Hin as Hin'. apply Forall_cons in Hin' as [[Hr Hc] _].
    simpl in Hr, Hc.
    exists r. split; [apply elem_of_seqZ; lia|].
    exists c. split; [apply elem_of_seqZ; lia|].
    exists ((r, c) :: p'). split; [|done].
    split; [done|]. split; [done|]. split; [done|]. split; [done|].
    eapply Forall_impl; [exact Hin|]. intros cell. apply free_replicate.
Qed.

Lemma chained_app_join (q p : list Cell) (l c : Cell) :
  chained (q ++ c :: p) → last q = Some l → chebyshev l c = 1.
Proof.
  intros Hch Hl. apply last_Some in Hl as [q' ->].
  apply (chained_last_two q' l c).
  apply (chained_app_l _ p). by rewrite <- !app_assoc in *.
Qed.

Section RoundTrip.
Context {locale : Locale}.
Variable commonWords : option (list jsstring).

Lemma play_app (events events' : list Event) (g : Game) :
  play commonWords (events ++ events') g
  = play commonWords events' (play commonWords events g).
Proof. apply fold_left_app. Qed.

(** A tap on the next cell of a legal path appends it and submits
    nothing. *)
Lemma tap_appends (cellEl : Cell) (g : Game) :
  isGameActive g = true →
  legalPath (selectedCells g ++ [cellEl]) →
  let g' := play commonWords [Press (Some cellEl); Release] g in
  selectedCells g' = selectedCells g ++ [cellEl]
  ∧ synced g' ∧ isGameActive g' = true
  ∧ grid g' = grid g ∧ gridSize g' = gridSize g
  ∧ foundWords g' = foundWords g ∧ score g' = score g.
Proof.
  intros Hact [Hnd Hch]. cbv zeta. simpl.
  unfold handleInputStart. rewrite Hact. simpl.
  set (g1 := set_interactionMoved (set_isDragging g true) false).
  assert (trySelectCell cellEl g1 = selectCell cellEl g1) as Hsel.
  { apply NoDup_app in Hnd as (_ & Hnotin & _).
    assert (cellEl ∉ selectedCells g) as Hnew.
    { intros Hin. apply (Hnotin _ Hin), list_elem_of_here. }
    destruct (trySelectCell_cases cellEl g1)
      as [[Hpen _]|[(_ & _ & Heq)|(_ & (l & Hl & Hbad) & _)]]; [|done|]; exfalso.
    - apply penultimate_Some in Hpen as (q & l & Hq). apply Hnew.
      change (selectedCells g1) with (selectedCells g) in Hq. rewrite Hq.
      apply elem_of_app. right. apply list_elem_of_here.
    - change (selectedCells g1) with (selectedCells g) in Hl, Hbad.
      destruct Hbad as [Hfar|Hin]; [|done]. apply Hfar.
      rewrite chebyshev_sym. by apply (chained_app_join (selectedCells g) []). }
  rewrite Hsel. unfold handleInputEnd. simpl. rewrite Hact. done.
Qed.

Lemma taps_select (p : list Cell) :
  ∀ g, isGameActive g = true → (p = [] → synced g) →
  legalPath (selectedCells g ++ p) →
  let g' := play commonWords (taps p) g in
  selectedCells g' = selectedCells g ++ p
  ∧ synced g' ∧ isGameActive g' = true
  ∧ grid g' = grid g ∧ gridSize g' = gridSize g
  ∧ foundWords g' = foundWords g ∧ score g' = score g.
Proof.
  induction p as [|c p IH]; intros g Hact Hsync Hlegal; cbv zeta.
  - simpl. rewrite app_nil_r. repeat split; try done. by apply Hsync.
  - change (taps (c :: p)) with ([Press (Some c); Release] ++ taps p).
    rewrite play_app.
    destruct (tap_appends c g Hact) as (Hp & Hs & Ha & Hgr & Hsz & Hf & Hsc).
    { destruct Hlegal as [Hnd Hch].
      replace (selectedCells g ++ c :: p) with ((selectedCells g ++ [c]) ++ p)
        in Hnd, Hch by (by rewrite <- app_assoc).
      split; [by apply NoDup_app in Hnd as (? & _)|by eapply chained_app_l]. }
    destruct (IH (play commonWords [Press (Some c); Release] g))
      as (Hp' & Hs' & Ha' & Hgr' & Hsz' & Hf' & Hsc'); [done|done| |].
    { rewrite Hp. by rewrite <- app_assoc. }
    rewrite Hp', Hp, <- app_assoc. repeat split; try done; congruence.
Qed.

End RoundTrip.

Section SolverAndRound.
Context {locale : Locale}.

(** X5. A word of the solver can be played: on a square grid in an
    active round with nothing selected, if the word is in the result of
    [solveGrid], is not yet found and is its own upper case, then there
    is a path whose cells, tapped one after the other and followed by a
    click on the submit button, get the word appended to the found words
    and its points added to the score. *)
Theorem solver_word_round_trip (words result : list jsstring) (w : jsstring) (g : Game) :
  square (gridSize g) (grid g) → isGameActive g = true → selectedCells g = [] →
  solveGrid (Some words) g = Done result → w ∈ result →
  w ∉ foundWords g → toLocaleUpperCase w = w →
  ∃ p, let g' := play (Some words) (taps p ++ [SubmitClick]) g in
       foundWords g' = foundWords g ++ [w]
       ∧ score g' = score g + getScore w
       ∧ messageToast g' = Some (Points (getScore w))
       ∧ selectedCells g' = [].
Proof.
  intros Hgrid Hact Hempty Hsolve Hin Hnew Hupper.
  destruct (solveGrid_members (Some words) g result Hgrid Hsolve) as [_ Hmem].
  apply Hmem in Hin as (Hlen & Hdict & p & Hnd & Hch & Hbounds & Hw).
  exists p. cbv zeta.
  assert (p ≠ []) as Hne.
  { intros ->. subst w. simpl in Hlen. lia. }
  destruct (taps_select (Some words) p g Hact) as (Hp & Hs & Ha & Hgr & _ & Hf & Hsc).
  { done. }
  { by rewrite Hempty. }
  rewrite Hempty in Hp. simpl in Hp.
  unfold play in *. rewrite fold_left_app. simpl.
  set (g1 := fold_left (λ g0 e, handle (Some words) e g0) (taps p) g) in *.
  assert (candidate g1 = w) as Hcand.
  { unfold candidate. rewrite Hs, Hp, Hgr, Hw. done. }
  destruct (submitWord_valid (Some words) false g1) as [[Hf' Hs'] Hm];
    rewrite ?Hcand, ?Hf; try done.
  rewrite Hcand, Hf, Hsc in *. split; [done|]. split; [done|]. split; [done|].
  by apply submitWord_clears.
Qed.

(** X6. Every found word is a word of the solver: from a square grid
    with nothing selected and nothing found, after any events whose
    cells are cells of the grid, the found words are all in the result
    of [solveGrid], provided upper-casing leaves the words spelled on
    the grid as they are. *)
Theorem found_words_are_solvable (words result : list jsstring)
    (events : list Event) (g : Game) :
  square (gridSize g) (grid g) →
  selectedCells g = [] → currentWord g = [] → foundWords g = [] →
  Forall (eventInBounds (gridSize g)) events →
  (∀ w, realizable (gridSize g) (grid g) w → toLocaleUpperCase w = w) →
  solveGrid (Some words) g = Done result →
  Forall (λ w, w ∈ result) (foundWords (play (Some words) events g)).
Proof.
  intros Hgrid Hempty Hword Hfound Hall Hupper Hsolve.
  destruct (solveGrid_members (Some words) g result Hgrid Hsolve) as [_ Hmem].
  assert (Hinv : ∀ es,
    Forall (eventInBounds (gridSize g)) es → ∀ g1,
    grid g1 = grid g → gridSize g1 = gridSize g → pathInv (gridSize g) g1 →
    Forall (λ w, w ∈ result) (foundWords g1) →
    Forall (λ w, w ∈ result) (foundWords (play (Some words) es g1))).
  { intros es Hes. induction Hes as [|e es He _ IH]; intros g1 Hgr Hsz Hpath Hres;
      [done|].
    simpl. destruct (handle_board (Some words) e g1) as (Hgr' & Hsz' & _ & Hboard).
    apply IH; [congruence|congruence|by apply handle_pathInv|].
    destruct Hboard as [[-> _]|(w & Hw & Hlen & _ & Hdict & _ & -> & _)]; [done|].
    apply Forall_app. split; [done|]. apply Forall_singleton.
    destruct Hpath as ([Hnd Hch] & Hin & Hsync).
    assert (realizable (gridSize g) (grid g) (currentWord g1)) as Hreal.
    { exists (selectedCells g1). rewrite Hsync, Hgr. done. }
    apply Hmem. rewrite Hw. unfold candidate. rewrite (Hupper _ Hreal).
    split; [|split; [|done]].
    - rewrite Hw in Hlen. unfold candidate in Hlen. by rewrite (Hupper _ Hreal) in Hlen.
    - rewrite Hw in Hdict. unfold candidate in Hdict.
      by rewrite (Hupper _ Hreal) in Hdict. }
  apply Hinv; [done|done|done| |by rewrite Hfound].
  unfold pathInv, legalPath, synced. rewrite Hempty, Hword.
  repeat split; try done; first [apply NoDup_nil_2|apply Forall_nil_2].
Qed.

End SolverAndRound.

Lemma solver_word_round_trip_witness :
  ∃ p, let g' := play (locale := trLocale) (Some sampleWords)
                   (taps p ++ [SubmitClick]) sampleGame in
       foundWords g' = foundWords sampleGame ++ [[67; 65; 84]%N]
       ∧ score g' = score sampleGame + getScore [67; 65; 84]%N
       ∧ messageToast g' = Some (Points (getScore [67; 65; 84]%N))
       ∧ selectedCells g' = [].
Proof.
  apply (solver_word_round_trip (locale := trLocale) sampleWords
           [ [67; 65; 84]; [67; 65; 84; 83]; [68; 79; 71]; [68; 79; 71; 83];
             [78; 69; 87; 83] ]%N).
  - split; [reflexivity|]. repeat constructor.
  - reflexivity.
  - reflexivity.
  - vm_compute. reflexivity.
  - apply list_elem_of_here.
  - apply not_elem_of_nil.
  - reflexivity.
Defined.

(** Upper-casing leaves the words of the regression grid as they are. *)
Lemma sampleGrid_upper (w : jsstring) :
  realizable 4 sampleGrid w → toLocaleUpperCase (Locale := trLocale) w = w.
Proof.
  intros (p & _ & _ & Hin & <-). simpl.
  induction Hin as [|[r c] p [Hr Hc] _ IH]; [done|].
  rewrite letters_cons, map_app, IH. f_equal. simpl in Hr, Hc.
  assert (r = 0 ∨ r = 1 ∨ r = 2 ∨ r = 3) as Hrs by lia.
  assert (c = 0 ∨ c = 1 ∨ c = 2 ∨ c = 3) as Hcs by lia.
  destruct Hrs as [->|[->|[->| ->]]]; destruct Hcs as [->|[->|[->| ->]]];
    reflexivity.
Qed.

Lemma found_words_are_solvable_witness :
  Forall (λ w, w ∈ [ [67; 65; 84]; [67; 65; 84; 83]; [68; 79; 71];
                     [68; 79; 71; 83]; [78; 69; 87; 83] ]%N)
    (foundWords
       (play (locale := trLocale) (Some sampleWords)
          [Press (Some (2, 0)); Move (Some (2, 1)); Move (Some (2, 2)); Release;
           Press (Some (1, 1)); Release; SubmitClick]
          sampleGame)).
Proof.
  apply (found_words_are_solvable (locale := trLocale) sampleWords).
  - split; [reflexivity|]. repeat constructor.
  - reflexivity.
  - reflexivity.
  - reflexivity.
  - repeat constructor; simpl; lia.
  - apply sampleGrid_upper.
  - vm_compute. reflexivity.
Defined.

(** ** Edge of the solver *)

(** X7. Without a dictionary, or with an empty one, the solver finds no
    word on any square grid (while [submitWord] without a dictionary
    accepts every new word of three letters or more): the prefix check
    fails at every cell. *)
Theorem solveGrid_without_words (g : Game) :
  square (gridSize g) (grid g) →
  solveGrid None g = Done [] ∧ solveGrid (Some []) g = Done [].
Proof.
  intros Hgrid.
  assert (Hnone : ∀ commonWords, (∀ w, ¬ inDictionary commonWords w) →
                    solveGrid commonWords g = Done []).
  { intros commonWords Hno.
    destruct (solveGrid_collects commonWords g Hgrid) as (result & Heq & _).
    destruct (solveGrid_members commonWords g result Hgrid Heq) as [_ Hmem].
    destruct result as [|w result]; [done|].
    destruct (Hmem w) as [Hw _].
    destruct (Hw (list_elem_of_here _ _)) as (_ & Hdict & _).
    by destruct (Hno w). }
  split; apply Hnone; intros w; unfold inDictionary; [by intros []|apply not_elem_of_nil].
Qed.

Lemma solveGrid_without_words_witness :
  solveGrid None sampleGame = Done [] ∧ solveGrid (Some []) sampleGame = Done [].
Proof.
  apply (solveGrid_without_words sampleGame).
  split; [reflexivity|]. repeat constructor.
Defined.

(** ** High scores *)

Lemma insertDesc_Permutation {A : Type} (key : A → Z) (x : A) (l : list A) :
  insertDesc key x l ≡ₚ x :: l.
Proof.
  induction l as [|y l IH]; simpl; [done|].
  destruct (key y <? key x); [done|].
  rewrite IH. apply Permutation_swap.
Qed.

Lemma sortDesc_snoc {A : Type} (key : A → Z) (l : list A) (x : A) :
  sortDesc key (l ++ [x]) = insertDesc key x (sortDesc key l).
Proof. unfold sortDesc. by rewrite fold_left_app. Qed.

Lemma sortDesc_Permutation {A : Type} (key : A → Z) (l : list A) :
  sortDesc key l ≡ₚ l.
Proof.
  induction l as [|x l IH] using rev_ind; [done|].
  rewrite sortDesc_snoc, insertDesc_Permutation, IH.
  by rewrite Permutation_app_comm.
Qed.

Lemma sortedDesc_cons {A : Type} (key : A → Z) (x : A) (l : list A) :
  sortedDesc key (x :: l) ↔
  sortedDesc key l ∧ match l with y :: _ => key y ≤ key x | [] => True end.
Proof. destruct l; simpl; tauto. Qed.

Lemma insertDesc_sorted {A : Type} (key : A → Z) (x : A) (l : list A) :
  sortedDesc key l → sortedDesc key (insertDesc key x l).
Proof.
  induction l as [|y l IH]; [done|].
  intros Hs. cbn [insertDesc].
  destruct (Z.ltb_spec (key y) (key x)).
  - apply sortedDesc_cons. split; [done|lia].
  - apply sortedDesc_cons in Hs as [Hl Hhead].
    apply sortedDesc_cons. split; [by apply IH|].
    destruct l as [|z l]; simpl; [lia|].
    destruct (Z.ltb_spec (key z) (key x)); lia.
Qed.

Lemma sortDesc_sorted {A : Type} (key : A → Z) (l : list A) :
  sortedDesc key (sortDesc key l).
Proof.
  induction l as [|x l IH] using rev_ind; [done|].
  rewrite sortDesc_snoc. by apply insertDesc_sorted.
Qed.

(** In a list sorted by decreasing key every element is at least every
    later one. *)
Lemma sortedDesc_lookup {A : Type} (key : A → Z) (l : list A) (i j : nat) (x y : A) :
  sortedDesc key l → (i ≤ j)%nat → l !! i = Some x → l !! j = Some y →
  key y ≤ key x.
Proof.
  revert i j x y. induction l as [|z l IH]; intros i j x y Hs Hij Hi Hj; [done|].
  apply sortedDesc_cons in Hs as [Hl Hhead].
  assert (Hall : ∀ k w, l !! k = Some w → key w ≤ key z).
  { intros k w Hw. destruct l as [|u l]; [done|].
    pose proof (IH 0%nat k u w Hl ltac:(lia) eq_refl Hw). lia. }
  destruct i as [|i], j as [|j]; simpl in *.
  - injection Hi as <-. injection Hj as <-. lia.
  - injection Hi as <-. by eapply Hall.
  - lia.
  - eapply (IH i j); [done|lia|done|done].
Qed.

Lemma sortedDesc_take {A : Type} (key : A → Z) (l : list A) (n : nat) :
  sortedDesc key l → sortedDesc key (take n l).
Proof.
  revert n. induction l as [|x l IH]; intros [|n] Hs; simpl; try done.
  apply sortedDesc_cons in Hs as [Hl Hhead].
  apply sortedDesc_cons. split; [by apply IH|].
  destruct l as [|y l], n; simpl; done.
Qed.

Lemma sortedDesc_head {A : Type} (key : A → Z) (x : A) (l : list A) :
  sortedDesc key (x :: l) → Forall (λ e, key e ≤ key x) l.
Proof.
  intros Hs. apply Forall_lookup. intros i e He.
  by apply (sortedDesc_lookup key (x :: l) 0 (S i) x e Hs ltac:(lia)).
Qed.

Lemma filter_all {A : Type} (P : A → Prop) `{∀ x, Decision (P x)} (l : list A) :
  Forall P l → filter P l = l.
Proof.
  induction 1 as [|x l Hx _ IH]; [done|].
  by rewrite filter_cons_True, IH.
Qed.

Lemma filter_none {A : Type} (P : A → Prop) `{∀ x, Decision (P x)} (l : list A) :
  Forall (λ x, ¬ P x) l → filter P l = [].
Proof.
  induction 1 as [|x l Hx _ IH]; [done|].
  by rewrite filter_cons_False.
Qed.

(** A list sorted by decreasing key is its elements of key at least [k]
    followed by its elements of key below [k]. *)
Lemma sortedDesc_split {A : Type} (key : A → Z) (k : Z) (l : list A) :
  sortedDesc key l →
  l = filter (λ e, k ≤ key e) l ++ filter (λ e, key e < k) l.
Proof.
  induction l as [|y l IH]; intros Hs; [done|].
  pose proof (sortedDesc_head key y l Hs) as Hmax.
  apply sortedDesc_cons in Hs as [Hl _].
  destruct (decide (k ≤ key y)) as [Hy|Hy].
  - rewrite filter_cons_True, (filter_cons_False (λ e, key e < k)) by lia.
    simpl. f_equal. by apply IH.
  - rewrite filter_cons_False, filter_cons_True by lia.
    rewrite filter_none, filter_all; [done| |].
    + eapply Forall_impl; [exact Hmax|]. simpl. lia.
    + eapply Forall_impl; [exact Hmax|]. simpl. lia.
Qed.

Lemma insertDesc_split {A : Type} (key : A → Z) (x : A) (l : list A) :
  sortedDesc key l →
  insertDesc key x l
  = filter (λ e, key x ≤ key e) l ++ x :: filter (λ e, key e < key x) l.
Proof.
  induction l as [|y l IH]; intros Hs; [done|].
  pose proof (sortedDesc_head key y l Hs) as Hmax.
  apply sortedDesc_cons in Hs as [Hl _]. cbn [insertDesc].
  destruct (Z.ltb_spec (key y) (key x)).
  - rewrite filter_cons_False, filter_cons_True by lia.
    rewrite filter_none, filter_all; [done| |].
    + eapply Forall_impl; [exact Hmax|]. simpl. lia.
    + eapply Forall_impl; [exact Hmax|]. simpl. lia.
  - rewrite filter_cons_True, (filter_cons_False (λ e, key e < key x)) by lia.
    simpl. f_equal. by apply IH.
Qed.

Lemma sortDesc_id {A : Type} (key : A → Z) (l : list A) :
  sortedDesc key l → sortDesc key l = l.
Proof.
  induction l as [|x l IH] using rev_ind; intros Hs; [done|].
  assert (sortedDesc key l) as Hl.
  { clear IH. induction l as [|y [|z l] IHl]; simpl in *; try done.
    destruct Hs as [? Hs]. split; [done|]. by apply IHl. }
  rewrite sortDesc_snoc, (IH Hl), (insertDesc_split key x l Hl).
  assert (Forall (λ e, key x ≤ key e) l) as Hge.
  { apply Forall_lookup. intros i e He.
    apply (sortedDesc_lookup key (l ++ [x]) i (length l) e x Hs).
    - apply lookup_lt_Some in He. lia.
    - by rewrite lookup_app_l by (by eapply lookup_lt_Some).
    - by rewrite list_lookup_middle. }
  rewrite filter_all by done. rewrite filter_none; [done|].
  eapply Forall_impl; [exact Hge|]. simpl. lia.
Qed.

(** X8. [saveScore] does not enter a score of 0. Any other score leaves
    a board sorted by decreasing score with at most ten entries, made of
    the old entries and the new one, where no entry left out has a higher
    score than an entry kept; the rest of the page is untouched. *)
Theorem saveScore_board (dateStr : jsstring) (now sc : Z) (p : Page) :
  let p' := saveScore dateStr now sc p in
  (sc = 0 → p' = p)
  ∧ (sc ≠ 0 →
     sortedDesc entryScore (highScores p')
     ∧ (length (highScores p') ≤ 10)%nat
     ∧ (length (highScores p') = 10 `min` (length (highScores p) + 1))%nat
     ∧ (∃ dropped,
          highScores p' ++ dropped ≡ₚ highScores p ++ [mkEntry sc dateStr now]
          ∧ ∀ kept out, kept ∈ highScores p' → out ∈ dropped →
              entryScore out ≤ entryScore kept)
     ∧ game p' = game p ∧ timer p' = timer p ∧ ticking p' = ticking p).
Proof.
  cbv zeta. unfold saveScore. split.
  - intros ->. done.
  - intros Hsc. replace (sc =? 0) with false by (symmetry; by apply Z.eqb_neq).
    simpl.
    set (all := highScores p ++ [mkEntry sc dateStr now]).
    pose proof (sortDesc_sorted entryScore all) as Hsorted.
    pose proof (sortDesc_Permutation entryScore all) as Hperm.
    split; [by apply sortedDesc_take|].
    split; [rewrite length_take; lia|].
    split.
    { rewrite length_take, (Permutation_length Hperm). unfold all.
      rewrite length_app. simpl. lia. }
    split; [|done].
    exists (drop 10 (sortDesc entryScore all)).
    rewrite take_drop. split; [done|].
    intros kept out [i Hi]%list_elem_of_lookup [j Hj]%list_elem_of_lookup.
    apply lookup_take_Some in Hi as [Hi Hlt]. rewrite lookup_drop in Hj.
    apply (sortedDesc_lookup entryScore _ i (10 + j) kept out Hsorted); [lia|done..].
Qed.

Lemma saveScore_board_witness :
  let p := mkPage finishedGame 45 0 false 0
             [mkEntry 7 [] 10; mkEntry 3 [] 20] None [] [] in
  let p' := saveScore [] 30 5 p in
  (5 = 0 → p' = p)
  ∧ (5 ≠ 0 →
     sortedDesc entryScore (highScores p')
     ∧ (length (highScores p') ≤ 10)%nat
     ∧ (length (highScores p') = 10 `min` (length (highScores p) + 1))%nat
     ∧ (∃ dropped,
          highScores p' ++ dropped ≡ₚ highScores p ++ [mkEntry 5 [] 30]
          ∧ ∀ kept out, kept ∈ highScores p' → out ∈ dropped →
              entryScore out ≤ entryScore kept)
     ∧ game p' = game p ∧ timer p' = timer p ∧ ticking p' = ticking p).
Proof.
  apply (saveScore_board [] 30 5).
Defined.

(** X9. A score other than 0 enters the board when fewer than
    ten old entries have a score at least as high; otherwise the board
    is the ten best old entries, and a full sorted board stays as it
    is: a tie with the last entry does not replace it. *)
Theorem saveScore_entry (dateStr : jsstring) (now sc : Z) (p : Page) :
  sc ≠ 0 →
  let p' := saveScore dateStr now sc p in
  let better := filter (λ e, sc ≤ entryScore e) (highScores p) in
  ((length better < 10)%nat →
     highScores p' !! length better = Some (mkEntry sc dateStr now))
  ∧ ((10 ≤ length better)%nat →
     highScores p' = take 10 (sortDesc entryScore (highScores p))
     ∧ (sortedDesc entryScore (highScores p) →
        (length (highScores p) ≤ 10)%nat → highScores p' = highScores p)).
Proof.
  intros Hsc. cbv zeta. unfold saveScore.
  replace (sc =? 0) with false by (symmetry; by apply Z.eqb_neq). simpl.
  set (old := highScores p). set (new := mkEntry sc dateStr now).
  pose proof (sortDesc_sorted entryScore old) as Hsorted.
  pose proof (sortDesc_Permutation entryScore old) as Hperm.
  rewrite sortDesc_snoc, (insertDesc_split entryScore new _ Hsorted).
  change (entryScore new) with sc.
  assert (length (filter (λ e, sc ≤ entryScore e) (sortDesc entryScore old))
          = length (filter (λ e, sc ≤ entryScore e) old)) as Hlen.
  { apply Permutation_length. by rewrite Hperm. }
  split.
  - intros Hlt. rewrite lookup_take_lt by done.
    rewrite <- Hlen. by rewrite list_lookup_middle.
  - intros Hge.
    assert (take 10 (filter (λ e, sc ≤ entryScore e) (sortDesc entryScore old)
                     ++ new :: filter (λ e, entryScore e < sc) (sortDesc entryScore old))
            = take 10 (sortDesc entryScore old)) as Htake.
    { rewrite (sortedDesc_split entryScore sc (sortDesc entryScore old) Hsorted) at 3.
      rewrite !take_app_le by lia. done. }
    split; [done|].
    intros Hold Hten. rewrite Htake, (sortDesc_id entryScore old Hold).
    by apply take_ge.
Qed.

Lemma saveScore_entry_witness :
  let p := mkPage finishedGame 45 0 false 0
             [mkEntry 7 [] 10; mkEntry 3 [] 20] None [] [] in
  let p' := saveScore [] 30 3 p in
  let better := filter (λ e, 3 ≤ entryScore e) (highScores p) in
  ((length better < 10)%nat →
     highScores p' !! length better = Some (mkEntry 3 [] 30))
  ∧ ((10 ≤ length better)%nat →
     highScores p' = take 10 (sortDesc entryScore (highScores p))
     ∧ (sortedDesc entryScore (highScores p) →
        (length (highScores p) ≤ 10)%nat → highScores p' = highScores p)).
Proof.
  apply (saveScore_entry [] 30 3). lia.
Defined.

(** ** End of the round *)

Lemma forEach_ext {S A : Type} (xs : list A) (body body' : A → S → outcome S) :
  (∀ x s, body x s = body' x s) →
  ∀ s, forEach xs body s = forEach xs body' s.
Proof.
  intros Hbody. induction xs as [|x xs IH]; intros s; simpl; [done|].
  rewrite Hbody. destruct (body' x s); simpl; [apply IH|done..].
Qed.

(** The search reads the size and the grid of the game, nothing else. *)
Lemma recursivelyFind_ext (commonWords : option (list jsstring)) (g1 g2 : Game) :
  gridSize g1 = gridSize g2 → grid g1 = grid g2 →
  ∀ (fuel : nat) (r c : Z) (currentPrefix : jsstring) (st : SearchState),
  recursivelyFind commonWords g1 fuel r c currentPrefix st
  = recursivelyFind commonWords g2 fuel r c currentPrefix st.
Proof.
  intros Hsize Hgrid.
  induction fuel as [|fuel IH]; intros r c currentPrefix st;
    rewrite (recursivelyFind_eq commonWords g1 _ r c currentPrefix st);
    rewrite (recursivelyFind_eq commonWords g2 _ r c currentPrefix st);
    cbv zeta; rewrite Hsize, Hgrid; [done|].
  destruct (_ || _); [done|].
  destruct (orFault (visitedAt _ _ _)) as [[|]| |]; cbn [obind]; try done.
  destruct (orFault (gridAt _ _ _)) as [char| |]; cbn [obind]; try done.
  destruct (negb _); [done|].
  destruct (orFault (setVisited _ _ _ true)) as [visited1| |]; cbn [obind]; try done.
  erewrite forEach_ext; [done|].
  intros dr s. apply forEach_ext. intros dc s'. cbv beta.
  destruct ((dr =? 0) && (dc =? 0)); [done|]. apply IH.
Qed.

Lemma solveGrid_ext (commonWords : option (list jsstring)) (g1 g2 : Game) :
  gridSize g1 = gridSize g2 → grid g1 = grid g2 →
  solveGrid commonWords g1 = solveGrid commonWords g2.
Proof.
  intros Hsize Hgrid. unfold solveGrid. cbv zeta. rewrite Hsize.
  erewrite forEach_ext; [done|].
  intros r s. apply forEach_ext. intros c s'. cbv beta.
  by apply recursivelyFind_ext.
Qed.

Section EndOfRound.
Context {locale : Locale}.
Variable commonWords : option (list jsstring).

Lemma saveScore_keeps (dateStr : jsstring) (now sc : Z) (p : Page) :
  game (saveScore dateStr now sc p) = game p
  ∧ timer (saveScore dateStr now sc p) = timer p
  ∧ ticking (saveScore dateStr now sc p) = ticking p
  ∧ finalScore (saveScore dateStr now sc p) = finalScore p.
Proof. unfold saveScore. by destruct (sc =? 0). Qed.

(** What [endGame] leaves on a square grid. *)
Lemma endGame_Done (dateStr : jsstring) (now : Z) (p : Page) :
  square (gridSize (game p)) (grid (game p)) →
  ∃ allPossibleWords,
    solveGrid commonWords (game p) = Done allPossibleWords
    ∧ endGame commonWords dateStr now p
      = Done (set_missed
                (saveScore dateStr now (score (game p))
                   (set_finalScore
                      (set_game (set_ticking p false)
                         (set_isGameActive (game p) false))
                      (score (game p))))
                (sortDesc (λ w : jsstring, Z.of_nat (length w))
                   (filter (λ word, word ∉ foundWords (game p)) allPossibleWords))
                (take 50
                   (sortDesc (λ w : jsstring, Z.of_nat (length w))
                      (filter (λ word, word ∉ foundWords (game p))
                         allPossibleWords)))).
Proof.
  intros Hgrid.
  destruct (solveGrid_collects commonWords (game p) Hgrid) as (result & Heq & _).
  exists result. split; [done|]. unfold endGame. cbv zeta.
  destruct (saveScore_keeps dateStr now
              (score (game (set_finalScore
                              (set_game (set_ticking p false)
                                 (set_isGameActive (game (set_ticking p false)) false))
                              (score (game (set_game (set_ticking p false)
                                 (set_isGameActive (game (set_ticking p false)) false)))))))
              (set_finalScore
                 (set_game (set_ticking p false)
                    (set_isGameActive (game (set_ticking p false)) false))
                 (score (game (set_game (set_ticking p false)
                    (set_isGameActive (game (set_ticking p false)) false))))))
    as (Hgame & _).
  rewrite Hgame. cbn [game set_finalScore set_game set_ticking].
  rewrite (solveGrid_ext commonWords _ (game p)) by done.
  rewrite Heq. done.
Qed.

(** X10. On a square grid [endGame] returns: the round is over and the
    interval started last is stopped, the final score is shown and
    handed to [saveScore], the found words, the score and the selection
    stay; the missed words are the words of the solver that are not
    found, each once, longest first, and the
    first fifty of them are listed. When every found word is a word of
    the solver, missed and found words together are as many as the
    words of the solver. *)
Theorem endGame_missed_words (dateStr : jsstring) (now : Z) (p : Page) :
  square (gridSize (game p)) (grid (game p)) →
  ∃ p' allPossibleWords,
    endGame commonWords dateStr now p = Done p'
    ∧ solveGrid commonWords (game p) = Done allPossibleWords
    ∧ isGameActive (game p') = false ∧ ticking p' = false
    ∧ finalScore p' = Some (score (game p))
    ∧ highScores p' = highScores (saveScore dateStr now (score (game p)) p)
    ∧ foundWords (game p') = foundWords (game p)
    ∧ score (game p') = score (game p)
    ∧ selectedCells (game p') = selectedCells (game p)
    ∧ currentWord (game p') = currentWord (game p)
    ∧ (∀ w, w ∈ missedWords p' ↔ w ∈ allPossibleWords ∧ w ∉ foundWords (game p))
    ∧ NoDup (missedWords p')
    ∧ sortedDesc (λ w : jsstring, Z.of_nat (length w)) (missedWords p')
    ∧ shownWords p' = take 50 (missedWords p')
    ∧ (NoDup (foundWords (game p)) →
       Forall (λ w, w ∈ allPossibleWords) (foundWords (game p)) →
       (length (missedWords p') + length (foundWords (game p))
        = length allPossibleWords)%nat).
Proof.
  intros Hgrid.
  destruct (endGame_Done dateStr now p Hgrid) as (result & Hsolve & Hend).
  destruct (solveGrid_members commonWords (game p) result Hgrid Hsolve) as [Hnd _].
  eexists _, result. split; [exact Hend|]. split; [done|].
  set (missed := filter (λ word, word ∉ foundWords (game p)) result).
  pose proof (sortDesc_Permutation (λ w : jsstring, Z.of_nat (length w)) missed)
    as Hperm.
  cbn [missedWords shownWords set_missed game ticking finalScore highScores].
  destruct (saveScore_keeps dateStr now (score (game p))
              (set_finalScore
                 (set_game (set_ticking p false) (set_isGameActive (game p) false))
                 (score (game p)))) as (-> & _ & -> & ->).
  split; [done|]. split; [done|]. split; [done|].
  split.
  { unfold saveScore. by destruct (score (game p) =? 0). }
  split; [done|]. split; [done|]. split; [done|]. split; [done|].
  split.
  { intros w. rewrite Hperm. unfold missed. rewrite list_elem_of_filter. tauto. }
  split.
  { rewrite Hperm. by apply NoDup_filter. }
  split; [apply sortDesc_sorted|]. split; [done|].
  intros Hfnd Hsub. rewrite (Permutation_length Hperm).
  rewrite <- (Permutation_length
                (filter_app_complement (λ word, word ∉ foundWords (game p)) result)).
  rewrite length_app. fold missed. f_equal.
  apply Permutation_length, NoDup_Permutation; [done|by apply NoDup_filter|].
  intros w. rewrite list_elem_of_filter. rewrite Forall_forall in Hsub.
  split.
  - intros Hw. split; [|by apply Hsub]. by intros Hnot.
  - intros [Hnn _]. by destruct (decide (w ∈ foundWords (game p))).
Qed.

Lemma ticks_add (m n : nat) (dateStr : jsstring) (now : Z) (p : Page) :
  ticks commonWords (m + n) dateStr now p
  = p' ← ticks commonWords m dateStr now p ;;; ticks commonWords n dateStr now p'.
Proof.
  revert p. induction m as [|m IH]; intros p; simpl; [done|].
  destruct (tick commonWords dateStr now p); simpl; [apply IH|done..].
Qed.

Lemma ticks_stopped (n : nat) (dateStr : jsstring) (now : Z) (p : Page) :
  ticking p = false → ticks commonWords n dateStr now p = Done p.
Proof.
  intros Hstop. induction n as [|n IH]; simpl; [done|].
  unfold tick. rewrite Hstop. simpl. apply IH.
Qed.

Lemma ticks_running (k : nat) (dateStr : jsstring) (now : Z) (p : Page) :
  ticking p = true → Z.of_nat k < timer p →
  ticks commonWords k dateStr now p = Done (set_timer p (timer p - Z.of_nat k)).
Proof.
  revert p. induction k as [|k IH]; intros p Hrun Hlt; simpl.
  - rewrite Z.sub_0_r. by destruct p.
  - unfold tick. rewrite Hrun. cbn [timer set_timer].
    replace (timer p - 1 <=? 0) with false by (symmetry; apply Z.leb_gt; lia).
    simpl. rewrite IH; cbn [timer set_timer ticking]; [|done|lia].
    unfold set_timer. simpl. do 2 f_equal. lia.
Qed.

(** X11. A round lasts as many ticks as the timer shows: while fewer
    ticks of the interval started last have come the page only counts
    down; the tick that brings the timer to 0 is [endGame]; after it
    ticks of that interval change nothing. *)
Theorem round_lasts_timer_ticks (dateStr : jsstring) (now : Z) (p : Page) (t : nat) :
  square (gridSize (game p)) (grid (game p)) →
  ticking p = true → timer p = Z.of_nat t → (0 < t)%nat →
  (∀ k, (k < t)%nat →
     ticks commonWords k dateStr now p = Done (set_timer p (Z.of_nat (t - k))))
  ∧ ticks commonWords t dateStr now p
    = endGame commonWords dateStr now (set_timer p 0)
  ∧ ∃ p', ticks commonWords t dateStr now p = Done p'
          ∧ isGameActive (game p') = false ∧ ticking p' = false ∧ timer p' = 0
          ∧ ∀ k, (t ≤ k)%nat → ticks commonWords k dateStr now p = Done p'.
Proof.
  intros Hgrid Hrun Htimer Hpos.
  assert (Hlast : ticks commonWords t dateStr now p
                  = endGame commonWords dateStr now (set_timer p 0)).
  { replace t with ((t - 1) + 1)%nat at 1 by lia.
    rewrite ticks_add, ticks_running by (done || lia). cbn [obind ticks].
    unfold tick. cbn [ticking timer set_timer]. rewrite Hrun, Htimer.
    replace (Z.of_nat t - Z.of_nat (t - 1) - 1) with 0 by lia.
    change (0 <=? 0) with true. cbv iota.
    change (set_timer (set_timer p (Z.of_nat t - Z.of_nat (t - 1))) 0)
      with (set_timer p 0).
    by destruct (endGame commonWords dateStr now (set_timer p 0)). }
  split; [|split; [done|]].
  - intros k Hk. rewrite ticks_running by (done || lia).
    do 2 f_equal. lia.
  - destruct (endGame_Done dateStr now (set_timer p 0) Hgrid) as (r & _ & Hend).
    eexists. rewrite Hlast. split; [exact Hend|].
    cbn [timer ticking game set_missed].
    destruct (saveScore_keeps dateStr now (score (game (set_timer p 0)))
                (set_finalScore
                   (set_game (set_ticking (set_timer p 0) false)
                      (set_isGameActive (game (set_timer p 0)) false))
                   (score (game (set_timer p 0))))) as (Hg & Ht & Hk & _).
    rewrite Hg, Ht, Hk. split; [done|]. split; [done|]. split; [done|].
    intros k Hle. replace k with (t + (k - t))%nat by lia.
    rewrite ticks_add, Hlast, Hend. cbn [obind]. apply ticks_stopped.
    cbn [ticking set_missed]. by rewrite Hk.
Qed.

Lemma saveScore_strayIntervals (dateStr : jsstring) (now sc : Z) (p : Page) :
  strayIntervals (saveScore dateStr now sc p) = strayIntervals p.
Proof. unfold saveScore. by destruct (sc =? 0). Qed.

Lemma saveScore_highScores (dateStr : jsstring) (now sc : Z) (p q : Page) :
  highScores p = highScores q →
  highScores (saveScore dateStr now sc p) = highScores (saveScore dateStr now sc q).
Proof.
  intros Heq. unfold saveScore. destruct (sc =? 0); [done|].
  cbn [highScores set_highScores]. by rewrite Heq.
Qed.

(** X18. [endGame] stops the interval started last and no other. An
    interval left running by a second [startTimer] fires on after the
    round: with the timer at 1 or less its callback counts the timer
    down and runs [endGame] again, which hands the score to [saveScore]
    a second time. *)
Theorem stray_interval_outlives_round (dateStr dateStr' : jsstring) (now now' : Z)
    (p : Page) :
  square (gridSize (game p)) (grid (game p)) →
  (0 < strayIntervals p)%nat → timer p ≤ 1 →
  ∃ p1 p2,
    endGame commonWords dateStr now p = Done p1
    ∧ ticking p1 = false ∧ strayIntervals p1 = strayIntervals p
    ∧ strayTick commonWords dateStr' now' p1 = Done p2
    ∧ timer p2 = timer p - 1
    ∧ isGameActive (game p2) = false
    ∧ strayIntervals p2 = strayIntervals p
    ∧ highScores p2 = highScores (saveScore dateStr' now' (score (game p)) p1).
Proof.
  intros Hgrid Hstray Htimer.
  destruct (endGame_Done dateStr now p Hgrid) as (r & _ & Hend).
  set (q := set_finalScore
              (set_game (set_ticking p false) (set_isGameActive (game p) false))
              (score (game p))) in Hend.
  set (p1 := set_missed (saveScore dateStr now (score (game p)) q)
               (sortDesc (λ w : jsstring, Z.of_nat (length w))
                  (filter (λ word, word ∉ foundWords (game p)) r))
               (take 50
                  (sortDesc (λ w : jsstring, Z.of_nat (length w))
                     (filter (λ word, word ∉ foundWords (game p)) r)))) in Hend.
  destruct (saveScore_keeps dateStr now (score (game p)) q) as (Hg & Ht & Hk & _).
  pose proof (saveScore_strayIntervals dateStr now (score (game p)) q) as Hs.
  assert (Hg1 : game p1 = set_isGameActive (game p) false)
    by (unfold p1; cbn [game set_missed]; by rewrite Hg).
  assert (Ht1 : timer p1 = timer p)
    by (unfold p1; cbn [timer set_missed]; by rewrite Ht).
  assert (Hk1 : ticking p1 = false)
    by (unfold p1; cbn [ticking set_missed]; by rewrite Hk).
  assert (Hs1 : strayIntervals p1 = strayIntervals p)
    by (unfold p1; cbn [strayIntervals set_missed]; by rewrite Hs).
  set (p1' := set_timer p1 (timer p1 - 1)).
  assert (Hgrid' : square (gridSize (game p1')) (grid (game p1'))).
  { change (game p1') with (game p1). by rewrite Hg1. }
  destruct (endGame_Done dateStr' now' p1' Hgrid') as (r' & _ & Hend').
  exists p1. eexists. split; [exact Hend|]. split; [done|]. split; [done|].
  split.
  { unfold strayTick. rewrite Hs1.
    replace (0 <? strayIntervals p)%nat with true
      by (symmetry; apply Nat.ltb_lt; lia).
    cbv zeta. fold p1'.
    replace (timer p1' <=? 0) with true; [exact Hend'|].
    symmetry. apply Z.leb_le. change (timer p1') with (timer p1 - 1). lia. }
  cbn [timer game strayIntervals highScores set_missed].
  destruct (saveScore_keeps dateStr' now' (score (game p1'))
              (set_finalScore
                 (set_game (set_ticking p1' false)
                    (set_isGameActive (game p1') false))
                 (score (game p1')))) as (Hg' & Ht' & _ & _).
  rewrite Hg', Ht', saveScore_strayIntervals.
  cbn [timer game strayIntervals set_finalScore set_game set_ticking set_timer
       isGameActive set_isGameActive].
  change (timer p1' ) with (timer p1 - 1).
  change (strayIntervals p1') with (strayIntervals p1).
  change (game p1') with (game p1).
  rewrite Ht1, Hs1, Hg1. cbn [score set_isGameActive].
  split; [done|]. split; [done|]. split; [done|].
  by apply saveScore_highScores.
Qed.

End EndOfRound.

Lemma endGame_missed_words_witness :
  ∃ p' allPossibleWords,
    endGame (Some sampleWords) [] 0 samplePage = Done p'
    ∧ solveGrid (Some sampleWords) (game samplePage) = Done allPossibleWords
    ∧ isGameActive (game p') = false ∧ ticking p' = false
    ∧ finalScore p' = Some (score (game samplePage))
    ∧ highScores p' = highScores (saveScore [] 0 (score (game samplePage)) samplePage)
    ∧ foundWords (game p') = foundWords (game samplePage)
    ∧ score (game p') = score (game samplePage)
    ∧ selectedCells (game p') = selectedCells (game samplePage)
    ∧ currentWord (game p') = currentWord (game samplePage)
    ∧ (∀ w, w ∈ missedWords p' ↔
         w ∈ allPossibleWords ∧ w ∉ foundWords (game samplePage))
    ∧ NoDup (missedWords p')
    ∧ sortedDesc (λ w : jsstring, Z.of_nat (length w)) (missedWords p')
    ∧ shownWords p' = take 50 (missedWords p')
    ∧ (NoDup (foundWords (game samplePage)) →
       Forall (λ w, w ∈ allPossibleWords) (foundWords (game samplePage)) →
       (length (missedWords p') + length (foundWords (game samplePage))
        = length allPossibleWords)%nat).
Proof.
  apply (endGame_missed_words (Some sampleWords) [] 0 samplePage).
  split; [reflexivity|]. repeat constructor.
Defined.

Lemma stray_interval_outlives_round_witness :
  ∃ p1 p2,
    endGame (Some sampleWords) [] 0 (set_timer (startTimer samplePage) 0) = Done p1
    ∧ ticking p1 = false
    ∧ strayIntervals p1 = strayIntervals (set_timer (startTimer samplePage) 0)
    ∧ strayTick (Some sampleWords) [] 1 p1 = Done p2
    ∧ timer p2 = timer (set_timer (startTimer samplePage) 0) - 1
    ∧ isGameActive (game p2) = false
    ∧ strayIntervals p2 = strayIntervals (set_timer (startTimer samplePage) 0)
    ∧ highScores p2
      = highScores
          (saveScore [] 1
             (score (game (set_timer (startTimer samplePage) 0))) p1).
Proof.
  apply (stray_interval_outlives_round (Some sampleWords) [] [] 0 1
           (set_timer (startTimer samplePage) 0)).
  - split; [reflexivity|]. repeat constructor.
  - simpl. lia.
  - simpl. lia.
Defined.

Lemma round_lasts_timer_ticks_witness :
  (∀ k, (k < 45)%nat →
     ticks (Some sampleWords) k [] 0 samplePage
     = Done (set_timer samplePage (Z.of_nat (45 - k))))
  ∧ ticks (Some sampleWords) 45 [] 0 samplePage
    = endGame (Some sampleWords) [] 0 (set_timer samplePage 0)
  ∧ ∃ p', ticks (Some sampleWords) 45 [] 0 samplePage = Done p'
          ∧ isGameActive (game p') = false ∧ ticking p' = false ∧ timer p' = 0
          ∧ ∀ k, (45 ≤ k)%nat →
              ticks (Some sampleWords) k [] 0 samplePage
              = Done p'.
Proof.
  apply (round_lasts_timer_ticks (Some sampleWords) [] 0
           samplePage 45).
  - split; [reflexivity|]. repeat constructor.
  - reflexivity.
  - reflexivity.
  - lia.
Defined.

(** ** Dice of the grid *)

Lemma mapO_Forall2 {A B : Type} (f : A → outcome B) (xs : list A) (ys : list B) :
  mapO f xs = Done ys → Forall2 (λ x y, f x = Done y) xs ys.
Proof.
  revert ys. induction xs as [|x xs IH]; intros ys; simpl.
  - intros [= <-]. constructor.
  - destruct (f x) as [y| |] eqn:Hx; simpl; [|done..].
    destruct (mapO f xs) as [ys'| |]; simpl; [|done..].
    intros [= <-]. constructor; [done|]. by apply IH.
Qed.

Section Dice.
Context {locale : Locale}.

(** X12. With the random choices of a shuffle and a die,
    [buildGridData] deals one die to each position of the grid and the
    cell shows, in upper case, the face of that die picked for it. The
    dice dealt are taken from the pool without using a die twice: on a
    4 by 4 grid they are the sixteen dice of [DICE], each used once; on
    a 5 by 5 grid twenty-five of the forty-one dice of both lists. *)
Theorem buildGridData_dice (d : Draw) (g : Game) :
  fair d →
  ∃ g' dice,
    buildGridData d g = Done g'
    ∧ length dice = (gridSize g * gridSize g)%nat
    ∧ Forall (λ die, die ∈ DICE ++ DICE_EXTENDED) dice
    ∧ (gridSize g = 4%nat → dice ≡ₚ DICE)
    ∧ (gridSize g = 5%nat → dice ⊆+ DICE ++ DICE_EXTENDED)
    ∧ ∀ i j, (i < gridSize g)%nat → (j < gridSize g)%nat →
        ∃ die u,
          dice !! (i * gridSize g + j)%nat = Some die
          ∧ die !! faceIndex d (i * gridSize g + j)%nat = Some u
          ∧ gridAt (grid g') (Z.of_nat i) (Z.of_nat j)
            = Some (toLocaleUpperCase [u]).
Proof.
  intros [Hperm Hface]. set (n := gridSize g).
  destruct (padDice_Done (n * n) (n * n)
              (if (n =? 5)%nat then DICE ++ DICE_EXTENDED else DICE))
    as (pool & Hpad & Hlen & Hdice).
  { lia. }
  { destruct (n =? 5)%nat; apply Forall_forall; intros die Hdie; [done|].
    apply elem_of_app. by left. }
  set (dice := take (n * n) (sortOutcome d pool)).
  assert (length dice = (n * n)%nat) as Hdl.
  { unfold dice. rewrite length_take, (Permutation_length (Hperm pool)). lia. }
  assert (Forall (λ die, die ∈ DICE ++ DICE_EXTENDED) dice) as Hmem.
  { apply Forall_forall. intros die Hdie. unfold dice in Hdie.
    apply elem_of_take in Hdie as (i & Hi & _).
    rewrite Forall_forall in Hdice. apply Hdice.
    rewrite <- (Hperm pool). apply list_elem_of_lookup. eauto. }
  destruct (buildGridData_Done d g (conj Hperm Hface)) as (rows & _ & Hbuild).
  specialize (Hbuild (grid g)).
  replace (set_grid g (grid g)) with g in Hbuild by (by destruct g).
  exists (set_grid g rows), dice. split; [done|]. split; [done|]. split; [done|].
  split; [|split].
  - intros Hn. unfold dice. revert Hpad. fold n in Hn. rewrite Hn.
    intros [= <-]. rewrite take_ge; [apply Hperm|].
    by rewrite (Permutation_length (Hperm DICE)).
  - intros Hn. unfold dice. revert Hpad. fold n in Hn. rewrite Hn.
    intros [= <-]. etrans; [apply submseteq_take|]. by rewrite (Hperm _).
  - intros i j Hi Hj.
    unfold buildGridData in Hbuild. cbv zeta in Hbuild. fold n in Hbuild.
    rewrite Hpad in Hbuild. cbn [obind] in Hbuild. fold dice in Hbuild.
    destruct (mapO _ (seq 0 n)) as [rows'| |] eqn:Hrows in Hbuild; [|done..].
    cbn [obind] in Hbuild. injection Hbuild as ->.
    apply mapO_Forall2 in Hrows.
    destruct (Forall2_lookup_l _ _ _ i i Hrows) as (row & Hrow & Hinner).
    { by apply lookup_seq_lt. }
    apply mapO_Forall2 in Hinner.
    destruct (Forall2_lookup_l _ _ _ j j Hinner) as (cell & Hcell & Hdie).
    { by apply lookup_seq_lt. }
    cbv beta in Hdie.
    destruct (dice !! (i * n + j)%nat) as [die|] eqn:Hlook; [|done].
    cbn [orFault obind] in Hdie. injection Hdie as <-.
    assert (die ∈ DICE ++ DICE_EXTENDED) as Hin.
    { rewrite Forall_forall in Hmem. apply Hmem, list_elem_of_lookup. eauto. }
    destruct (lookup_lt_is_Some_2 die (faceIndex d (i * n + j)%nat)) as [u Hu].
    { rewrite (dice_six die Hin). apply Hface. }
    exists die, u. split; [done|]. split; [done|].
    unfold gridAt.
    replace (Z.of_nat i <? 0) with false by (symmetry; apply Z.ltb_ge; lia).
    replace (Z.of_nat j <? 0) with false by (symmetry; apply Z.ltb_ge; lia).
    cbn [orb set_grid grid]. rewrite !Nat2Z.id, Hrow. simpl. rewrite Hcell.
    unfold charAt. by rewrite Hu.
Qed.

End Dice.

Lemma buildGridData_dice_witness :
  ∃ g' dice,
    buildGridData (locale := trLocale)
      (mkDraw (λ pool, reverse pool) (λ k, k `mod` 6)%nat) sampleGame = Done g'
    ∧ length dice = (gridSize sampleGame * gridSize sampleGame)%nat
    ∧ Forall (λ die, die ∈ DICE ++ DICE_EXTENDED) dice
    ∧ (gridSize sampleGame = 4%nat → dice ≡ₚ DICE)
    ∧ (gridSize sampleGame = 5%nat → dice ⊆+ DICE ++ DICE_EXTENDED)
    ∧ ∀ i j, (i < gridSize sampleGame)%nat → (j < gridSize sampleGame)%nat →
        ∃ die u,
          dice !! (i * gridSize sampleGame + j)%nat = Some die
          ∧ die !! faceIndex (mkDraw (λ pool, reverse pool) (λ k, k `mod` 6)%nat)
                     (i * gridSize sampleGame + j)%nat = Some u
          ∧ gridAt (grid g') (Z.of_nat i) (Z.of_nat j)
            = Some (toLocaleUpperCase (Locale := trLocale) [u]).
Proof.
  apply (buildGridData_dice (locale := trLocale)).
  split.
  - intros pool. cbn [sortOutcome]. apply reverse_Permutation.
  - intros k. cbn [faceIndex]. apply Nat.mod_upper_bound. lia.
Defined.

(** ** Start of a round *)

Section StartOfRound.
Context {locale : Locale}.
Variable commonWords : option (list jsstring).


End StartOfRound.


(** ** Dragging along a path *)

Lemma trySelectCell_appends (cellEl : Cell) (g : Game) :
  legalPath (selectedCells g ++ [cellEl]) →
  trySelectCell cellEl g = selectCell cellEl g.
Proof.
  intros [Hnd Hch].
  apply NoDup_app in Hnd as (_ & Hnotin & _).
  assert (cellEl ∉ selectedCells g) as Hnew.
  { intros Hin. apply (Hnotin _ Hin), list_elem_of_here. }
  destruct (trySelectCell_cases cellEl g)
    as [[Hpen _]|[(_ & _ & Heq)|(_ & (l & Hl & Hbad) & _)]]; [|done|]; exfalso.
  - apply penultimate_Some in Hpen as (q & l & Hq). apply Hnew. rewrite Hq.
    apply elem_of_app. right. apply list_elem_of_here.
  - destruct Hbad as [Hfar|Hin]; [|done]. apply Hfar.
    rewrite chebyshev_sym. by apply (chained_app_join (selectedCells g) []).
Qed.

Lemma legalPath_app_l (p q : list Cell) : legalPath (p ++ q) → legalPath p.
Proof.
  intros [Hnd Hch]. split; [by apply NoDup_app in Hnd as (? & _)|].
  by eapply chained_app_l.
Qed.

(** Moves with the pointer down along the rest of a legal path append
    its cells and mark the gesture as moved. *)
Lemma drag_select (rest : list Cell) :
  ∀ g, isGameActive g = true → isDragging g = true →
  legalPath (selectedCells g ++ rest) →
  let g' := drag (Some <$> rest) g in
  selectedCells g' = selectedCells g ++ rest
  ∧ (rest ≠ [] → synced g' ∧ interactionMoved g' = true)
  ∧ isGameActive g' = true ∧ isDragging g' = true
  ∧ grid g' = grid g
  ∧ foundWords g' = foundWords g ∧ score g' = score g.
Proof.
  induction rest as [|c rest IH]; intros g Hact Hdrag Hlegal; cbv zeta.
  - simpl. rewrite app_nil_r. done.
  - change (drag (Some <$> c :: rest) g)
      with (drag (Some <$> rest) (handleInputMove (Some c) g)).
    assert (handleInputMove (Some c) g = set_interactionMoved (selectCell c g) true)
      as Hmove.
    { unfold handleInputMove. rewrite Hact, Hdrag. simpl.
      rewrite trySelectCell_appends.
      - simpl. rewrite length_app. simpl.
        replace (length (selectedCells g) + 1 =? length (selectedCells g))%nat
          with false by (symmetry; apply Nat.eqb_neq; lia).
        done.
      - apply (legalPath_app_l _ rest). by rewrite <- app_assoc. }
    destruct (IH (handleInputMove (Some c) g))
      as (Hp & Hs & Ha & Hd & Hgr & Hf & Hsc); rewrite ?Hmove; try done.
    { simpl. by rewrite <- app_assoc. }
    rewrite Hmove in *. simpl in Hp, Hgr, Hf, Hsc.
    rewrite Hp, <- app_assoc. split; [done|]. split; [|done].
    intros _. destruct rest as [|c' rest]; [done|]. by apply Hs.
Qed.

Section Dragging.
Context {locale : Locale}.
Variable commonWords : option (list jsstring).

(** X14. A word swiped is a word submitted: in an active round with
    nothing selected, a press on the first cell of a legal path of two
    cells or more, moves over its other cells and the release clear the
    selection; the word spelled, in upper case, is appended to the found
    words and scored when it has three letters or more, is new and
    passes the dictionary check, and otherwise found words and score
    stay. *)
Theorem drag_submits_word (cellEl : Cell) (rest : list Cell) (g : Game) :
  isGameActive g = true → selectedCells g = [] →
  rest ≠ [] → legalPath (cellEl :: rest) →
  let w := toLocaleUpperCase (letters (grid g) (cellEl :: rest)) in
  let g' := gesture commonWords cellEl (Some <$> rest) g in
  selectedCells g' = [] ∧ currentWord g' = [] ∧ isDragging g' = false
  ∧ ((3 ≤ length w)%nat ∧ (w ∉ foundWords g) ∧ passesDictionary commonWords w →
     foundWords g' = foundWords g ++ [w] ∧ score g' = score g + getScore w)
  ∧ (¬ ((3 ≤ length w)%nat ∧ (w ∉ foundWords g) ∧ passesDictionary commonWords w) →
     foundWords g' = foundWords g ∧ score g' = score g).
Proof.
  intros Hact Hempty Hrest Hlegal. cbv zeta. unfold gesture.
  assert (handleInputStart (Some cellEl) g
          = selectCell cellEl (set_interactionMoved (set_isDragging g true) false))
    as ->.
  { unfold handleInputStart. rewrite Hact. simpl.
    apply trySelectCell_appends. simpl. rewrite Hempty. simpl.
    split; [apply NoDup_singleton|done]. }
  set (g1 := selectCell cellEl (set_interactionMoved (set_isDragging g true) false)).
  destruct (drag_select rest g1) as (Hp & Hs & Ha & Hd & Hgr & Hf & Hsc);
    [done|done| |].
  { simpl. by rewrite Hempty. }
  destruct (Hs Hrest) as [Hsync Hmoved].
  change (selectedCells g1) with (selectedCells g ++ [cellEl]) in Hp.
  change (grid g1) with (grid g) in Hgr.
  change (foundWords g1) with (foundWords g) in Hf.
  change (score g1) with (score g) in Hsc.
  rewrite Hempty in Hp. simpl in Hp.
  set (g2 := drag (Some <$> rest) g1) in *.
  assert (handleInputEnd commonWords g2
          = submitWord commonWords true (set_isDragging g2 false)) as Hend.
  { unfold handleInputEnd. rewrite Hd.
    cbn [interactionMoved selectedCells set_isDragging]. rewrite Hmoved, Hp. done. }
  rewrite Hend.
  assert (candidate (set_isDragging g2 false)
          = toLocaleUpperCase (letters (grid g) (cellEl :: rest))) as Hcand.
  { unfold candidate. cbn [currentWord set_isDragging]. by rewrite Hsync, Hp, Hgr. }
  destruct (submitWord_cases commonWords true (set_isDragging g2 false))
    as [[Hoff _]|(_ & Hsel & Hword & _ & _ & _ & Hdrag & _ & Hboard)].
  { simpl in Hoff. congruence. }
  rewrite Hcand in Hboard. cbn [foundWords score set_isDragging] in Hboard.
  rewrite Hf, Hsc in Hboard.
  split; [done|]. split; [done|]. split; [done|].
  split.
  - intros (Hlen & Hnew & Hdict).
    destruct (submitWord_valid commonWords true (set_isDragging g2 false))
      as [[Hf' Hs'] _]; rewrite ?Hcand; cbn [foundWords set_isDragging];
      rewrite ?Hf; try done.
    rewrite Hcand in Hf', Hs'. cbn [foundWords score set_isDragging] in Hf', Hs'.
    rewrite Hf in Hf'. rewrite Hsc in Hs'. done.
  - intros Hnot. destruct Hboard as [?|(? & ? & ? & _)]; [done|].
    by destruct Hnot.
Qed.

(** X15. From an empty path, whatever events come on cells of the grid,
    the selected path has no repeated cell, stays inside the grid and
    never holds more cells than the grid has. *)
Theorem path_fits_grid (n : nat) (events : list Event) (g : Game) :
  selectedCells g = [] → Forall (eventInBounds n) events →
  let p := selectedCells (play commonWords events g) in
  NoDup p ∧ Forall (inBounds n) p ∧ (length p ≤ n * n)%nat.
Proof.
  intros Hempty Hall. cbv zeta.
  assert (Hinv : ∀ es, Forall (eventInBounds n) es → ∀ g1,
    legalPath (selectedCells g1) ∧ Forall (inBounds n) (selectedCells g1) →
    legalPath (selectedCells (play commonWords es g1))
    ∧ Forall (inBounds n) (selectedCells (play commonWords es g1))).
  { intros es Hes. induction Hes as [|e es He _ IH]; intros g1 Hg1; [done|].
    simpl. apply IH. destruct Hg1 as [Hlegal Hin].
    assert (Hnil : legalPath [] ∧ Forall (inBounds n) []).
    { split; [split; [apply NoDup_nil_2|done]|apply Forall_nil_2]. }
    assert (Hsub : ∀ isAuto g0,
      legalPath (selectedCells g0) ∧ Forall (inBounds n) (selectedCells g0) →
      legalPath (selectedCells (submitWord commonWords isAuto g0))
      ∧ Forall (inBounds n) (selectedCells (submitWord commonWords isAuto g0))).
    { intros isAuto g0 Hg0.
      destruct (submitWord_cases commonWords isAuto g0)
        as [[_ ->]|(_ & -> & _)]; done. }
    destruct e as [[cellEl|]|[cellEl|]| | |]; simpl in *.
    - unfold handleInputStart. destruct (isGameActive g1); simpl; [|done].
      split; [by apply trySelectCell_legal|by apply trySelectCell_inBounds].
    - unfold handleInputStart. by destruct (isGameActive g1).
    - unfold handleInputMove.
      destruct (negb (isDragging g1) || negb (isGameActive g1)); [done|].
      destruct (negb _); simpl;
        (split; [by apply trySelectCell_legal|by apply trySelectCell_inBounds]).
    - unfold handleInputMove.
      by destruct (negb (isDragging g1) || negb (isGameActive g1)).
    - unfold handleInputEnd. destruct (isDragging g1); [|done].
      destruct (_ && _); [|done]. by apply Hsub.
    - by apply Hsub.
    - done. }
  destruct (Hinv events Hall g) as [[Hnd _] Hin].
  { rewrite Hempty. split; [split; [apply NoDup_nil_2|done]|apply Forall_nil_2]. }
  split; [done|]. split; [done|].
  set (p := selectedCells (play commonWords events g)) in *.
  set (index := λ cell : Cell, (Z.to_nat cell.1 * n + Z.to_nat cell.2)%nat).
  assert (length (index <$> p) ≤ length (seq 0 (n * n)))%nat as Hle.
  { apply submseteq_length, NoDup_submseteq.
    - apply NoDup_fmap_2_strong; [|done].
      intros [r c] [r' c'] Hx Hy Heq. rewrite Forall_forall in Hin.
      destruct (Hin _ Hx) as [Hr Hc]. destruct (Hin _ Hy) as [Hr' Hc'].
      unfold index in Heq. simpl in *.
      assert (Z.to_nat r = Z.to_nat r') as Hrr by nia.
      assert (Z.to_nat c = Z.to_nat c') as Hcc by nia.
      f_equal; lia.
    - intros k (cell & -> & Hcell)%list_elem_of_fmap. rewrite Forall_forall in Hin.
      destruct (Hin _ Hcell) as [Hr Hc]. apply elem_of_seq. unfold index. nia. }
  by rewrite length_fmap, length_seq in Hle.
Qed.

(** X16. Hovering selects nothing: after a release, moves of the
    pointer change nothing until the next press. *)
Theorem hover_changes_nothing (cells : list (option Cell)) (g : Game) :
  play commonWords (Release :: (Move <$> cells)) g = handleInputEnd commonWords g
  ∧ isDragging (handleInputEnd commonWords g) = false.
Proof.
  assert (isDragging (handleInputEnd commonWords g) = false) as Hup.
  { unfold handleInputEnd. destruct (isDragging g) eqn:Hd; [|done].
    destruct (_ && _); [|done].
    destruct (submitWord_cases commonWords true (set_isDragging g false))
      as [[_ ->]|(_ & _ & _ & _ & _ & _ & -> & _)]; done. }
  split; [|done].
  change (play commonWords (Release :: (Move <$> cells)) g)
    with (play commonWords (Move <$> cells) (handleInputEnd commonWords g)).
  generalize dependent (handleInputEnd commonWords g). intros g1 Hg1.
  induction cells as [|cell cells IH]; [done|].
  change (play commonWords (Move <$> cell :: cells) g1)
    with (play commonWords (Move <$> cells) (handleInputMove cell g1)).
  replace (handleInputMove cell g1) with g1; [done|].
  unfold handleInputMove. by rewrite Hg1.
Qed.

End Dragging.

Lemma drag_submits_word_witness :
  let w := toLocaleUpperCase (Locale := trLocale)
             (letters (grid sampleGame) ((2, 0) :: [(2, 1); (2, 2); (2, 3)])) in
  let g' := gesture (locale := trLocale) (Some sampleWords) (2, 0)
              (Some <$> [(2, 1); (2, 2); (2, 3)]) sampleGame in
  selectedCells g' = [] ∧ currentWord g' = [] ∧ isDragging g' = false
  ∧ ((3 ≤ length w)%nat ∧ (w ∉ foundWords sampleGame)
     ∧ passesDictionary (Some sampleWords) w →
     foundWords g' = foundWords sampleGame ++ [w]
     ∧ score g' = score sampleGame + getScore w)
  ∧ (¬ ((3 ≤ length w)%nat ∧ (w ∉ foundWords sampleGame)
        ∧ passesDictionary (Some sampleWords) w) →
     foundWords g' = foundWords sampleGame ∧ score g' = score sampleGame).
Proof.
  apply (drag_submits_word (locale := trLocale) (Some sampleWords) (2, 0)
           [(2, 1); (2, 2); (2, 3)] sampleGame).
  - reflexivity.
  - reflexivity.
  - discriminate.
  - split.
    + apply (bool_decide_unpack (NoDup [(2, 0); (2, 1); (2, 2); (2, 3)])).
      vm_compute. exact I.
    + simpl. unfold chebyshev. simpl. lia.
Defined.

Lemma path_fits_grid_witness :
  let p := selectedCells
             (play (locale := trLocale) (Some sampleWords)
                [Press (Some (0, 0)); Move (Some (1, 1)); Move (Some (0, 1));
                 Move (Some (1, 1))] sampleGame) in
  NoDup p ∧ Forall (inBounds 4) p ∧ (length p ≤ 4 * 4)%nat.
Proof.
  apply (path_fits_grid (locale := trLocale) (Some sampleWords) 4).
  - reflexivity.
  - repeat constructor; simpl; lia.
Defined.

(** ** The release of the pointer *)

(** [trySelectCell] moves the path as the tracker of the specification
    does. *)
Lemma trySelectCell_track (cellEl : Cell) (g : Game) :
  selectedCells (trySelectCell cellEl g) = spec_track (selectedCells g) cellEl.
Proof.
  unfold spec_track.
  destruct (trySelectCell_cases cellEl g)
    as [[Hpen ->]|[(Hpen & Hadd & ->)|(Hpen & (l & Hl & Hbad) & ->)]].
  - rewrite bool_decide_eq_true_2 by done.
    apply penultimate_Some in Hpen as (q & l & Hq).
    replace (q ++ [cellEl; l]) with ((q ++ [cellEl]) ++ [l]) in Hq
      by (by rewrite <- app_assoc).
    rewrite (deselectLast_path g _ _ Hq), Hq, last_snoc. by rewrite pop_snoc.
  - change (selectedCells (selectCell cellEl g)) with (selectedCells g ++ [cellEl]).
    destruct Hadd as [Hnone|(l & Hl & Hadj & Hnew)].
    + rewrite Hnone. apply last_None in Hnone. by rewrite Hnone.
    + rewrite Hl, bool_decide_eq_false_2 by done.
      rewrite bool_decide_eq_true_2; [done|].
      split; [by rewrite chebyshev_sym|done].
  - rewrite Hl, bool_decide_eq_false_2 by done.
    rewrite bool_decide_eq_false_2; [done|].
    intros [Hadj Hnew]. rewrite chebyshev_sym in Hadj. by destruct Hbad.
Qed.

(** A cell input that is not ignored leaves the current word in step
    with the path. *)
Lemma trySelectCell_sync (cellEl : Cell) (g : Game) :
  trySelectCell cellEl g = g ∨ synced (trySelectCell cellEl g).
Proof.
  destruct (trySelectCell_cases cellEl g) as [[_ ->]|[(_ & _ & ->)|(_ & _ & ->)]].
  - unfold deselectLast. destruct (last (selectedCells g)); [by right|by left].
  - by right.
  - by left.
Qed.

Lemma spec_track_same (path : list Cell) (target : Cell) :
  length (spec_track path target) = length path → spec_track path target = path.
Proof.
  unfold spec_track. destruct (last path) as [l|] eqn:Hl.
  - apply last_Some in Hl as [q ->].
    destruct (bool_decide _).
    + rewrite pop_snoc, length_app. simpl. lia.
    + destruct (bool_decide _); [|done]. rewrite !length_app. simpl. lia.
  - apply last_None in Hl as ->. done.
Qed.

Lemma spec_move_same (path : list Cell) (m : option Cell) :
  negb (length path =? length (spec_move path m))%nat
  = negb (bool_decide (spec_move path m = path)).
Proof.
  f_equal. destruct (bool_decide_reflect (spec_move path m = path)) as [->|Hne].
  - apply Nat.eqb_refl.
  - apply Nat.eqb_neq. intros Hlen. apply Hne.
    destruct m as [target|]; [|done]. by apply spec_track_same.
Qed.

Lemma spec_added_changed (moves : list (option Cell)) (path : list Cell) :
  spec_added path moves = true → spec_changed path moves = true.
Proof.
  revert path. induction moves as [|m moves IH]; intros path; [done|].
  cbn [spec_added spec_changed]. intros [Hnow|Hlater]%orb_true_iff.
  - apply orb_true_iff. left. apply negb_true_iff, bool_decide_eq_false_2.
    intros Heq. rewrite Heq in Hnow. apply Nat.ltb_lt in Hnow. lia.
  - apply orb_true_iff. right. by apply IH.
Qed.

(** A move with the pointer down moves the path as the tracker of the
    specification does. *)
Lemma handleInputMove_track (m : option Cell) (g : Game) :
  dragging g →
  let g' := handleInputMove m g in
  selectedCells g' = spec_move (selectedCells g) m
  ∧ grid g' = grid g ∧ foundWords g' = foundWords g ∧ score g' = score g
  ∧ (g' = g ∨ synced g').
Proof.
  intros (Hact & Hdrag & _). cbv zeta. unfold handleInputMove.
  rewrite Hact, Hdrag. cbn [negb orb]. destruct m as [cellEl|];
    [|repeat split; try done; by left].
  destruct (trySelectCell_board cellEl g) as (Hf & Hs & Hgr & _).
  pose proof (trySelectCell_track cellEl g) as Hp.
  destruct (negb (length (selectedCells (trySelectCell cellEl g))
                  =? length (selectedCells g))%nat) eqn:Hch.
  - cbn [selectedCells grid foundWords score set_interactionMoved].
    repeat split; try done. right.
    destruct (trySelectCell_sync cellEl g) as [Heq|Hsync]; [|done].
    rewrite Heq, Nat.eqb_refl in Hch. done.
  - repeat split; try done. apply trySelectCell_sync.
Qed.

(** A drag moves the path as the tracker of the specification does, and
    sets the flag read at the release when the path changed. *)
Lemma drag_track (moves : list (option Cell)) :
  ∀ g, dragging g →
  let g' := drag moves g in
  selectedCells g' = spec_drag (selectedCells g) moves
  ∧ movesChanging moves g = spec_changed (selectedCells g) moves
  ∧ (spec_changed (selectedCells g) moves = true → synced g')
  ∧ grid g' = grid g ∧ foundWords g' = foundWords g ∧ score g' = score g.
Proof.
  induction moves as [|m moves IH]; intros g Hg; cbv zeta; [done|].
  change (drag (m :: moves) g) with (drag moves (handleInputMove m g)).
  destruct (handleInputMove_dragging m g Hg) as (Hg1 & _ & _).
  destruct (handleInputMove_track m g Hg) as (Hp & Hgr & Hf & Hs & Hsync).
  destruct (IH _ Hg1) as (Hp' & Hch' & Hsync' & Hgr' & Hf' & Hs').
  destruct (drag_dragging moves _ Hg1) as (_ & _ & Hsame).
  cbn [spec_drag fold_left movesChanging spec_changed].
  fold (spec_drag (spec_move (selectedCells g) m) moves).
  rewrite Hp', Hch', Hgr', Hf', Hs', Hp, Hgr, Hf, Hs, spec_move_same.
  repeat split; try done.
  destruct (spec_changed (spec_move (selectedCells g) m) moves) eqn:Hlater.
  - intros _. apply Hsync'. by rewrite Hp.
  - rewrite orb_false_r. intros Hnow%negb_true_iff.
    rewrite Hsame by (by rewrite Hch', Hp).
    destruct Hsync as [Heq|Hsync]; [|done].
    rewrite Heq in Hp. rewrite <- Hp in Hnow.
    by rewrite bool_decide_eq_true_2 in Hnow.
Qed.

Section ReleaseRule.
Context {locale : Locale}.
Variable commonWords : option (list jsstring).

(** C8. In an active round, after a press on a cell the release submits
    the path exactly when some move of the pointer between the press and
    the release changed it, by adding a cell or by taking the last one
    back; every path to which a move added a cell is among these. The
    path is then cleared, and the word it spells, in upper case, is
    appended to the found words and scored when it has three letters or
    more, is new and passes the dictionary check; the pointer has been
    over another cell than the pressed one. With no move that changed
    the path, as after a stationary press, the path of the press stays
    selected and nothing is found or scored. *)
Theorem release_submits_moved_path (cellEl : Cell) (moves : list (option Cell))
    (g : Game) :
  isGameActive g = true →
  let pressed := spec_track (selectedCells g) cellEl in
  let dragged := spec_drag pressed moves in
  let w := toLocaleUpperCase (letters (grid g) dragged) in
  let g' := gesture commonWords cellEl moves g in
  (selectedCells g' = [] ↔ spec_changed pressed moves = true)
  ∧ (spec_added pressed moves = true → spec_changed pressed moves = true)
  ∧ (spec_changed pressed moves = true →
     ((3 ≤ length w)%nat ∧ (w ∉ foundWords g) ∧ passesDictionary commonWords w →
      foundWords g' = foundWords g ++ [w] ∧ score g' = score g + getScore w)
     ∧ (¬ ((3 ≤ length w)%nat ∧ (w ∉ foundWords g)
           ∧ passesDictionary commonWords w) →
        foundWords g' = foundWords g ∧ score g' = score g)
     ∧ (NoDup (selectedCells g) → ∃ other, Some other ∈ moves ∧ other ≠ cellEl))
  ∧ (spec_changed pressed moves = false →
     selectedCells g' = pressed ∧ pressed ≠ []
     ∧ foundWords g' = foundWords g ∧ score g' = score g).
Proof.
  intros Hact. cbv zeta. unfold gesture.
  destruct (release_after_drag commonWords cellEl moves g Hact)
    as (Hg1 & Hg2 & Hyes & Hno).
  destruct (drag_track moves _ Hg1) as (Hp & Hch & Hsync & Hgr & Hf & Hs).
  assert (Hstart : handleInputStart (Some cellEl) g
                   = trySelectCell cellEl
                       (set_interactionMoved (set_isDragging g true) false)).
  { unfold handleInputStart. by rewrite Hact. }
  assert (Hp1 : selectedCells (handleInputStart (Some cellEl) g)
                = spec_track (selectedCells g) cellEl).
  { rewrite Hstart.
    apply (trySelectCell_track cellEl
             (set_interactionMoved (set_isDragging g true) false)). }
  destruct (trySelectCell_board cellEl
              (set_interactionMoved (set_isDragging g true) false))
    as (Hf1 & Hs1 & Hgr1 & _).
  rewrite <- Hstart in Hf1, Hs1, Hgr1.
  cbn [foundWords score grid set_interactionMoved set_isDragging] in Hf1, Hs1, Hgr1.
  rewrite Hp1 in Hp, Hch, Hsync. rewrite Hgr1 in Hgr. rewrite Hf1 in Hf.
  rewrite Hs1 in Hs. rewrite Hch in Hyes, Hno.
  set (g1 := handleInputStart (Some cellEl) g) in *.
  set (g2 := drag moves g1) in *.
  assert (Hstay : spec_changed (spec_track (selectedCells g) cellEl) moves = false →
            selectedCells (handleInputEnd commonWords g2)
            = spec_track (selectedCells g) cellEl
            ∧ spec_track (selectedCells g) cellEl ≠ []
            ∧ foundWords (handleInputEnd commonWords g2) = foundWords g
            ∧ score (handleInputEnd commonWords g2) = score g).
  { intros Hsame. destruct (Hno Hsame) as [_ ->].
    cbn [selectedCells foundWords score set_isDragging].
    rewrite Hp1, Hf1, Hs1. repeat split; try done.
    rewrite <- Hp1. by destruct Hg1 as (_ & _ & ?). }
  split; [|split; [apply spec_added_changed|split; [|done]]].
  - split.
    + intros Hnil.
      destruct (spec_changed (spec_track (selectedCells g) cellEl) moves) eqn:Hsame;
        [done|].
      destruct (Hstay eq_refl) as (Hkeep & Hne & _). by rewrite Hnil in Hkeep.
    + intros Hmoved. rewrite (Hyes Hmoved). apply submitWord_clears.
      by destruct Hg2 as (? & _).
  - intros Hmoved. rewrite (Hyes Hmoved).
    assert (Hcand : candidate (set_isDragging g2 false)
                    = toLocaleUpperCase
                        (letters (grid g)
                           (spec_drag (spec_track (selectedCells g) cellEl) moves))).
    { unfold candidate. cbn [currentWord set_isDragging].
      by rewrite (Hsync Hmoved), Hp, Hgr. }
    assert (Hact2 : isGameActive (set_isDragging g2 false) = true)
      by (by destruct Hg2 as (? & _)).
    destruct (submitWord_cases commonWords true (set_isDragging g2 false))
      as [[Hoff _]|(_ & _ & _ & _ & _ & _ & _ & _ & Hboard)]; [congruence|].
    rewrite Hcand in Hboard. cbn [foundWords score set_isDragging] in Hboard.
    rewrite Hf, Hs in Hboard.
    split; [|split].
    + intros (Hlen & Hnew & Hdict).
      destruct (submitWord_valid commonWords true (set_isDragging g2 false))
        as [[Hf' Hs'] _]; rewrite ?Hcand; cbn [foundWords set_isDragging];
        rewrite ?Hf; try done.
      rewrite Hcand in Hf', Hs'. cbn [foundWords score set_isDragging] in Hf', Hs'.
      rewrite Hf in Hf'. rewrite Hs in Hs'. done.
    + intros Hnot. destruct Hboard as [?|(? & ? & ? & _)]; [done|].
      by destruct Hnot.
    + intros Hnd. apply (changing_move_other cellEl moves g Hact Hnd).
      fold g1. by rewrite Hch.
Qed.

End ReleaseRule.

Lemma release_submits_moved_path_witness :
  let pressed := spec_track (selectedCells sampleGame) (0, 0) in
  let dragged := spec_drag pressed [Some (0, 1); Some (0, 2)] in
  let w := toLocaleUpperCase (Locale := trLocale)
             (letters (grid sampleGame) dragged) in
  let g' := gesture (locale := trLocale) (Some sampleWords) (0, 0)
              [Some (0, 1); Some (0, 2)] sampleGame in
  (selectedCells g' = [] ↔ spec_changed pressed [Some (0, 1); Some (0, 2)] = true)
  ∧ (spec_added pressed [Some (0, 1); Some (0, 2)] = true →
     spec_changed pressed [Some (0, 1); Some (0, 2)] = true)
  ∧ (spec_changed pressed [Some (0, 1); Some (0, 2)] = true →
     ((3 ≤ length w)%nat ∧ (w ∉ foundWords sampleGame)
      ∧ passesDictionary (Some sampleWords) w →
      foundWords g' = foundWords sampleGame ++ [w]
      ∧ score g' = score sampleGame + getScore w)
     ∧ (¬ ((3 ≤ length w)%nat ∧ (w ∉ foundWords sampleGame)
           ∧ passesDictionary (Some sampleWords) w) →
        foundWords g' = foundWords sampleGame ∧ score g' = score sampleGame)
     ∧ (NoDup (selectedCells sampleGame) →
        ∃ other, Some other ∈ [Some (0, 1); Some (0, 2)] ∧ other ≠ (0, 0)))
  ∧ (spec_changed pressed [Some (0, 1); Some (0, 2)] = false →
     selectedCells g' = pressed ∧ pressed ≠ []
     ∧ foundWords g' = foundWords sampleGame ∧ score g' = score sampleGame).
Proof.
  apply (release_submits_moved_path (locale := trLocale)). reflexivity.
Defined.

(** C8 as stated fails for a drag that only takes a cell back. C, A and
    T are selected by three taps; the pointer goes down on the S below
    the T, which adds it, moves back to the T, which takes the S back,
    and goes up. No cell beyond the pressed one was added since the
    press, yet the release submits the path and clears it. *)
Lemma autosubmit_rule_backtrack :
  ¬ autosubmit_rule (locale := trLocale) (Some sampleWords) (1, 2) [Some (0, 2)]
      (play (locale := trLocale) (Some sampleWords)
         (taps [(0, 0); (0, 1); (0, 2)]) sampleGame).
Proof.
  unfold autosubmit_rule. cbv zeta. intros [[Hsubmitted _] _].
  vm_compute in Hsubmitted. discriminate (Hsubmitted eq_refl).
Qed.

(** The word submitted by that release is CAT, and it is scored. *)
Example backtrack_drag_scores_word :
  let tapped := play (locale := trLocale) (Some sampleWords)
                  (taps [(0, 0); (0, 1); (0, 2)]) sampleGame in
  let g' := gesture (locale := trLocale) (Some sampleWords) (1, 2) [Some (0, 2)]
              tapped in
  selectedCells tapped = [(0, 0); (0, 1); (0, 2)]
  ∧ foundWords tapped = [] ∧ score tapped = 0
  ∧ spec_added (spec_track (selectedCells tapped) (1, 2)) [Some (0, 2)] = false
  ∧ selectedCells g' = [] ∧ foundWords g' = [[67; 65; 84]%N] ∧ score g' = 1.
Proof. vm_compute. done. Qed.

(** The round has to be active at the release. The last tick of the
    timer comes while C, A and T are being dragged: [endGame] ends the
    round, and the release then leaves the path selected and nothing
    found, because [submitWord] returns at once. *)
Example release_after_last_tick :
  let dragged := drag [Some (0, 1); Some (0, 2)]
                   (handleInputStart (Some (0, 0)) sampleGame) in
  ∃ p',
    tick (Some sampleWords) [] 0 (set_timer (set_game samplePage dragged) 1)
    = Done p'
    ∧ interactionMoved (game p') = true
    ∧ let g' := handleInputEnd (locale := trLocale) (Some sampleWords) (game p') in
      selectedCells g' = [(0, 0); (0, 1); (0, 2)]
      ∧ foundWords g' = [] ∧ score g' = 0.
Proof. eexists. split; [vm_compute; reflexivity|]. vm_compute. done. Qed.

(** ** Timer display *)

Lemma numberToString_two_digits (n : Z) :
  0 ≤ n < 100 →
  padStart 2 48 (numberToString n)
  = [Z.to_N (48 + n `div` 10); Z.to_N (48 + n `mod` 10)].
Proof.
  intros Hn. unfold numberToString.
  replace (n <? 0) with false by (symmetry; apply Z.ltb_ge; lia).
  destruct (Z.eqb_spec n 0) as [->|Hnz]; [done|].
  destruct (Z.to_nat n) as [|fuel] eqn:Hfuel; [lia|]. cbn [digitsOf].
  destruct (Z.eqb_spec (n `div` 10) 0) as [Hlow|Hhigh].
  - rewrite Hlow. done.
  - destruct fuel as [|fuel].
    { assert (n = 1) as -> by lia. done. }
    cbn [digitsOf].
    assert (0 ≤ n `div` 10 < 10) as Htens
      by (split; [apply Z.div_pos; lia|apply Z.div_lt_upper_bound; lia]).
    rewrite (Z.div_small (n `div` 10) 10 Htens).
    rewrite (Z.mod_small (n `div` 10) 10 Htens).
    done.
Qed.

(** X17. Below a hundred minutes the timer reads mm:ss with two digits
    each, so that two different times never read the same, and it is in
    the warning colour exactly from ten seconds down. *)
Theorem timer_reads_minutes_seconds (p q : Page) :
  0 ≤ timer p < 6000 → 0 ≤ timer q < 6000 →
  (updateTimerDisplay p).1
  = [Z.to_N (48 + (timer p `div` 60) `div` 10); Z.to_N (48 + (timer p `div` 60) `mod` 10);
     58%N;
     Z.to_N (48 + (timer p `mod` 60) `div` 10); Z.to_N (48 + (timer p `mod` 60) `mod` 10)]
  ∧ ((updateTimerDisplay p).1 = (updateTimerDisplay q).1 → timer p = timer q)
  ∧ ((updateTimerDisplay p).2 = true ↔ timer p ≤ 10).
Proof.
  assert (Hshape : ∀ r : Page, 0 ≤ timer r < 6000 →
    (updateTimerDisplay r).1
    = [Z.to_N (48 + (timer r `div` 60) `div` 10);
       Z.to_N (48 + (timer r `div` 60) `mod` 10); 58%N;
       Z.to_N (48 + (timer r `mod` 60) `div` 10);
       Z.to_N (48 + (timer r `mod` 60) `mod` 10)]).
  { intros r Hr. unfold updateTimerDisplay. cbn [fst].
    rewrite Z.rem_mod_nonneg by lia.
    assert (0 ≤ timer r `div` 60 < 100) as Hm
      by (split; [apply Z.div_pos; lia|apply Z.div_lt_upper_bound; lia]).
    pose proof (Z.mod_pos_bound (timer r) 60 ltac:(lia)) as Hs.
    rewrite (numberToString_two_digits (timer r `div` 60)) by done.
    rewrite (numberToString_two_digits (timer r `mod` 60)) by lia.
    done. }
  intros Hp Hq. split; [by apply Hshape|]. split.
  - rewrite (Hshape p Hp), (Hshape q Hq).
    intros [= H1 H2 H3 H4].
    assert (0 ≤ timer p `div` 60 < 100) as Hm
      by (split; [apply Z.div_pos; lia|apply Z.div_lt_upper_bound; lia]).
    assert (0 ≤ timer q `div` 60 < 100) as Hm'
      by (split; [apply Z.div_pos; lia|apply Z.div_lt_upper_bound; lia]).
    pose proof (Z.mod_pos_bound (timer p) 60 ltac:(lia)) as Hs.
    pose proof (Z.mod_pos_bound (timer q) 60 ltac:(lia)) as Hs'.
    pose proof (Z.div_mod (timer p) 60 ltac:(lia)) as Ep.
    pose proof (Z.div_mod (timer q) 60 ltac:(lia)) as Eq.
    pose proof (Z.div_mod (timer p `div` 60) 10 ltac:(lia)) as Ep1.
    pose proof (Z.div_mod (timer q `div` 60) 10 ltac:(lia)) as Eq1.
    pose proof (Z.div_mod (timer p `mod` 60) 10 ltac:(lia)) as Ep2.
    pose proof (Z.div_mod (timer q `mod` 60) 10 ltac:(lia)) as Eq2.
    pose proof (Z.mod_pos_bound (timer p `div` 60) 10 ltac:(lia)).
    pose proof (Z.mod_pos_bound (timer q `div` 60) 10 ltac:(lia)).
    pose proof (Z.mod_pos_bound (timer p `mod` 60) 10 ltac:(lia)).
    pose proof (Z.mod_pos_bound (timer q `mod` 60) 10 ltac:(lia)).
    assert (0 ≤ (timer p `div` 60) `div` 10) by (apply Z.div_pos; lia).
    assert (0 ≤ (timer q `div` 60) `div` 10) by (apply Z.div_pos; lia).
    assert (0 ≤ (timer p `mod` 60) `div` 10) by (apply Z.div_pos; lia).
    assert (0 ≤ (timer q `mod` 60) `div` 10) by (apply Z.div_pos; lia).
    lia.
  - unfold updateTimerDisplay. cbn [snd]. apply Z.leb_le.
Qed.

Lemma timer_reads_minutes_seconds_witness :
  (updateTimerDisplay samplePage).1
  = [Z.to_N (48 + (timer samplePage `div` 60) `div` 10);
     Z.to_N (48 + (timer samplePage `div` 60) `mod` 10);
     58%N;
     Z.to_N (48 + (timer samplePage `mod` 60) `div` 10);
     Z.to_N (48 + (timer samplePage `mod` 60) `mod` 10)]
  ∧ ((updateTimerDisplay samplePage).1
     = (updateTimerDisplay (set_timer samplePage 125)).1 →
     timer samplePage = timer (set_timer samplePage 125))
  ∧ ((updateTimerDisplay samplePage).2 = true ↔ timer samplePage ≤ 10).
Proof.
  apply (timer_reads_minutes_seconds samplePage (set_timer samplePage 125));
    simpl; lia.
Defined.
